(** * Shortest paths on the JKU map and Ford-Fulkerson on a capacity matrix

    A shallow embedding of [Assignment 5/jku_map.py], [Assignment 5/step.py]
    and [Assignment 6/ff.py], with the properties of the specification
    stated and settled against it. *)

From Stdlib Require Import ZArith Lia.
From stdpp Require Import base list strings relations gmap.

Local Open Scope Z_scope.

(** ** Python exceptions as results *)

(** The exceptions the programs can raise.  [NoTermination] stands for a
    loop that exhausts the fuel of its model; [InfiniteFlow] for arithmetic
    between a matrix cell and [float("inf")], which the integer matrices of
    the model do not represent. *)
Inductive error : Set :=
  | ValueError
  | KeyError
  | IndexError
  | TypeError
  | AttributeError
  | InfiniteFlow
  | NoTermination.

Inductive result (A : Type) : Type :=
  | Ok (a : A)
  | Raise (e : error).
Arguments Ok {A} a.
Arguments Raise {A} e.

Definition result_bind {A B : Type} (f : A → result B) (m : result A) : result B :=
  match m with
  | Ok a => f a
  | Raise e => Raise e
  end.

#[global] Instance result_mbind : MBind result := @result_bind.
#[global] Instance result_mret : MRet result := @Ok.

(** [l[i]] on a Python list, for a non-negative index. *)
Definition item {A : Type} (l : list A) (i : nat) : result A :=
  match l !! i with
  | Some x => Ok x
  | None => Raise IndexError
  end.

(** [l[i] = x] on a Python list, for a non-negative index. *)
Definition setitem {A : Type} (l : list A) (i : nat) (x : A) : result (list A) :=
  if decide (i < length l)%nat then Ok (<[i := x]> l) else Raise IndexError.

(** A monadic left fold: the body of a [for] loop run over a list. *)
Fixpoint for_each {A S : Type} (body : A → S → result S) (l : list A) (s : S)
  : result S :=
  match l with
  | [] => Ok s
  | x :: l' => s' ← body x s; for_each body l' s'
  end.

(** Results can be compared. *)
#[global] Instance error_eq_dec : EqDecision error.
Proof. solve_decision. Defined.

#[global] Instance result_eq_dec {A} `{EqDecision A} : EqDecision (result A).
Proof. solve_decision. Defined.

(** The exception a call ends with, if any. *)
Definition raised {A : Type} (r : result A) : option error :=
  match r with
  | Ok _ => None
  | Raise e => Some e
  end.

(** ** Assignment 6: Ford-Fulkerson *)

Module FF.

Abbreviation matrix := (list (list Z)).

(** [m[i][j]] *)
Definition get2 (m : matrix) (i j : nat) : result Z :=
  row ← item m i; item row j.

(** [m[i][j] = x]: the row object [m[i]] is mutated in place. *)
Definition set2 (m : matrix) (i j : nat) (x : Z) : result matrix :=
  row ← item m i;
  row' ← setitem row j x;
  setitem m i row'.

(** [[[0 for _ in row] for row in g]] *)
Definition zeros (g : matrix) : matrix := map (map (λ _, 0)) g.

(** The index pairs visited by
    [for i, _ in enumerate(m): for j, _ in enumerate(m[i])], in order.
    Item assignment never changes a length, so a loop that assigns to
    cells of the matrix it runs over visits the same pairs. *)
Definition indices (m : matrix) : list (nat * nat) :=
  mjoin (imap (λ i row, (λ j, (i, j)) <$> seq 0 (length row)) m).

(** The attributes of class [Graph]. *)
Record Graph : Type := mkGraph {
  graph : matrix;
  residual_graph : matrix;
  latest_augmenting_path : matrix;
  current_flow : matrix
}.

(** [Graph.__init__] *)
Definition init (g : matrix) : Graph :=
  {| graph := g;
     residual_graph := g;
     latest_augmenting_path := zeros g;
     current_flow := zeros g |}.

(** *** [_bfs] *)

(** The [while True] loop of [_bfs] that walks the parent pointers back
    from the sink and marks the cells of the path.  It returns the marked
    matrix and the last value of [idx]. *)
Fixpoint mark_path (fuel : nat) (parents : list (option nat)) (lap : matrix)
    (parent idx : nat) : result (matrix * nat) :=
  match fuel with
  | O => Raise NoTermination
  | S fuel' =>
      lap' ← set2 lap parent idx 1;
      pp ← item parents parent;
      match pp with
      | None => Ok (lap', idx)
      | Some p => mark_path fuel' parents lap' p parent
      end
  end.

(** What one run of the [for idx, neighbour in enumerate(...)] loop
    leaves: either the sink was reached and [_bfs] returns, or the loop
    ran to its end. *)
Inductive scan : Type :=
  | Reached (parents : list (option nat)) (lap : matrix)
  | Scanned (visited : list bool) (queue : list nat) (parents : list (option nat)).

Fixpoint scan_row (source sink vertex : nat) (row : list Z) (idx : nat)
    (visited : list bool) (queue : list nat) (parents : list (option nat))
    (lap : matrix) : result scan :=
  match row with
  | [] => Ok (Scanned visited queue parents)
  | neighbour :: row' =>
      seen ← item visited idx;
      if negb seen && negb (neighbour =? 0) then
        visited' ← setitem visited idx true;
        let queue' := queue ++ [idx] in
        parents' ← setitem parents idx (Some vertex);
        if (idx =? sink)%nat then
          pp ← item parents' sink;
          match pp with
          | None => Raise TypeError
          | Some parent =>
              '(lap', idx') ← mark_path (length parents') parents' lap parent idx;
              lap'' ← set2 lap' source idx' 1;
              Ok (Reached parents' lap'')
          end
        else scan_row source sink vertex row' (S idx) visited' queue' parents' lap
      else scan_row source sink vertex row' (S idx) visited queue parents lap
  end.

(** The [while queue] loop.  [None] is the [False] that [_bfs] returns
    when the queue runs empty. *)
Fixpoint bfs_loop (fuel : nat) (source sink : nat) (res : matrix)
    (visited : list bool) (queue : list nat) (parents : list (option nat))
    (lap : matrix) : result (option (list (option nat)) * matrix) :=
  match fuel with
  | O => Raise NoTermination
  | S fuel' =>
      match queue with
      | [] => Ok (None, lap)
      | vertex :: queue' =>
          row ← item res vertex;
          r ← scan_row source sink vertex row 0 visited queue' parents lap;
          match r with
          | Reached parents' lap' => Ok (Some parents', lap')
          | Scanned visited' queue'' parents' =>
              bfs_loop fuel' source sink res visited' queue'' parents' lap
          end
      end
  end.

Definition _bfs (source sink : nat) (st : Graph)
  : result (option (list (option nat)) * Graph) :=
  let lap := zeros (graph st) in
  let n := length (graph st) in
  let parents := replicate n (@None nat) in
  let visited := replicate n false in
  match setitem visited source true with
  | Raise e => Raise e
  | Ok visited' =>
      '(r, lap') ← bfs_loop (S n) source sink (residual_graph st)
                     visited' [source] parents lap;
      Ok (r, {| graph := graph st;
                residual_graph := residual_graph st;
                latest_augmenting_path := lap';
                current_flow := current_flow st |})
  end.

(** *** [ff_step] *)

(** [flow = min(flow, residual_graph[idx][idx2])] for a marked cell;
    [None] is [float("inf")]. *)
Definition flow_body (lap res : matrix) (c : nat * nat) (flow : option Z)
  : result (option Z) :=
  col ← get2 lap c.1 c.2;
  if col =? 1 then
    r ← get2 res c.1 c.2;
    Ok (Some (match flow with None => r | Some f => Z.min f r end))
  else Ok flow.

Definition sub_flow (x : Z) (flow : option Z) : result Z :=
  match flow with Some f => Ok (x - f) | None => Raise InfiniteFlow end.

Definition add_flow (x : Z) (flow : option Z) : result Z :=
  match flow with Some f => Ok (x + f) | None => Raise InfiniteFlow end.

(** The body of the loop that updates [current_flow]. *)
Definition current_body (g lap : matrix) (flow : option Z) (c : nat * nat)
    (cf : matrix) : result matrix :=
  l ← get2 lap c.1 c.2;
  if l =? 1 then
    cap ← get2 g c.1 c.2;
    if cap =? 0 then
      x ← get2 cf c.2 c.1; y ← sub_flow x flow; set2 cf c.2 c.1 y
    else
      x ← get2 cf c.1 c.2; y ← add_flow x flow; set2 cf c.1 c.2 y
  else Ok cf.

(** The body of the loop that updates [residual_graph]. *)
Definition residual_body (lap : matrix) (flow : option Z) (c : nat * nat)
    (res : matrix) : result matrix :=
  l ← get2 lap c.1 c.2;
  if l =? 1 then
    x ← get2 res c.1 c.2; y ← sub_flow x flow; res1 ← set2 res c.1 c.2 y;
    x' ← get2 res1 c.2 c.1; y' ← add_flow x' flow; set2 res1 c.2 c.1 y'
  else Ok res.

(** [sum(row)] *)
Definition sum (row : list Z) : Z := foldr Z.add 0 row.

Definition ff_step (source sink : nat) (st : Graph) : result (Z * Graph) :=
  '(r, st1) ← _bfs source sink st;
  match r with
  | None | Some [] => Ok (0, st1)
  | Some _ =>
      let lap := latest_augmenting_path st1 in
      old_row ← item (current_flow st1) source;
      let old_flow := sum old_row in
      flow ← for_each (flow_body lap (residual_graph st1)) (indices lap) None;
      cf ← for_each (current_body (graph st1) lap flow) (indices (graph st1))
             (current_flow st1);
      res ← for_each (residual_body lap flow) (indices (residual_graph st1))
              (residual_graph st1);
      new_row ← item cf source;
      Ok (sum new_row - old_flow,
          {| graph := graph st1;
             residual_graph := res;
             latest_augmenting_path := lap;
             current_flow := cf |})
  end.

(** *** [ford_fulkerson] *)

Fixpoint ford_fulkerson_loop (fuel : nat) (source sink : nat) (st : Graph)
    (max_flow : Z) : result (Z * Graph) :=
  match fuel with
  | O => Raise NoTermination
  | S fuel' =>
      '(flow, st') ← ff_step source sink st;
      if flow =? 0 then Ok (max_flow, st')
      else ford_fulkerson_loop fuel' source sink st' (max_flow + flow)
  end.

Definition ford_fulkerson (fuel : nat) (source sink : nat) (st : Graph)
  : result (Z * Graph) :=
  ford_fulkerson_loop fuel source sink st 0.

(** A run of [ff_step] calls, one per (source, sink) pair, threading the
    object's state; the results of the calls are collected. *)
Fixpoint run (calls : list (nat * nat)) (st : Graph) : result (list Z * Graph) :=
  match calls with
  | [] => Ok ([], st)
  | c :: calls' =>
      '(r, st') ← ff_step c.1 c.2 st;
      '(rs, st'') ← run calls' st';
      Ok (r :: rs, st'')
  end.

(** *** Vocabulary of the specification *)

(** An [n] by [n] matrix. *)
Definition square (n : nat) (m : matrix) : Prop :=
  length m = n ∧ ∀ i row, m !! i = Some row → length row = n.

(** The value of a cell, 0 outside the matrix. *)
Definition cell (m : matrix) (i j : nat) : Z :=
  match m !! i with
  | Some row => default 0 (row !! j)
  | None => 0
  end.

(** The number of vertices not yet marked in [visited]. *)
Fixpoint unvisited (visited : list bool) : nat :=
  match visited with
  | [] => 0
  | b :: visited' => (if b then 0 else 1) + unvisited visited'
  end.

(** An edge that [_bfs] may traverse. *)
Definition residual_edge (res : matrix) (u v : nat) : Prop :=
  ∃ x, get2 res u v = Ok x ∧ x ≠ 0.

(** A path of one or more traversable edges. *)
Definition augmenting_path (res : matrix) (source sink : nat) : Prop :=
  tc (residual_edge res) source sink.

(** What holds of the local variables of [_bfs] at every turn of its
    loops.  The rank of a vertex is the turn at which it was discovered:
    parent pointers lead to strictly smaller ranks, which bounds the walk
    back from the sink. *)
Record bfs_inv (n source : nat) (res : matrix) (visited : list bool)
    (queue : list nat) (parents : list (option nat)) : Prop := {
  inv_visited_len : length visited = n;
  inv_parents_len : length parents = n;
  inv_source : visited !! source = Some true;
  inv_queue : ∀ v, v ∈ queue → visited !! v = Some true;
  inv_parent : ∀ v p, parents !! v = Some (Some p) → visited !! p = Some true;
  inv_rank : ∃ rank : nat → nat,
    (∀ v p, parents !! v = Some (Some p) → (rank p < rank v)%nat) ∧
    (∀ v, visited !! v = Some true → (rank v + unvisited visited < n)%nat);
  inv_reach : ∀ v, visited !! v = Some true →
    v = source ∨ augmenting_path res source v;
  inv_root : parents !! source = Some None;
  inv_tree : ∀ v, visited !! v = Some true → v ≠ source →
    ∃ p, parents !! v = Some (Some p);
  inv_edge : ∀ v p, parents !! v = Some (Some p) → residual_edge res p v
}.

(** The marks that [_bfs] leaves when it reaches the sink: exactly one
    marked cell in the row of the source and none in its column; every
    marked cell is a traversable edge, and its opposite is not marked. *)
Definition path_marks (res lap : matrix) (source : nat) : Prop :=
  ∃ v1, cell lap source v1 = 1 ∧ residual_edge res source v1 ∧
        ∀ u v, cell lap u v = 1 →
          v ≠ source ∧ (u = source → v = v1) ∧
          residual_edge res u v ∧ cell lap v u ≠ 1.

(** [f] is the least residual capacity over the marked cells. *)
Definition bottleneck (lap res : matrix) (f : Z) : Prop :=
  (∃ i j, cell lap i j = 1 ∧ cell res i j = f) ∧
  ∀ i j, cell lap i j = 1 → f ≤ cell res i j.

(** Every traversable edge that leaves [source] is an edge of the
    original graph. *)
Definition forward_source (st : Graph) (source : nat) : Prop :=
  ∀ v, residual_edge (residual_graph st) source v → cell (graph st) source v ≠ 0.

(** [f] when [P] holds, 0 otherwise. *)
Definition ind (f : Z) (P : Prop) `{Decision P} : Z := if decide P then f else 0.

(** What relates the three matrices on a network without opposite edges:
    the recorded flow stays between 0 and the capacity, and the residual
    capacity is what is left of the capacity plus what can be cancelled. *)
Definition flow_inv (st : Graph) : Prop :=
  ∀ a b, 0 ≤ cell (current_flow st) a b ≤ cell (graph st) a b ∧
         cell (residual_graph st) a b =
         cell (graph st) a b - cell (current_flow st) a b + cell (current_flow st) b a.

(** No two opposite cells both hold an edge (so no self-loop either). *)
Definition no_opposite (g : matrix) : Prop :=
  ∀ a b, cell g a b = 0 ∨ cell g b a = 0.

(** No negative capacity. *)
Definition nonneg (g : matrix) : Prop := ∀ a b, 0 ≤ cell g a b.

(** [m'] has the same sums of opposite cells as [m]. *)
Definition pair_sums (m m' : matrix) : Prop :=
  ∀ u v, cell m' u v + cell m' v u = cell m u v + cell m v u.

(** The three matrices that [ff_step] reads before it writes them are
    [n] by [n]; [latest_augmenting_path] is rebuilt by every call. *)
Definition wf (n : nat) (st : Graph) : Prop :=
  square n (graph st) ∧ square n (residual_graph st) ∧ square n (current_flow st).

(** [square], as a test. *)
Definition squareb (n : nat) (m : matrix) : bool :=
  bool_decide (length m = n) && forallb (λ row, bool_decide (length row = n)) m.

(** The edges along a path of vertices, in order. *)
Definition path_edges (p : list nat) : list (nat * nat) := zip p (tail p).

(** [lap] marks the edges of the path [p], a path of traversable edges
    from [source] to [sink] that visits no vertex twice, with 1 and holds
    0 in every other cell. *)
Definition marks_path (res lap : matrix) (source sink : nat) (p : list nat) : Prop :=
  head p = Some source ∧ last p = Some sink ∧ NoDup p ∧
  (∀ u v, (u, v) ∈ path_edges p → residual_edge res u v) ∧
  (∀ u v, cell lap u v = if decide ((u, v) ∈ path_edges p) then 1 else 0).

(** [side] marks a set of vertices that holds [source] but not [sink],
    and that no traversable edge leaves. *)
Definition separates (res : matrix) (source sink : nat) (side : list bool) : Prop :=
  side !! source = Some true ∧ side !! sink = Some false ∧
  ∀ u v, side !! u = Some true → residual_edge res u v → side !! v = Some true.

(** [sum(m[i])], 0 when there is no row [i]. *)
Definition row_sum (m : matrix) (i : nat) : Z := sum (default [] (m !! i)).

(** [sum(f(i) for i in range(n))] *)
Fixpoint total (n : nat) (f : nat → Z) : Z :=
  match n with
  | O => 0
  | S k => total k f + f k
  end.

(** What the flow matrix [h] sends out of the vertex [v], less what it
    sends into it. *)
Definition net_flow (n : nat) (h : matrix) (v : nat) : Z :=
  total n (λ w, cell h v w) - total n (λ u, cell h u v).

(** [h] is a flow of the network with capacities [g]: no cell is negative
    or above its capacity, and every vertex but [source] and [sink] sends
    out what it takes in. *)
Definition feasible (n : nat) (g h : matrix) (source sink : nat) : Prop :=
  (∀ u v, 0 ≤ cell h u v ≤ cell g u v) ∧
  ∀ v, (v < n)%nat → v ≠ source → v ≠ sink → net_flow n h v = 0.

(** [hops res u v k]: [k] traversable edges lead from [u] to [v]. *)
Inductive hops (res : matrix) (u : nat) : nat → nat → Prop :=
  | hops_O : hops res u u 0
  | hops_S v w k : hops res u v k → residual_edge res v w → hops res u w (S k).

(** The queue holds its vertices by ascending level. *)
Fixpoint ascending (d : nat → nat) (queue : list nat) : Prop :=
  match queue with
  | [] => True
  | a :: rest => (∀ b, b ∈ rest → (d a ≤ d b)%nat) ∧ ascending d rest
  end.

(** The levels of the search tree of [_bfs]: [d v] is the number of
    edges from the source to a visited vertex [v] along the parent
    pointers, and no path of traversable edges reaches [v] with fewer. *)
Record bfs_levels (source : nat) (res : matrix) (d : nat → nat)
    (visited : list bool) (queue : list nat) (parents : list (option nat)) : Prop := {
  lev_source : d source = 0%nat;
  lev_parent : ∀ v p, parents !! v = Some (Some p) →
    visited !! v = Some true ∧ d v = S (d p);
  lev_least : ∀ x k, visited !! x = Some true → hops res source x k → (d x ≤ k)%nat;
  lev_queue : ascending d queue
}.

(** *** Example networks *)

(** The classic six-vertex example. *)
Definition textbook : matrix :=
  [ [0; 16; 13; 0; 0; 0];
    [0; 0; 0; 12; 0; 0];
    [0; 4; 0; 0; 14; 0];
    [0; 0; 9; 0; 0; 20];
    [0; 0; 0; 7; 0; 4];
    [0; 0; 0; 0; 0; 0] ].

(** A network with the two opposite edges 1->2 (capacity 5) and 2->1
    (capacity 1); source 0, sink 3. *)
Definition antiparallel : matrix :=
  [ [0; 5; 0; 0; 3; 0];
    [0; 0; 5; 0; 0; 3];
    [0; 1; 0; 5; 0; 0];
    [0; 0; 0; 0; 0; 0];
    [0; 0; 3; 0; 0; 0];
    [0; 0; 0; 3; 0; 0] ].

(** One edge 0->1 of capacity 5. *)
Definition one_edge : matrix := [ [0; 5]; [0; 0] ].

(** [one_edge] after [ff_step(0, 1)]: the edge is saturated. *)
Definition saturated : Graph :=
  {| graph := one_edge;
     residual_graph := [ [0; 0]; [5; 0] ];
     latest_augmenting_path := [ [0; 1]; [0; 0] ];
     current_flow := [ [0; 5]; [0; 0] ] |}.

End FF.


(** ** Assignment 5: shortest paths on the JKU map *)

Module JKU.

(** *** Dictionaries

    A Python [dict] keeps its keys in insertion order, and [_dijkstra]
    sorts the keys of one: a dict is an association list with unique
    keys, in insertion order. *)

Definition dict (K V : Type) : Type := list (K * V).

Section Dict.
Context {K V : Type} `{EqDecision K}.

(** [d[k]] *)
Fixpoint getitem (d : dict K V) (k : K) : result V :=
  match d with
  | [] => Raise KeyError
  | (k', v) :: d' => if decide (k' = k) then Ok v else getitem d' k
  end.

(** [d[k] = v]: an existing key keeps its place, a new one goes last. *)
Fixpoint assign (d : dict K V) (k : K) (v : V) : dict K V :=
  match d with
  | [] => [(k, v)]
  | (k', v') :: d' =>
      if decide (k' = k) then (k', v) :: d' else (k', v') :: assign d' k v
  end.

(** [list(d)]: the keys in iteration order. *)
Definition keys (d : dict K V) : list K := d.*1.

(** [{k: f(k) for k in l}] *)
Definition comprehension (f : K → V) (l : list K) : dict K V :=
  foldl (λ d k, assign d k (f k)) [] l.
End Dict.

(** *** Numbers: an [int], or [float("inf")] *)

Inductive number : Set :=
  | Int (z : Z)
  | Inf.

#[global] Instance number_eq_dec : EqDecision number.
Proof. solve_decision. Defined.

(** [x + w] for an integer weight [w] *)
Definition plus (x : number) (w : Z) : number :=
  match x with Int z => Int (z + w) | Inf => Inf end.

(** [x > y] *)
Definition gt (x y : number) : bool :=
  match x, y with
  | Int a, Int b => b <? a
  | Int _, Inf => false
  | Inf, Int _ => true
  | Inf, Inf => false
  end.

(** [x <= y] *)
Definition le (x y : number) : bool := negb (gt x y).

(** *** The graph primitive *)

(** Modelled from the spec: class [Vertex] of [vertex.py] is not among the
    sources; a vertex is identified by its name, with equality and hashing
    by name, so a vertex is its name. *)
Definition Vertex : Set := string.

(** Modelled from the spec: class [Edge] is not among the sources; an edge
    connects two vertices with a weight, and one record serves both
    directions. *)
Record Edge : Set := mkEdge {
  first_vertex : Vertex;
  second_vertex : Vertex;
  weight : Z
}.

(** Modelled from the spec: class [Graph] of [graph.py] is not among the
    sources; it holds the vertices and the weighted edges, in insertion
    order. *)
Record Graph : Set := mkGraph {
  vertices : list Vertex;
  edges : list Edge
}.

(** Modelled from the spec: [Graph.insert_vertex]; a name already present
    is not inserted again. *)
Definition insert_vertex (g : Graph) (name : string) : Graph :=
  if decide (name ∈ vertices g) then g
  else {| vertices := vertices g ++ [name]; edges := edges g |}.

(** Modelled from the spec: [Graph.insert_edge_by_vertex_names]. *)
Definition insert_edge_by_vertex_names (g : Graph) (v1 v2 : string) (w : Z)
  : Graph :=
  {| vertices := vertices g; edges := edges g ++ [mkEdge v1 v2 w] |}.

(** Does the edge connect [u] and [v], in either direction? *)
Definition connects (u v : Vertex) (e : Edge) : bool :=
  bool_decide (first_vertex e = u ∧ second_vertex e = v) ||
  bool_decide (first_vertex e = v ∧ second_vertex e = u).

(** Modelled from the spec: [Graph.find_edge], the edge between two
    vertices, or [None], the absent signal. *)
Definition find_edge (g : Graph) (u v : Vertex) : option Edge :=
  List.find (connects u v) (edges g).

(** Modelled from the spec: [Graph.get_adjacent_vertices], the neighbours
    of a vertex: the other end of each of its edges. *)
Definition get_adjacent_vertices (g : Graph) (v : Vertex) : list Vertex :=
  omap (λ e, if decide (first_vertex e = v) then Some (second_vertex e)
             else if decide (second_vertex e = v) then Some (first_vertex e)
             else None) (edges g).

(** *** [step.py] *)

Record Step : Set := mkStep {
  point : Vertex;
  covered_distance : number
}.

#[global] Instance Step_eq_dec : EqDecision Step.
Proof. solve_decision. Defined.

(** *** [jku_map.py] *)

(** The attributes of a [JKUMap]: those of the [Graph] it extends, and
    the two tables. *)
Record JKUMap : Type := mkJKUMap {
  base : Graph;
  distances : dict Vertex (dict Vertex number);
  paths : dict Vertex (dict Vertex (list Step))
}.

(** [JKUMap._insert_jku_map] *)
Definition locations : list string :=
  [ "Spar"; "LIT"; "Porter"; "Open Lab"; "Bank"; "KHG"; "Parking"; "Chat";
    "Bella Casa"; "Teichwerk"; "Library"; "LUI"; "SP1"; "SP3"; "Castle";
    "Papaya"; "JKH" ]%string.

Definition jku_edges : list (string * string * Z) :=
  [ ("Open Lab", "Porter", 70); ("LIT", "Porter", 80); ("LIT", "Spar", 50);
    ("Spar", "Porter", 103); ("Bank", "Porter", 100); ("Spar", "KHG", 165);
    ("KHG", "Bank", 150); ("KHG", "Parking", 190);
    ("Parking", "Bella Casa", 145); ("Parking", "SP1", 240);
    ("SP1", "SP3", 130); ("SP1", "LUI", 175); ("Teichwerk", "LUI", 135);
    ("LUI", "Library", 90); ("LUI", "Chat", 240); ("Chat", "Library", 160);
    ("Chat", "Bank", 115); ("Papaya", "Castle", 85); ("Papaya", "JKH", 80)
  ]%string.

Definition _insert_jku_map (g : Graph) : Graph :=
  let g1 := foldl insert_vertex g locations in
  foldl (λ g e, insert_edge_by_vertex_names g e.1.1 e.1.2 e.2) g1 jku_edges.

(** [JKUMap._initialize_dijkstra] *)
Definition _initialize_dijkstra (g : Graph)
  : dict Vertex (dict Vertex number) * dict Vertex (dict Vertex (list Step)) :=
  (comprehension (λ vertex,
     comprehension (λ inner_vertex,
       if decide (vertex ≠ inner_vertex) then Inf else Int 0) (vertices g))
     (vertices g),
   comprehension (λ vertex, comprehension (λ _, []) (vertices g)) (vertices g)).

(** The body of the loop over the neighbours of [cur] in [_dijkstra]. *)
Definition relax (g : Graph) (cur : Vertex) (visited : gset Vertex)
    (vertex : Vertex)
    (s : dict Vertex number * dict Vertex (list Step))
  : result (dict Vertex number * dict Vertex (list Step)) :=
  let '(distances, paths) := s in
  if decide (vertex ∉ visited) then
    dv ← getitem distances vertex;
    dc ← getitem distances cur;
    w ← match find_edge g cur vertex with
        | Some e => Ok (weight e)
        | None => Raise AttributeError
        end;
    if gt dv (plus dc w) then
      let distances := assign distances vertex (plus dc w) in
      pc ← getitem paths cur;
      paths ← (if decide (length pc = 0%nat) then
                 dc' ← getitem distances cur;
                 Ok (assign paths cur [mkStep cur dc'])
               else Ok paths);
      pc' ← getitem paths cur;
      dv' ← getitem distances vertex;
      Ok (distances, assign paths vertex (pc' ++ [mkStep vertex dv']))
    else Ok (distances, paths)
  else Ok (distances, paths).

(** [sorted(l, key=key)]: a stable sort, by insertion from the right. *)
Fixpoint insert_sorted {A : Type} (key : A → number) (x : A) (l : list A)
  : list A :=
  match l with
  | [] => [x]
  | y :: l' =>
      if le (key x) (key y) then x :: y :: l'
      else y :: insert_sorted key x l'
  end.

Definition sorted {A : Type} (key : A → number) (l : list A) : list A :=
  foldr (insert_sorted key) [] l.

(** [sorted(distances, key=distances.get)]; [dict.get] of a key of the
    dict is its value. *)
Definition sorted_keys (distances : dict Vertex number) : list Vertex :=
  (sorted snd distances).*1.

(** [JKUMap._dijkstra]; the fuel bounds the depth of the recursion. *)
Fixpoint _dijkstra (fuel : nat) (g : Graph) (cur : Vertex)
    (visited : gset Vertex) (distances : dict Vertex number)
    (paths : dict Vertex (list Step))
  : result (dict Vertex number * dict Vertex (list Step)) :=
  match fuel with
  | O => Raise NoTermination
  | S fuel' =>
      let visited := {[cur]} ∪ visited in
      '(distances, paths) ← for_each (relax g cur visited)
                              (get_adjacent_vertices g cur) (distances, paths);
      match List.find (λ neighbor, bool_decide (neighbor ∉ visited))
                      (sorted_keys distances) with
      | Some neighbor => _dijkstra fuel' g neighbor visited distances paths
      | None => Ok (distances, paths)
      end
  end.

(** [JKUMap.__init__]: every call of [_dijkstra] visits one more key of
    its [distances], so their number bounds the depth. *)
Definition init_body (g : Graph) (vertex : Vertex)
    (s : dict Vertex (dict Vertex number) * dict Vertex (dict Vertex (list Step)))
  : result (dict Vertex (dict Vertex number) * dict Vertex (dict Vertex (list Step))) :=
  d ← getitem s.1 vertex;
  p ← getitem s.2 vertex;
  '(d', p') ← _dijkstra (S (length d)) g vertex ∅ d p;
  Ok (assign s.1 vertex d', assign s.2 vertex p').

Definition __init__ : result JKUMap :=
  let g := _insert_jku_map {| vertices := []; edges := [] |} in
  let '(distances, paths) := _initialize_dijkstra g in
  '(distances, paths) ← for_each (init_body g)
                          (zip_with (λ vertex _, vertex) (keys distances) (keys paths))
                          (distances, paths);
  Ok {| base := g; distances := distances; paths := paths |}.

(** [JKUMap.get_shortest_path_from_to]; [None] is Python's [None], as an
    argument and as the result. *)
Definition get_shortest_path_from_to (m : JKUMap)
    (from_vertex to_vertex : option Vertex) : result (option (list Step)) :=
  match from_vertex, to_vertex with
  | None, _ | _, None => Raise ValueError
  | Some from_vertex, Some to_vertex =>
      if decide (from_vertex = to_vertex) then Raise ValueError
      else
        row ← getitem (paths m) from_vertex;
        result ← getitem row to_vertex;
        Ok (if decide (0 < length result)%nat then Some result else None)
  end.

(** [JKUMap.get_steps_for_shortest_paths_from] *)
Definition get_steps_for_shortest_paths_from (m : JKUMap)
    (from_vertex : option Vertex) : result (dict string Z) :=
  match from_vertex with
  | None => Raise ValueError
  | Some from_vertex =>
      for_each (λ vertex lengths,
                  row ← getitem (paths m) from_vertex;
                  p ← getitem row vertex;
                  Ok (assign lengths vertex (Z.of_nat (length p) - 1)))
               (vertices (base m)) []
  end.

(** [JKUMap.get_shortest_distances_from] *)
Definition get_shortest_distances_from (m : JKUMap)
    (from_vertex : option Vertex) : result (dict string number) :=
  match from_vertex with
  | None => Raise ValueError
  | Some from_vertex =>
      row ← getitem (distances m) from_vertex;
      Ok (foldl (λ d kv, assign d kv.1
                   (if decide (kv.2 ≠ Inf) then kv.2 else Int (-1))) [] row)
  end.

(** *** Vocabulary of the specification *)

(** The map that [JKUMap()] builds. *)
Definition jku_map : JKUMap :=
  match __init__ with
  | Ok m => m
  | Raise _ => {| base := mkGraph [] []; distances := []; paths := [] |}
  end.

(** [self.distances[a][b]] and [self.paths[a][b]] *)
Definition distance (m : JKUMap) (a b : Vertex) : result number :=
  row ← getitem (distances m) a; getitem row b.

Definition path (m : JKUMap) (a b : Vertex) : result (list Step) :=
  row ← getitem (paths m) a; getitem row b.

(** [get_shortest_distances_from(a)[b]] and
    [get_steps_for_shortest_paths_from(a)[b]] *)
Definition reported_distance (m : JKUMap) (a : option Vertex) (b : string)
  : result number :=
  d ← get_shortest_distances_from m a; getitem d b.

Definition reported_steps (m : JKUMap) (a : option Vertex) (b : string)
  : result Z :=
  d ← get_steps_for_shortest_paths_from m a; getitem d b.

(** Two vertices joined by an edge, and the paths of the graph. *)
Definition adjacent (g : Graph) (u v : Vertex) : Prop :=
  is_Some (find_edge g u v).

Definition reachable (g : Graph) : Vertex → Vertex → Prop := rtc (adjacent g).

(** Two steps joined by an edge of the graph, the second one covering
    the weight of the edge more than the first. *)
Definition joined (g : Graph) (s1 s2 : Step) : Prop :=
  ∃ e, find_edge g (point s1) (point s2) = Some e ∧
       covered_distance s2 = plus (covered_distance s1) (weight e).

(** The total weight of the edges that join the consecutive steps of a
    path; [None] when two consecutive steps are not joined by an edge of
    the graph, or when the covered distance does not grow by the weight
    of the edge. *)
Fixpoint walk (g : Graph) (steps : list Step) : option Z :=
  match steps with
  | s1 :: ((s2 :: _) as rest) =>
      match find_edge g (point s1) (point s2) with
      | Some e =>
          if decide (covered_distance s2 = plus (covered_distance s1) (weight e))
          then Z.add (weight e) <$> walk g rest
          else None
      | None => None
      end
  | _ => Some 0
  end.

(** What the specification asks of the shortest path from [a] to [b]. *)
Definition shortest_path_facts (m : JKUMap) (a b : Vertex) (steps : list Step)
    (d : Z) : Prop :=
  get_shortest_path_from_to m (Some a) (Some b) = Ok (Some steps) ∧
  head steps = Some (mkStep a (Int 0)) ∧
  reported_distance m (Some a) b = Ok (Int d) ∧
  covered_distance <$> last steps = Some (Int d) ∧
  walk (base m) steps = Some d ∧
  (a = "Teichwerk"%string → b = "Library"%string →
   steps = [mkStep "Teichwerk" (Int 0); mkStep "LUI" (Int 135);
            mkStep "Library" (Int 225)]).

#[global] Instance shortest_path_facts_dec m a b steps d :
  Decision (shortest_path_facts m a b steps d).
Proof. unfold shortest_path_facts. apply _. Defined.

Definition shortest_path_check (m : JKUMap) (a b : Vertex) : bool :=
  match get_shortest_path_from_to m (Some a) (Some b),
        reported_distance m (Some a) b with
  | Ok (Some steps), Ok (Int d) => bool_decide (shortest_path_facts m a b steps d)
  | _, _ => false
  end.

(** Is the distance from [a] to [b] finite in the table? *)
Definition linked (m : JKUMap) (a b : Vertex) : bool :=
  match distance m a b with
  | Ok (Int _) => true
  | _ => false
  end.

(** What the two sentinel reports for [w], seen from [v], have to say. *)
Definition sentinels_agree (m : JKUMap) (v w : Vertex) : Prop :=
  ∃ s d, reported_steps m (Some v) w = Ok s ∧
         reported_distance m (Some v) w = Ok d ∧
         (s = -1 ↔ d = Int (-1)).

Definition sentinels_check (m : JKUMap) (v w : Vertex) : bool :=
  match reported_steps m (Some v) w, reported_distance m (Some v) w with
  | Ok s, Ok d => bool_decide (s = -1 ↔ d = Int (-1))
  | _, _ => false
  end.

(** The exceptions of the three queries, from their arguments alone. *)
Definition path_query_error (m : JKUMap) (a b : option Vertex) : option error :=
  match a, b with
  | None, _ | _, None => Some ValueError
  | Some u, Some v =>
      if decide (u = v) then Some ValueError
      else if decide (u ∈ vertices (base m) ∧ v ∈ vertices (base m)) then None
      else Some KeyError
  end.

Definition origin_query_error (m : JKUMap) (a : option Vertex) : option error :=
  match a with
  | None => Some ValueError
  | Some u => if decide (u ∈ vertices (base m)) then None else Some KeyError
  end.





(** What [get_steps_for_shortest_paths_from] reports from "Spar". *)
Definition steps_from_spar : dict string Z :=
  Eval vm_compute in
    match get_steps_for_shortest_paths_from jku_map (Some "Spar"%string) with
    | Ok d => d
    | Raise _ => []
    end.

End JKU.

(** ** Facts about results and loops *)

Lemma bind_Ok {A B} (f : A → result B) (m : result A) (b : B) :
  m ≫= f = Ok b → ∃ a, m = Ok a ∧ f a = Ok b.
Proof. destruct m as [a|e]; simpl; [eauto | discriminate]. Qed.

Lemma item_Ok {A} (l : list A) i x : item l i = Ok x ↔ l !! i = Some x.
Proof. unfold item. destruct (l !! i); split; congruence. Qed.

Lemma item_lt {A} (l : list A) i : (i < length l)%nat → ∃ x, item l i = Ok x ∧ l !! i = Some x.
Proof.
  intros H. destruct (lookup_lt_is_Some_2 l i H) as [x Hx].
  exists x. split; [by apply item_Ok | done].
Qed.

Lemma setitem_lt {A} (l : list A) i x :
  (i < length l)%nat → setitem l i x = Ok (<[i := x]> l).
Proof. intros H. unfold setitem. by rewrite decide_True. Qed.

Lemma for_each_inv {A S} (P : S → Prop) (Q : A → Prop)
    (body : A → S → result S) l s :
  Forall Q l → P s →
  (∀ x s, Q x → P s → ∃ s', body x s = Ok s' ∧ P s') →
  ∃ s', for_each body l s = Ok s' ∧ P s'.
Proof.
  intros Hl Hs Hbody. revert s Hs. induction Hl as [|x l Hx Hl IH]; intros s Hs; simpl.
  - eauto.
  - destruct (Hbody x s Hx Hs) as (s' & -> & Hs'). simpl. eauto.
Qed.

Lemma for_each_prefix {A S} (P : list A → S → Prop) (Q : A → Prop)
    (body : A → S → result S) l :
  Forall Q l →
  (∀ pre x s, Q x → P pre s → ∃ s', body x s = Ok s' ∧ P (pre ++ [x]) s') →
  ∀ pre s, P pre s → ∃ s', for_each body l s = Ok s' ∧ P (pre ++ l) s'.
Proof.
  intros Hl Hbody. induction Hl as [|x l Hx Hl IH]; intros pre s Hs; simpl.
  - rewrite app_nil_r. eauto.
  - destruct (Hbody pre x s Hx Hs) as (s' & -> & Hs'). simpl.
    destruct (IH _ _ Hs') as (s'' & -> & Hs''). rewrite <- app_assoc in Hs''. eauto.
Qed.

Lemma for_each_split {A S} (P : list A → S → Prop)
    (body : A → S → result S) l :
  (∀ pre x suf s, l = pre ++ x :: suf → P pre s →
     ∃ s', body x s = Ok s' ∧ P (pre ++ [x]) s') →
  ∀ s, P [] s → ∃ s', for_each body l s = Ok s' ∧ P l s'.
Proof.
  intros Hbody.
  assert (∀ suf pre s, l = pre ++ suf → P pre s →
            ∃ s', for_each body suf s = Ok s' ∧ P l s') as H.
  { induction suf as [|x suf IH]; intros pre s Hl Hs; simpl.
    - rewrite app_nil_r in Hl. subst. eauto.
    - destruct (Hbody pre x suf s Hl Hs) as (s' & -> & Hs'). simpl.
      apply (IH (pre ++ [x])); [by rewrite <- app_assoc|done]. }
  intros s Hs. by apply (H l []).
Qed.

Lemma marked_before {A} (pre : list A) (c x : A) (P : Prop) :
  c ≠ x → (c ∈ pre ∧ P) ↔ (c ∈ pre ++ [x] ∧ P).
Proof.
  intros Hne. rewrite elem_of_app, list_elem_of_singleton. split.
  - intros [H HP]. split; [by left|done].
  - intros [[H|H] HP]; [done|congruence].
Qed.

Lemma forallb_elem {A} (f : A → bool) (l : list A) (x : A) :
  forallb f l = true → x ∈ l → f x = true.
Proof. rewrite forallb_forall. intros H Hx. by apply H, list_elem_of_In. Qed.

(** ** Facts about the Ford-Fulkerson model *)

Module FFFacts.
Import FF.

Lemma square_get2 n m i j :
  square n m → (i < n)%nat → (j < n)%nat → get2 m i j = Ok (cell m i j).
Proof.
  intros [Hl Hr] Hi Hj. unfold get2, cell.
  destruct (item_lt m i) as (row & -> & Hrow); [lia|]. simpl. rewrite Hrow.
  destruct (item_lt row j) as (x & -> & ->); [rewrite (Hr _ _ Hrow); lia|]. done.
Qed.

Lemma get2_cell m i j x : get2 m i j = Ok x → cell m i j = x.
Proof.
  unfold get2, cell. intros H. apply bind_Ok in H as (row & Hrow & Hx).
  apply item_Ok in Hrow, Hx. by rewrite Hrow, Hx.
Qed.

Lemma square_set2 n m i j x :
  square n m → (i < n)%nat → (j < n)%nat →
  ∃ m', set2 m i j x = Ok m' ∧ square n m' ∧
        ∀ u v, cell m' u v = if decide (u = i ∧ v = j) then x else cell m u v.
Proof.
  intros [Hl Hr] Hi Hj. unfold set2.
  destruct (item_lt m i) as (row & -> & Hrow); [lia|]. simpl.
  pose proof (Hr _ _ Hrow) as Hlen.
  rewrite setitem_lt by lia. simpl. rewrite setitem_lt by lia.
  eexists; split; [done|]. split.
  - split; [by rewrite length_insert|].
    intros k r Hk. destruct (decide (k = i)) as [->|Hne].
    + rewrite list_lookup_insert_eq in Hk by lia. injection Hk as <-.
      by rewrite length_insert.
    + rewrite list_lookup_insert_ne in Hk by done. eauto.
  - intros u v. unfold cell. destruct (decide (u = i)) as [->|Hne].
    + rewrite list_lookup_insert_eq by lia. rewrite Hrow.
      destruct (decide (v = j)) as [->|Hnv].
      * rewrite decide_True by done. by rewrite list_lookup_insert_eq by lia.
      * rewrite decide_False by (intros [_ ?]; done).
        by rewrite list_lookup_insert_ne.
    + rewrite decide_False by (intros [? _]; done).
      by rewrite list_lookup_insert_ne.
Qed.

Lemma square_zeros n g : square n g → square n (zeros g).
Proof.
  intros [Hl Hr]. unfold zeros. split; [by rewrite length_map|].
  intros i row Hi. rewrite list_lookup_fmap in Hi.
  destruct (g !! i) as [r|] eqn:E; simplify_eq/=. rewrite length_map. eauto.
Qed.

Lemma cell_zeros g i j : cell (zeros g) i j = 0.
Proof.
  unfold cell, zeros. rewrite list_lookup_fmap.
  destruct (g !! i) as [r|]; simpl; [|done].
  rewrite list_lookup_fmap. by destruct (r !! j).
Qed.

Lemma cell_zeros_ne g i j : cell (zeros g) i j ≠ 1.
Proof. by rewrite cell_zeros. Qed.

Lemma elem_of_indices n m c :
  square n m → c ∈ indices m ↔ (c.1 < n ∧ c.2 < n)%nat.
Proof.
  intros [Hl Hr]. unfold indices. rewrite list_elem_of_join. split.
  - intros (l & Hc & Hlm). apply elem_of_lookup_imap in Hlm as (i & row & -> & Hrow).
    apply list_elem_of_fmap in Hc as (j & -> & Hj). apply elem_of_seq in Hj. simpl.
    pose proof (lookup_lt_Some _ _ _ Hrow). rewrite (Hr _ _ Hrow) in Hj. lia.
  - intros [H1 H2]. destruct (lookup_lt_is_Some_2 m c.1) as [row Hrow]; [lia|].
    exists ((λ j, (c.1, j)) <$> seq 0 (length row)). split.
    + apply list_elem_of_fmap. exists c.2. split; [by destruct c|].
      apply elem_of_seq. rewrite (Hr _ _ Hrow). lia.
    + apply elem_of_lookup_imap. eauto.
Qed.

Lemma unvisited_insert visited i :
  visited !! i = Some false →
  (unvisited (<[i := true]> visited) + 1 = unvisited visited)%nat.
Proof.
  revert i. induction visited as [|b l IH]; intros [|i] H; simplify_eq/=; [lia|].
  specialize (IH _ H). lia.
Qed.

Lemma unvisited_le visited : (unvisited visited ≤ length visited)%nat.
Proof. induction visited as [|[] l IH]; simpl; lia. Qed.

Lemma unvisited_replicate n : unvisited (replicate n false) = n.
Proof. induction n as [|n IH]; simpl; [done|]. by rewrite IH. Qed.

Lemma mark_path_ok n parents (rank : nat → nat) :
  length parents = n →
  (∀ v p, parents !! v = Some (Some p) → (p < n ∧ rank p < rank v)%nat) →
  ∀ fuel lap parent idx,
    square n lap → (parent < n)%nat → (idx < n)%nat → (rank parent < fuel)%nat →
    ∃ lap' idx', mark_path fuel parents lap parent idx = Ok (lap', idx') ∧
                 square n lap' ∧ (idx' < n)%nat.
Proof.
  intros Hlen Hpar. induction fuel as [|fuel IH]; intros lap parent idx Hsq Hp Hi Hr; [lia|].
  simpl. destruct (square_set2 n lap parent idx 1 Hsq Hp Hi) as (lap' & -> & Hsq' & _).
  simpl. destruct (item_lt parents parent) as (pp & -> & Hpp); [lia|]. simpl.
  destruct pp as [p|]; [|eauto].
  destruct (Hpar _ _ Hpp) as [Hpn Hrk]. apply IH; [done..|lia].
Qed.

Lemma bfs_inv_discover n source res visited queue parents vertex idx fullrow x :
  bfs_inv n source res visited queue parents →
  visited !! vertex = Some true → visited !! idx = Some false →
  res !! vertex = Some fullrow → fullrow !! idx = Some x → x ≠ 0 →
  bfs_inv n source res (<[idx := true]> visited) (queue ++ [idx])
          (<[idx := Some vertex]> parents).
Proof.
  intros [Hvl Hpl Hsrc Hq Hpar (rank & Hrk1 & Hrk2) Hreach Hroot Htree Hedges]
         Hv Hi Hrow Hx Hx0.
  assert (Hne : idx ≠ vertex) by congruence.
  assert (Hns : idx ≠ source) by congruence.
  assert (residual_edge res vertex idx) as Hedge.
  { exists x. split; [|done]. unfold get2. apply item_Ok in Hrow. rewrite Hrow.
    simpl. by apply item_Ok. }
  assert (Hilt : (idx < n)%nat) by (rewrite <- Hvl; eapply lookup_lt_Some; eauto).
  assert (Hmono : ∀ v, visited !! v = Some true → <[idx := true]> visited !! v = Some true).
  { intros v Hvv. rewrite list_lookup_insert_ne; [done|congruence]. }
  pose proof (unvisited_insert _ _ Hi) as Hun.
  pose proof (unvisited_le visited) as Hle.
  split.
  - by rewrite length_insert.
  - by rewrite length_insert.
  - by apply Hmono.
  - intros v Hin. apply elem_of_app in Hin as [Hin|Hin].
    + apply Hmono; eauto.
    + apply list_elem_of_singleton in Hin as ->. apply list_lookup_insert_eq. lia.
  - intros v p Hvp. destruct (decide (v = idx)) as [->|Hvi].
    + rewrite list_lookup_insert_eq in Hvp by lia. simplify_eq. by apply Hmono.
    + rewrite list_lookup_insert_ne in Hvp by done. apply Hmono; eauto.
  - exists (λ v, if decide (v = idx) then (n - unvisited visited)%nat else rank v). split.
    + intros v p Hvp. destruct (decide (v = idx)) as [->|Hvi].
      * rewrite list_lookup_insert_eq in Hvp by lia. simplify_eq.
        rewrite decide_False by done. specialize (Hrk2 _ Hv). lia.
      * rewrite list_lookup_insert_ne in Hvp by done.
        assert (p ≠ idx) by (intros ->; apply Hpar in Hvp; congruence).
        rewrite decide_False by done. eauto.
    + intros v Hvv. destruct (decide (v = idx)) as [->|Hvi]; [lia|].
      rewrite list_lookup_insert_ne in Hvv by done. specialize (Hrk2 _ Hvv). lia.
  - intros v Hvv. destruct (decide (v = idx)) as [->|Hvi].
    + right. destruct (Hreach _ Hv) as [->|Hp]; [by apply tc_once|].
      eapply tc_r; eauto.
    + rewrite list_lookup_insert_ne in Hvv by done. eauto.
  - by rewrite list_lookup_insert_ne.
  - intros v Hvv Hvs. destruct (decide (v = idx)) as [->|Hvi].
    + exists vertex. apply list_lookup_insert_eq. lia.
    + rewrite list_lookup_insert_ne in Hvv by done.
      rewrite list_lookup_insert_ne by done. eauto.
  - intros v p Hvp. destruct (decide (v = idx)) as [->|Hvi].
    + rewrite list_lookup_insert_eq in Hvp by lia. by simplify_eq.
    + rewrite list_lookup_insert_ne in Hvp by done. eauto.
Qed.

Lemma mark_path_marks n parents :
  length parents = n →
  (∀ v p, parents !! v = Some (Some p) → (p < n)%nat) →
  ∀ fuel lap parent idx lap' idx',
    square n lap → (parent < n)%nat → (idx < n)%nat →
    parents !! idx = Some (Some parent) →
    mark_path fuel parents lap parent idx = Ok (lap', idx') →
    (∃ root, parents !! idx' = Some (Some root) ∧ parents !! root = Some None) ∧
    ∀ u v, cell lap' u v = 1 →
      cell lap u v = 1 ∨
      (parents !! v = Some (Some u) ∧ (parents !! u = Some None → v = idx')).
Proof.
  intros Hlen Hpar.
  induction fuel as [|fuel IH]; intros lap parent idx lap' idx' Hsq Hp Hi Hidx Hrun;
    [done|].
  simpl in Hrun.
  destruct (square_set2 n lap parent idx 1 Hsq Hp Hi) as (lap1 & Hset & Hsq1 & Hc1).
  rewrite Hset in Hrun. simpl in Hrun.
  destruct (item_lt parents parent) as (pp & Hpp & Hlook); [lia|].
  rewrite Hpp in Hrun. simpl in Hrun. destruct pp as [p|].
  - destruct (IH _ _ _ _ _ Hsq1 (Hpar _ _ Hlook) Hp Hlook Hrun) as [Hroot Hmarks].
    split; [done|]. intros u v Huv.
    destruct (Hmarks u v Huv) as [H1|H1]; [|by right].
    rewrite Hc1 in H1. case_decide as Heq; [|by left].
    destruct Heq as [-> ->]. right. split; [done|]. congruence.
  - simplify_eq. split; [by eauto|]. intros u v Huv.
    rewrite Hc1 in Huv. case_decide as Heq; [|by left].
    destruct Heq as [-> ->]. by right.
Qed.

Lemma scan_row_ok n source sink res vertex fullrow lap :
  square n lap → (∀ u v, cell lap u v ≠ 1) →
  (source < n)%nat → (sink < n)%nat →
  res !! vertex = Some fullrow → length fullrow = n →
  ∀ row idx visited queue parents,
    drop idx fullrow = row →
    bfs_inv n source res visited queue parents →
    visited !! vertex = Some true →
    ∃ r, scan_row source sink vertex row idx visited queue parents lap = Ok r ∧
      match r with
      | Reached parents' lap' =>
          length parents' = n ∧ square n lap' ∧
          augmenting_path res source sink ∧ path_marks res lap' source
      | Scanned visited' queue' parents' =>
          bfs_inv n source res visited' queue' parents' ∧
          (length queue' + unvisited visited' = length queue + unvisited visited)%nat
      end.
Proof.
  intros Hsq Hclean Hs Ht Hrow Hlen.
  induction row as [|neighbour row IH]; intros idx visited queue parents Hdrop Hinv Hv; simpl.
  - eexists; split; [done|]. by split.
  - assert (fullrow !! idx = Some neighbour) as Hx.
    { rewrite <- (Nat.add_0_r idx), <- lookup_drop, Hdrop. done. }
    assert (drop (S idx) fullrow = row) as Hdrop'.
    { rewrite (drop_S _ _ _ Hx) in Hdrop. congruence. }
    assert (idx < n)%nat as Hidx by (rewrite <- Hlen; eapply lookup_lt_Some; eauto).
    pose proof (inv_visited_len _ _ _ _ _ _ Hinv) as Hvl.
    pose proof (inv_parents_len _ _ _ _ _ _ Hinv) as Hpl.
    destruct (item_lt visited idx) as (seen & -> & Hseen); [lia|]. simpl.
    destruct seen; simpl; [by apply IH|].
    destruct (Z.eqb_spec neighbour 0) as [->|Hn0]; simpl; [by apply IH|].
    rewrite setitem_lt by lia. simpl. rewrite setitem_lt by lia. simpl.
    pose proof (bfs_inv_discover _ _ _ _ _ _ _ _ _ _ Hinv Hv Hseen Hrow Hx Hn0) as Hinv'.
    assert (<[idx := true]> visited !! vertex = Some true) as Hv'.
    { rewrite list_lookup_insert_ne; [done|congruence]. }
    destruct (Nat.eqb_spec idx sink) as [->|Hne].
    + assert (item (<[sink := Some vertex]> parents) sink = Ok (Some vertex)) as ->.
      { apply item_Ok. apply list_lookup_insert_eq. lia. }
      simpl. destruct (inv_rank _ _ _ _ _ _ Hinv') as (rank & Hrk1 & Hrk2).
      assert (∀ v p, <[sink := Some vertex]> parents !! v = Some (Some p) →
                     (p < n)%nat) as Hpn.
      { intros v p Hvp. pose proof (inv_parent _ _ _ _ _ _ Hinv' _ _ Hvp) as Hp.
        apply lookup_lt_Some in Hp. rewrite length_insert in Hp. lia. }
      assert (vertex < n)%nat as Hvn by (apply lookup_lt_Some in Hv; lia).
      assert (<[sink := Some vertex]> parents !! sink = Some (Some vertex)) as Hps.
      { apply list_lookup_insert_eq. lia. }
      destruct (mark_path_ok n (<[sink := Some vertex]> parents) rank) with
        (fuel := length (<[sink := Some vertex]> parents)) (lap := lap)
        (parent := vertex) (idx := sink) as (lap' & idx' & Hrun & Hsq' & Hidx').
      * by rewrite length_insert.
      * intros v p Hvp. split; eauto.
      * done.
      * done.
      * done.
      * rewrite length_insert. specialize (Hrk2 _ Hv'). lia.
      * rewrite Hrun. simpl.
        destruct (mark_path_marks n _ (inv_parents_len _ _ _ _ _ _ Hinv') Hpn
                    _ _ _ _ _ _ Hsq Hvn Hidx Hps Hrun)
          as [(root & Hroot & Hnone) Hmarks].
        destruct (square_set2 n lap' source idx' 1 Hsq' Hs Hidx')
          as (lap'' & -> & Hsq'' & Hc'').
        simpl. eexists; split; [done|].
        split; [by rewrite length_insert|]. split; [done|].
        assert (<[sink := true]> visited !! sink = Some true) as Hsk.
        { apply list_lookup_insert_eq. lia. }
        pose proof (inv_root _ _ _ _ _ _ Hinv') as Hsrc_root.
        assert (root = source) as ->.
        { destruct (decide (root = source)) as [|Hrs]; [done|].
          destruct (inv_tree _ _ _ _ _ _ Hinv' root) as [p Hp]; [|done|congruence].
          eapply inv_parent; eauto. }
        split.
        { destruct (inv_reach _ _ _ _ _ _ Hinv' sink Hsk) as [Heq|Hp]; [|done].
          subst sink. pose proof (inv_source _ _ _ _ _ _ Hinv). congruence. }
        assert (∀ u v, cell lap'' u v = 1 →
                  <[sink := Some vertex]> parents !! v = Some (Some u) ∧
                  (u = source → v = idx')) as Hof.
        { intros u v Huv. rewrite Hc'' in Huv. case_decide as Heq.
          { by destruct Heq as [-> ->]. }
          destruct (Hmarks u v Huv) as [H1|[H1 H2]]; [by destruct (Hclean u v)|].
          split; [done|]. intros ->. by apply H2. }
        exists idx'. split; [|split].
        { rewrite Hc''. by rewrite decide_True. }
        { eapply inv_edge; eauto. }
        intros u v Huv. destruct (Hof u v Huv) as [Hp Hu].
        split; [congruence|]. split; [done|]. split; [by eapply inv_edge|].
        intros Hvu. destruct (Hof v u Hvu) as [Hp' _].
        apply Hrk1 in Hp, Hp'. lia.
    + destruct (IH (S idx) _ _ _ Hdrop' Hinv' Hv') as (r & -> & Hr).
      eexists; split; [done|]. destruct r as [?|visited' queue' parents']; [done|].
      destruct Hr as [Hr1 Hr2]. split; [done|].
      rewrite Hr2, length_app. simpl.
      pose proof (unvisited_insert _ _ Hseen). lia.
Qed.

Lemma bfs_inv_pop n source res visited vertex queue parents :
  bfs_inv n source res visited (vertex :: queue) parents →
  bfs_inv n source res visited queue parents ∧ visited !! vertex = Some true.
Proof.
  intros [Hvl Hpl Hsrc Hq Hpar Hrk Hreach Hroot Htree Hedges]. split.
  - split; try done. intros v Hin. apply Hq. by right.
  - apply Hq. by left.
Qed.

Lemma bfs_loop_ok n source sink res lap :
  square n res → square n lap → (∀ u v, cell lap u v ≠ 1) →
  (source < n)%nat → (sink < n)%nat →
  ∀ fuel visited queue parents,
    bfs_inv n source res visited queue parents →
    (length queue + unvisited visited < fuel)%nat →
    ∃ r lap', bfs_loop fuel source sink res visited queue parents lap = Ok (r, lap') ∧
      square n lap' ∧
      match r with
      | None => lap' = lap
      | Some parents' =>
          length parents' = n ∧ augmenting_path res source sink ∧
          path_marks res lap' source
      end.
Proof.
  intros Hres Hsq Hclean Hs Ht. induction fuel as [|fuel IH]; intros visited queue parents Hinv Hf; [lia|].
  simpl. destruct queue as [|vertex queue]; [by eauto|].
  apply bfs_inv_pop in Hinv as [Hinv Hv].
  assert (vertex < n)%nat as Hvn.
  { apply lookup_lt_Some in Hv. by rewrite (inv_visited_len _ _ _ _ _ _ Hinv) in Hv. }
  destruct (item_lt res vertex) as (row & -> & Hrow); [destruct Hres; lia|]. simpl.
  destruct (scan_row_ok n source sink res vertex row lap Hsq Hclean Hs Ht Hrow
              (proj2 Hres _ _ Hrow) row 0%nat visited queue parents eq_refl Hinv Hv)
    as (r & -> & Hr).
  simpl. destruct r as [parents' lap'|visited' queue' parents'].
  - destruct Hr as (? & ? & ? & ?). eexists _, _. by split; [|split].
  - destruct Hr as [Hinv' Hm]. apply IH; [done|]. simpl in Hf. lia.
Qed.

Lemma bfs_inv_init n source res :
  (source < n)%nat →
  bfs_inv n source res (<[source := true]> (replicate n false)) [source]
          (replicate n None).
Proof.
  intros Hs.
  assert (<[source := true]> (replicate n false) !! source = Some true) as Hsrc.
  { apply list_lookup_insert_eq. by rewrite length_replicate. }
  split.
  - by rewrite length_insert, length_replicate.
  - by rewrite length_replicate.
  - done.
  - intros v Hv. by apply list_elem_of_singleton in Hv as ->.
  - intros v p Hvp. apply lookup_replicate in Hvp as [? _]. done.
  - exists (λ _, 0%nat). split.
    + intros v p Hvp. apply lookup_replicate in Hvp as [? _]. done.
    + intros v Hv.
      pose proof (unvisited_insert (replicate n false) source) as Hun.
      rewrite unvisited_replicate in Hun.
      rewrite lookup_replicate_2 in Hun by done. specialize (Hun eq_refl). lia.
  - intros v Hv. left. destruct (decide (v = source)) as [->|Hne]; [done|].
    rewrite list_lookup_insert_ne in Hv by done.
    apply lookup_replicate in Hv as [? _]. done.
  - by apply lookup_replicate_2.
  - intros v Hv Hne. rewrite list_lookup_insert_ne in Hv by done.
    apply lookup_replicate in Hv as [? _]. done.
  - intros v p Hvp. apply lookup_replicate in Hvp as [? _]. done.
Qed.

Lemma _bfs_ok n source sink st :
  square n (graph st) → square n (residual_graph st) →
  (source < n)%nat → (sink < n)%nat →
  ∃ r lap, _bfs source sink st =
             Ok (r, {| graph := graph st; residual_graph := residual_graph st;
                       latest_augmenting_path := lap;
                       current_flow := current_flow st |}) ∧
    square n lap ∧
    match r with
    | None => lap = zeros (graph st)
    | Some parents =>
        length parents = n ∧ augmenting_path (residual_graph st) source sink ∧
        path_marks (residual_graph st) lap source
    end.
Proof.
  intros Hg Hres Hs Ht. unfold _bfs. rewrite (proj1 Hg).
  rewrite setitem_lt by (by rewrite length_replicate).
  destruct (bfs_loop_ok n source sink (residual_graph st) (zeros (graph st)) Hres
              (square_zeros _ _ Hg) (λ u v, cell_zeros_ne _ u v) Hs Ht (S n) _ _ _
              (bfs_inv_init n source _ Hs))
    as (r & lap & -> & Hsq & Hr).
  { simpl. pose proof (unvisited_insert (replicate n false) source) as Hun.
    rewrite unvisited_replicate in Hun.
    rewrite lookup_replicate_2 in Hun by done. specialize (Hun eq_refl). lia. }
  simpl. eauto.
Qed.

Lemma Forall_indices n m :
  square n m → Forall (λ c, (c.1 < n ∧ c.2 < n)%nat) (indices m).
Proof. intros Hsq. apply Forall_forall. intros c Hc. by apply (elem_of_indices n m). Qed.

Lemma flow_loop_ok n lap res :
  square n lap → square n res →
  ∃ flow, for_each (flow_body lap res) (indices lap) None = Ok flow ∧
          (flow = None → ∀ i j, (i < n)%nat → (j < n)%nat → cell lap i j ≠ 1).
Proof.
  intros Hlap Hres.
  destruct (for_each_prefix
    (λ pre (flow : option Z), flow = None → ∀ c, c ∈ pre → cell lap c.1 c.2 ≠ 1)
    (λ c, (c.1 < n ∧ c.2 < n)%nat) (flow_body lap res) (indices lap)
    (Forall_indices _ _ Hlap)) with (pre := @nil (nat * nat)) (s := @None Z)
    as (flow & Hflow & Hnone).
  - intros pre c flow [Hi Hj] HP. unfold flow_body.
    rewrite (square_get2 n lap) by done. simpl.
    destruct (Z.eqb_spec (cell lap c.1 c.2) 1) as [Heq|Hne].
    + rewrite (square_get2 n res) by done. simpl. eexists; split; [done|]. done.
    + eexists; split; [done|]. intros -> c' Hc'.
      apply elem_of_app in Hc' as [Hc'|Hc']; [by apply HP|].
      by apply list_elem_of_singleton in Hc' as ->.
  - intros _ c Hc. by apply elem_of_nil in Hc.
  - exists flow. split; [done|]. intros Hn i j Hi Hj.
    apply (Hnone Hn (i, j)). simpl. by apply (elem_of_indices n lap).
Qed.

Lemma current_loop_ok n g lap flow cf :
  square n g → square n lap → square n cf →
  (flow = None → ∀ i j, (i < n)%nat → (j < n)%nat → cell lap i j ≠ 1) →
  ∃ cf', for_each (current_body g lap flow) (indices g) cf = Ok cf' ∧ square n cf'.
Proof.
  intros Hg Hlap Hcf Hflow.
  apply (for_each_inv (square n) (λ c, (c.1 < n ∧ c.2 < n)%nat));
    [by apply Forall_indices|done|].
  intros c cf0 [Hi Hj] Hcf0. unfold current_body.
  rewrite (square_get2 n lap) by done. simpl.
  destruct (Z.eqb_spec (cell lap c.1 c.2) 1) as [Heq|Hne]; [|by eauto].
  destruct flow as [f|]; [|by destruct (Hflow eq_refl _ _ Hi Hj)].
  rewrite (square_get2 n g) by done. simpl.
  destruct (cell g c.1 c.2 =? 0).
  - rewrite (square_get2 n cf0) by done. simpl.
    destruct (square_set2 n cf0 c.2 c.1 (cell cf0 c.2 c.1 - f)) as (cf' & -> & ? & _); eauto.
  - rewrite (square_get2 n cf0) by done. simpl.
    destruct (square_set2 n cf0 c.1 c.2 (cell cf0 c.1 c.2 + f)) as (cf' & -> & ? & _); eauto.
Qed.

Lemma residual_loop_ok n lap flow res :
  square n lap → square n res →
  (flow = None → ∀ i j, (i < n)%nat → (j < n)%nat → cell lap i j ≠ 1) →
  ∃ res', for_each (residual_body lap flow) (indices res) res = Ok res' ∧
          square n res' ∧ pair_sums res res'.
Proof.
  intros Hlap Hres Hflow.
  apply (for_each_inv (λ res', square n res' ∧ pair_sums res res')
           (λ c, (c.1 < n ∧ c.2 < n)%nat));
    [by apply Forall_indices|by split|].
  intros [i j] res0 [Hi Hj] [Hsq Hsum]. unfold residual_body. simpl in *.
  rewrite (square_get2 n lap) by done. simpl.
  destruct (Z.eqb_spec (cell lap i j) 1) as [Heq|Hne]; [|by eauto].
  destruct flow as [f|]; [|by destruct (Hflow eq_refl _ _ Hi Hj)].
  rewrite (square_get2 n res0) by done. simpl.
  destruct (square_set2 n res0 i j (cell res0 i j - f))
    as (res1 & -> & Hsq1 & Hc1); [done..|]. simpl.
  rewrite (square_get2 n res1) by done. simpl.
  destruct (square_set2 n res1 j i (cell res1 j i + f))
    as (res2 & -> & Hsq2 & Hc2); [done..|].
  eexists; split; [done|]. split; [done|].
  intros u v. rewrite <- Hsum. rewrite !Hc2, !Hc1.
  repeat case_decide; destruct_and?; simplify_eq; try lia; exfalso; naive_solver.
Qed.

Lemma pair_sums_refl m : pair_sums m m.
Proof. by intros u v. Qed.

Lemma pair_sums_trans m1 m2 m3 : pair_sums m1 m2 → pair_sums m2 m3 → pair_sums m1 m3.
Proof. intros H1 H2 u v. by rewrite H2, H1. Qed.

(** C4, amended: when the residual graph has no augmenting path from
    [source] to [sink], [ff_step] returns 0 and leaves [graph],
    [residual_graph] and [current_flow] as they were, while
    [latest_augmenting_path] is reset to all zeros. *)
Lemma ff_step_no_path n source sink st :
  square n (graph st) → square n (residual_graph st) →
  (source < n)%nat → (sink < n)%nat →
  ¬ augmenting_path (residual_graph st) source sink →
  ff_step source sink st =
    Ok (0, {| graph := graph st; residual_graph := residual_graph st;
              latest_augmenting_path := zeros (graph st);
              current_flow := current_flow st |}).
Proof.
  intros Hg Hres Hs Ht Hno. unfold ff_step.
  destruct (_bfs_ok n source sink st Hg Hres Hs Ht) as (r & lap & -> & Hsq & Hr).
  simpl. destruct r as [parents|]; [by destruct Hno, Hr as (_ & ? & _)|].
  by subst lap.
Qed.

Lemma ff_step_ok n source sink st :
  wf n st → (source < n)%nat → (sink < n)%nat →
  ∃ r st', ff_step source sink st = Ok (r, st') ∧ wf n st' ∧
           graph st' = graph st ∧
           pair_sums (residual_graph st) (residual_graph st').
Proof.
  intros (Hg & Hres & Hcf) Hs Ht. unfold ff_step.
  destruct (_bfs_ok n source sink st Hg Hres Hs Ht) as (r & lap & -> & Hsq & Hr).
  simpl.
  assert (∃ r' st', Ok (0, {| graph := graph st; residual_graph := residual_graph st;
              latest_augmenting_path := lap; current_flow := current_flow st |})
            = Ok (r', st') ∧ wf n st' ∧ graph st' = graph st ∧
              pair_sums (residual_graph st) (residual_graph st')) as Hzero.
  { eexists _, _. split; [done|]. split; [by split|]. split; [done|]. apply pair_sums_refl. }
  destruct r as [[|p parents]|]; [exact Hzero| |exact Hzero]. clear Hzero.
  destruct (item_lt (current_flow st) source) as (old_row & -> & _);
    [destruct Hcf; lia|]. simpl.
  destruct (flow_loop_ok n lap (residual_graph st) Hsq Hres) as (flow & -> & Hflow).
  simpl.
  destruct (current_loop_ok n (graph st) lap flow (current_flow st) Hg Hsq Hcf Hflow)
    as (cf & -> & Hcf').
  simpl.
  destruct (residual_loop_ok n lap flow (residual_graph st) Hsq Hres Hflow)
    as (res & -> & Hres' & Hsum).
  simpl.
  destruct (item_lt cf source) as (new_row & -> & _); [destruct Hcf'; lia|]. simpl.
  eexists _, _. split; [done|]. split; [by split|]. by split.
Qed.

Lemma run_ok n calls :
  Forall (λ c, (c.1 < n ∧ c.2 < n)%nat) calls →
  ∀ st, wf n st →
  ∃ rs st', run calls st = Ok (rs, st') ∧ wf n st' ∧ graph st' = graph st ∧
            pair_sums (residual_graph st) (residual_graph st').
Proof.
  induction 1 as [|c calls [Hs Ht] _ IH]; intros st Hwf; simpl.
  - eexists _, _. split; [done|]. split; [done|]. split; [done|]. apply pair_sums_refl.
  - destruct (ff_step_ok n c.1 c.2 st Hwf Hs Ht) as (r & st1 & -> & Hwf1 & Hg1 & Hsum1).
    simpl. destruct (IH st1 Hwf1) as (rs & st2 & -> & Hwf2 & Hg2 & Hsum2). simpl.
    eexists _, _. split; [done|]. split; [done|]. split; [congruence|].
    eapply pair_sums_trans; eauto.
Qed.

Lemma wf_init n g : square n g → wf n (init g).
Proof.
  intros Hg. pose proof (square_zeros n g Hg). by split; [|split].
Qed.

(** C3: for a network built from a square capacity matrix and any sequence
    of [ff_step] calls with indices in range, every call returns, [graph]
    is unchanged, and for every pair of indices [(u, v)]
    [residual_graph[u][v] + residual_graph[v][u] ==
     graph[u][v] + graph[v][u]].  Every prefix of a sequence of calls is
    one, so this holds after each call. *)
Theorem residual_conservation n g calls :
  square n g → Forall (λ c, (c.1 < n ∧ c.2 < n)%nat) calls →
  ∃ rs st, run calls (init g) = Ok (rs, st) ∧ graph st = g ∧
    ∀ u v, (u < n)%nat → (v < n)%nat →
      ∃ a b c d, get2 (residual_graph st) u v = Ok a ∧
                 get2 (residual_graph st) v u = Ok b ∧
                 get2 (graph st) u v = Ok c ∧ get2 (graph st) v u = Ok d ∧
                 a + b = c + d.
Proof.
  intros Hg Hcalls.
  destruct (run_ok n calls Hcalls (init g) (wf_init n g Hg))
    as (rs & st & Hrun & (Hg' & Hres' & _) & Hgeq & Hsum).
  exists rs, st. split; [done|]. split; [done|]. intros u v Hu Hv.
  exists (cell (residual_graph st) u v), (cell (residual_graph st) v u),
         (cell (graph st) u v), (cell (graph st) v u).
  rewrite !(square_get2 n) by done. do 4 (split; [done|]).
  rewrite Hgeq. apply (Hsum u v).
Qed.

Lemma indices_NoDup m : NoDup (indices m).
Proof.
  unfold indices.
  assert (∀ (g : nat → nat), Inj (=) (=) g →
            NoDup (mjoin (imap (λ i row, (λ j, (g i, j)) <$> seq 0 (length row)) m)))
    as H; [|apply (H id _)].
  induction m as [|row m IH]; intros g Hg; simpl; [constructor|].
  apply NoDup_app. split; [|split].
  - apply NoDup_fmap_2; [intros j j' Hj; by simplify_eq|apply NoDup_seq].
  - intros c Hc Hc'. apply list_elem_of_fmap in Hc as (j & -> & _).
    apply list_elem_of_join in Hc' as (l & Hl & Hin).
    apply elem_of_lookup_imap in Hin as (i & row' & -> & _).
    apply list_elem_of_fmap in Hl as (j' & Heq & _). simplify_eq.
  - apply (IH (g ∘ S)). intros i j Hij. apply Hg in Hij. by simplify_eq.
Qed.

Lemma sum_pointwise (l l' : list Z) (k : nat) (f : Z) :
  length l' = length l → (k < length l)%nat →
  (∀ j, default 0 (l' !! j) = default 0 (l !! j) + (if decide (j = k) then f else 0)) →
  sum l' = sum l + f.
Proof.
  assert (∀ l l' : list Z, length l' = length l →
            (∀ j, default 0 (l' !! j) = default 0 (l !! j)) → sum l' = sum l) as Hsame.
  { induction l0 as [|x t IH]; intros [|x' t'] Hlen Hp; simplify_eq/=; [done|].
    pose proof (Hp 0%nat) as H0. simpl in H0. subst x'.
    rewrite (IH t'); [done|done|]. intros j. apply (Hp (S j)). }
  revert l' k. induction l as [|x t IH]; intros [|x' t'] k Hlen Hk Hp;
    simplify_eq/=; [lia|].
  pose proof (Hp 0%nat) as H0. simpl in H0. destruct k as [|k].
  - rewrite decide_True in H0 by done. subst x'.
    rewrite (Hsame t t'); [lia|done|]. intros j.
    pose proof (Hp (S j)) as Hj. simpl in Hj. repeat case_decide; simplify_eq; lia.
  - rewrite decide_False in H0 by done. rewrite Z.add_0_r in H0. subst x'.
    rewrite (IH t' k); [lia|done|lia|]. intros j.
    pose proof (Hp (S j)) as Hj. simpl in Hj. repeat case_decide; simplify_eq; lia.
Qed.

Lemma cell_lt n m i j : square n m → cell m i j ≠ 0 → (i < n ∧ j < n)%nat.
Proof.
  intros [Hl Hr]. unfold cell. destruct (m !! i) as [row|] eqn:Hrow; [|done].
  destruct (row !! j) as [x|] eqn:Hx; [|done]. intros _.
  apply lookup_lt_Some in Hx. rewrite (Hr _ _ Hrow) in Hx.
  apply lookup_lt_Some in Hrow. lia.
Qed.

Lemma flow_loop_bottleneck n lap res :
  square n lap → square n res →
  ∃ flow, for_each (flow_body lap res) (indices lap) None = Ok flow ∧
    match flow with
    | None => ∀ i j, cell lap i j ≠ 1
    | Some f => bottleneck lap res f
    end.
Proof.
  intros Hlap Hres.
  destruct (for_each_split
    (λ pre (flow : option Z),
       match flow with
       | None => ∀ c, c ∈ pre → cell lap c.1 c.2 ≠ 1
       | Some f => (∃ c, c ∈ pre ∧ cell lap c.1 c.2 = 1 ∧ cell res c.1 c.2 = f) ∧
                   ∀ c, c ∈ pre → cell lap c.1 c.2 = 1 → f ≤ cell res c.1 c.2
       end)
    (flow_body lap res) (indices lap)) with (s := @None Z) as (flow & Hrun & Hflow).
  - intros pre c suf flow Hl HP.
    assert (c ∈ indices lap) as Hc
      by (rewrite Hl; apply elem_of_app; right; left).
    apply (elem_of_indices n lap c Hlap) in Hc as [Hi Hj].
    unfold flow_body. rewrite (square_get2 n lap) by done. simpl.
    destruct (Z.eqb_spec (cell lap c.1 c.2) 1) as [Heq|Hne].
    + rewrite (square_get2 n res) by done. simpl. eexists; split; [done|].
      destruct flow as [f|].
      * destruct HP as [(c0 & Hc0 & Hm0 & Hf0) Hmin]. split.
        -- destruct (Z.min_spec f (cell res c.1 c.2)) as [[_ ->]|[_ ->]].
           ++ exists c0. split; [apply elem_of_app; by left|done].
           ++ exists c. split; [apply elem_of_app; right; left|done].
        -- intros c' Hc' Hm'. apply elem_of_app in Hc' as [Hc'|Hc'].
           ++ specialize (Hmin _ Hc' Hm'). lia.
           ++ apply list_elem_of_singleton in Hc' as ->. lia.
      * split; [exists c; split; [apply elem_of_app; right; left|done]|].
        intros c' Hc' Hm'. apply elem_of_app in Hc' as [Hc'|Hc'].
        -- by destruct (HP _ Hc').
        -- apply list_elem_of_singleton in Hc' as ->. lia.
    + eexists; split; [done|]. destruct flow as [f|].
      * destruct HP as [(c0 & Hc0 & Hm0 & Hf0) Hmin]. split.
        -- exists c0. split; [apply elem_of_app; by left|done].
        -- intros c' Hc' Hm'. apply elem_of_app in Hc' as [Hc'|Hc']; [eauto|].
           by apply list_elem_of_singleton in Hc' as ->.
      * intros c' Hc'. apply elem_of_app in Hc' as [Hc'|Hc']; [eauto|].
        by apply list_elem_of_singleton in Hc' as ->.
  - intros c Hc. by apply elem_of_nil in Hc.
  - exists flow. split; [done|]. destruct flow as [f|].
    + destruct Hflow as [(c0 & Hc0 & Hm0 & Hf0) Hmin]. split; [by eauto|].
      intros i j Hm. apply (Hmin (i, j)); [|done].
      apply (elem_of_indices n lap (i, j) Hlap). apply (cell_lt n lap); [done|].
      simpl. lia.
    + intros i j Hm. apply (Hflow (i, j)); [|done].
      apply (elem_of_indices n lap (i, j) Hlap). apply (cell_lt n lap); [done|].
      simpl. lia.
Qed.

Lemma current_loop_row n g lap f cf source v1 :
  square n g → square n lap → square n cf →
  (source < n)%nat → (v1 < n)%nat →
  cell lap source v1 = 1 → cell g source v1 ≠ 0 →
  (∀ u v, cell lap u v = 1 → v ≠ source ∧ (u = source → v = v1)) →
  ∃ cf', for_each (current_body g lap (Some f)) (indices g) cf = Ok cf' ∧
         square n cf' ∧
         ∀ j, cell cf' source j =
              cell cf source j + (if decide (j = v1) then f else 0).
Proof.
  intros Hg Hlap Hcf Hs Hv1 Hmark Hcap Hmarks.
  pose proof (indices_NoDup g) as Hnd.
  destruct (for_each_split
    (λ pre cf', square n cf' ∧
       ∀ j, cell cf' source j =
            cell cf source j +
            (if decide ((source, j) ∈ pre ∧ j = v1) then f else 0))
    (current_body g lap (Some f)) (indices g)) with (s := cf)
    as (cf' & Hrun & Hsq & Hrow).
  - intros pre [i j] suf cf0 Hl [Hsq0 Hrow0].
    assert ((i, j) ∈ indices g) as Hc
      by (rewrite Hl; apply elem_of_app; right; left).
    apply (elem_of_indices n g _ Hg) in Hc as [Hi Hj]. simpl in Hi, Hj.
    assert ((i, j) ∉ pre) as Hfresh.
    { rewrite Hl in Hnd. apply NoDup_app in Hnd as (_ & Hnd & _).
      intros Hin. apply (Hnd _ Hin). by left. }
    unfold current_body. simpl. rewrite (square_get2 n lap) by done. simpl.
    destruct (Z.eqb_spec (cell lap i j) 1) as [Hm|Hm].
    + destruct (Hmarks _ _ Hm) as [Hjs Hiv].
      rewrite (square_get2 n g) by done. simpl.
      destruct (Z.eqb_spec (cell g i j) 0) as [Hz|Hz].
      * assert (i ≠ source) as His by (intros ->; rewrite (Hiv eq_refl) in Hz; done).
        rewrite (square_get2 n cf0) by done. simpl.
        destruct (square_set2 n cf0 j i (cell cf0 j i - f))
          as (cf1 & -> & Hsq1 & Hc1); [done..|].
        eexists; split; [done|]. split; [done|]. intros j'.
        rewrite Hc1, decide_False by (intros [? _]; congruence).
        rewrite Hrow0. f_equal. apply decide_ext, marked_before. congruence.
      * rewrite (square_get2 n cf0) by done. simpl.
        destruct (square_set2 n cf0 i j (cell cf0 i j + f))
          as (cf1 & -> & Hsq1 & Hc1); [done..|].
        eexists; split; [done|]. split; [done|]. intros j'. rewrite Hc1.
        destruct (decide (i = source)) as [->|His].
        -- pose proof (Hiv eq_refl) as ->. destruct (decide (j' = v1)) as [->|Hj'].
           ++ rewrite decide_True by done. rewrite Hrow0.
              rewrite decide_False by (intros [? _]; done).
              rewrite decide_True; [lia|]. split; [|done].
              apply elem_of_app. right. left.
           ++ rewrite decide_False by (intros [_ ?]; done). rewrite Hrow0.
              rewrite !decide_False by (intros [_ ?]; done). done.
        -- rewrite decide_False by (intros [? _]; congruence).
           rewrite Hrow0. f_equal. apply decide_ext, marked_before. congruence.
    + eexists; split; [done|]. split; [done|]. intros j'.
      rewrite Hrow0. f_equal. apply decide_ext.
      destruct (decide (j' = v1)) as [->|Hj'].
      * apply marked_before. intros [= <- <-]. done.
      * split; intros [_ ?]; done.
  - split; [done|]. intros j. rewrite decide_False; [lia|].
    intros [Hin _]. by apply elem_of_nil in Hin.
  - exists cf'. split; [done|]. split; [done|]. intros j. rewrite Hrow.
    f_equal. apply decide_ext. split; [by intros [_ ?]|]. intros ->. split; [|done].
    by apply (elem_of_indices n g (source, v1) Hg).
Qed.

Lemma residual_loop_row n lap f res source v1 :
  square n lap → square n res →
  (∀ u v, cell lap u v = 1 → v ≠ source ∧ (u = source → v = v1)) →
  ∃ res', for_each (residual_body lap (Some f)) (indices res) res = Ok res' ∧
          ∀ j, j ≠ v1 → cell res' source j = cell res source j.
Proof.
  intros Hlap Hres Hmarks.
  destruct (for_each_inv
    (λ res', square n res' ∧ ∀ j, j ≠ v1 → cell res' source j = cell res source j)
    (λ c, (c.1 < n ∧ c.2 < n)%nat) (residual_body lap (Some f)) (indices res) res)
    as (res' & Hrun & _ & Hrow); [by apply Forall_indices|by split| |by eauto].
  intros [i j] res0 [Hi Hj] [Hsq0 Hrow0]. simpl in Hi, Hj.
  unfold residual_body. simpl. rewrite (square_get2 n lap) by done. simpl.
  destruct (Z.eqb_spec (cell lap i j) 1) as [Hm|Hm]; [|by eauto].
  destruct (Hmarks _ _ Hm) as [Hjs Hiv].
  rewrite (square_get2 n res0) by done. simpl.
  destruct (square_set2 n res0 i j (cell res0 i j - f))
    as (res1 & -> & Hsq1 & Hc1); [done..|]. simpl.
  rewrite (square_get2 n res1) by done. simpl.
  destruct (square_set2 n res1 j i (cell res1 j i + f))
    as (res2 & -> & Hsq2 & Hc2); [done..|].
  eexists; split; [done|]. split; [done|]. intros j' Hj'.
  rewrite Hc2, decide_False by (intros [? _]; congruence).
  rewrite Hc1, decide_False; [by apply Hrow0|].
  intros [-> ->]. by apply Hj', Hiv.
Qed.

Lemma residual_edge_cell n res u v :
  square n res → residual_edge res u v ↔ cell res u v ≠ 0.
Proof.
  intros Hres. split.
  - intros (x & Hx & Hx0). by rewrite (get2_cell _ _ _ _ Hx).
  - intros Hc. destruct (cell_lt n res u v Hres Hc) as [Hu Hv].
    exists (cell res u v). split; [by apply (square_get2 n)|done].
Qed.

Lemma forward_source_init n g source : square n g → forward_source (init g) source.
Proof. intros Hg v Hv. by apply (residual_edge_cell n g source v Hg). Qed.

Lemma cell_row (m : matrix) i row j : m !! i = Some row → cell m i j = default 0 (row !! j).
Proof. unfold cell. by intros ->. Qed.

(** When every traversable edge out of the source is an edge of the
    original graph, a step that finds a path returns its bottleneck, and
    the next state has the same property. *)
Theorem ff_step_returns_bottleneck n source sink st parents st1 :
  wf n st → (source < n)%nat → (sink < n)%nat →
  forward_source st source →
  _bfs source sink st = Ok (Some parents, st1) →
  ∃ f st', ff_step source sink st = Ok (f, st') ∧
           bottleneck (latest_augmenting_path st1) (residual_graph st) f ∧
           wf n st' ∧ graph st' = graph st ∧ forward_source st' source.
Proof.
  intros (Hg & Hres & Hcf) Hs Ht Hfwd Hbfs.
  destruct (_bfs_ok n source sink st Hg Hres Hs Ht) as (r & lap & Heq & Hsq & Hr).
  rewrite Heq in Hbfs. injection Hbfs as -> <-.
  destruct Hr as (Hlen & _ & v1 & Hmark & Hedge & Hall).
  assert (∀ u v, cell lap u v = 1 → v ≠ source ∧ (u = source → v = v1)) as Hmarks.
  { intros u v Huv. by destruct (Hall u v Huv) as (? & ? & _). }
  assert (cell (residual_graph st) source v1 ≠ 0) as Hres1
    by (by apply (residual_edge_cell n)).
  destruct (cell_lt n _ _ _ Hres Hres1) as [_ Hv1].
  unfold ff_step. rewrite Heq. simpl.
  destruct parents as [|p parents]; [simpl in Hlen; lia|].
  destruct (item_lt (current_flow st) source) as (old_row & -> & Hold);
    [destruct Hcf; lia|]. simpl.
  destruct (flow_loop_bottleneck n lap (residual_graph st) Hsq Hres)
    as (flow & -> & Hflow).
  destruct flow as [f|]; [|by destruct (Hflow source v1)]. simpl.
  destruct (current_loop_row n (graph st) lap f (current_flow st) source v1
              Hg Hsq Hcf Hs Hv1 Hmark (Hfwd _ Hedge) Hmarks)
    as (cf & -> & Hcf' & Hrow). simpl.
  destruct (residual_loop_ok n lap (Some f) (residual_graph st) Hsq Hres)
    as (res & Hrun & Hres' & _); [done|].
  destruct (residual_loop_row n lap f (residual_graph st) source v1 Hsq Hres Hmarks)
    as (res2 & Hrun2 & Hrrow).
  rewrite Hrun in Hrun2. injection Hrun2 as <-. rewrite Hrun. simpl.
  destruct (item_lt cf source) as (new_row & -> & Hnew); [destruct Hcf'; lia|]. simpl.
  exists f. eexists. split; [f_equal; f_equal|].
  - rewrite (sum_pointwise old_row new_row v1 f); [lia| | |].
    + by rewrite (proj2 Hcf _ _ Hold), (proj2 Hcf' _ _ Hnew).
    + by rewrite (proj2 Hcf _ _ Hold).
    + intros j. rewrite <- (cell_row _ _ _ _ Hnew), <- (cell_row _ _ _ _ Hold).
      apply Hrow.
  - split; [done|]. split; [done|]. split; [done|]. simpl.
    intros v Hv. simpl in Hv. apply (residual_edge_cell n res source v Hres') in Hv.
    destruct (decide (v = v1)) as [->|Hne]; [by apply Hfwd|].
    rewrite (Hrrow v Hne) in Hv. by apply Hfwd, (residual_edge_cell n).
Qed.



Lemma ind_ext f (P Q : Prop) `{Decision P, Decision Q} : (P ↔ Q) → ind f P = ind f Q.
Proof. intros H1. unfold ind. by apply decide_ext. Qed.

Lemma ind_True f (P : Prop) `{Decision P} : P → ind f P = f.
Proof. intros HP. unfold ind. by rewrite decide_True. Qed.

Lemma ind_False f (P : Prop) `{Decision P} : ¬ P → ind f P = 0.
Proof. intros HP. unfold ind. by rewrite decide_False. Qed.

Lemma ind_snoc_same f {A} `{EqDecision A} (pre : list A) (c x : A) (P : Prop)
    `{Decision P} :
  (c = x → ¬ P) → ind f (c ∈ pre ++ [x] ∧ P) = ind f (c ∈ pre ∧ P).
Proof.
  intros Hne. apply ind_ext. rewrite elem_of_app, list_elem_of_singleton. split.
  - intros [[Hin|Heq] HP]; [done|]. by destruct (Hne Heq).
  - intros [Hin HP]. split; [by left|done].
Qed.

Lemma ind_snoc_new f {A} `{EqDecision A} (pre : list A) (x : A) (P : Prop)
    `{Decision P} :
  x ∉ pre → P → ind f (x ∈ pre ++ [x] ∧ P) = f ∧ ind f (x ∈ pre ∧ P) = 0.
Proof.
  intros Hx HP. split.
  - apply ind_True. split; [|done]. apply elem_of_app. right. left.
  - apply ind_False. by intros [? _].
Qed.

Lemma current_loop_cells n g lap f cf :
  square n g → square n lap → square n cf →
  ∃ cf', for_each (current_body g lap (Some f)) (indices g) cf = Ok cf' ∧
         square n cf' ∧
         ∀ a b, cell cf' a b =
                cell cf a b + ind f (cell lap a b = 1 ∧ cell g a b ≠ 0)
                            - ind f (cell lap b a = 1 ∧ cell g b a = 0).
Proof.
  intros Hg Hlap Hcf.
  pose proof (indices_NoDup g) as Hnd.
  destruct (for_each_split
    (λ pre cf', square n cf' ∧
       ∀ a b, cell cf' a b =
              cell cf a b
              + ind f ((a, b) ∈ pre ∧ cell lap a b = 1 ∧ cell g a b ≠ 0)
              - ind f ((b, a) ∈ pre ∧ cell lap b a = 1 ∧ cell g b a = 0))
    (current_body g lap (Some f)) (indices g)) with (s := cf)
    as (cf' & Hrun & Hsq & Hcells).
  - intros pre [i j] suf cf0 Hl [Hsq0 Hc0].
    assert ((i, j) ∈ indices g) as Hc
      by (rewrite Hl; apply elem_of_app; right; left).
    apply (elem_of_indices n g _ Hg) in Hc as [Hi Hj]. simpl in Hi, Hj.
    assert ((i, j) ∉ pre) as Hfresh.
    { rewrite Hl in Hnd. apply NoDup_app in Hnd as (_ & Hnd & _).
      intros Hin. apply (Hnd _ Hin). by left. }
    unfold current_body. simpl. rewrite (square_get2 n lap) by done. simpl.
    destruct (Z.eqb_spec (cell lap i j) 1) as [Hm|Hm].
    + rewrite (square_get2 n g) by done. simpl.
      destruct (Z.eqb_spec (cell g i j) 0) as [Hz|Hz].
      * rewrite (square_get2 n cf0) by done. simpl.
        destruct (square_set2 n cf0 j i (cell cf0 j i - f))
          as (cf1 & -> & Hsq1 & Hc1); [done..|].
        eexists; split; [done|]. split; [done|]. intros a b.
        rewrite Hc1, !Hc0.
        rewrite (ind_snoc_same f pre (a, b) (i, j)) by (intros [= -> ->] [_ ?]; done).
        destruct (decide (a = j ∧ b = i)) as [[-> ->]|Hne].
        -- destruct (ind_snoc_new f pre (i, j) (cell lap i j = 1 ∧ cell g i j = 0))
             as [-> ->]; [done..|].
           lia.
        -- rewrite (ind_snoc_same f pre (b, a) (i, j)); [done|].
           intros [= -> ->]. by destruct Hne.
      * rewrite (square_get2 n cf0) by done. simpl.
        destruct (square_set2 n cf0 i j (cell cf0 i j + f))
          as (cf1 & -> & Hsq1 & Hc1); [done..|].
        eexists; split; [done|]. split; [done|]. intros a b.
        rewrite Hc1, !Hc0.
        rewrite (ind_snoc_same f pre (b, a) (i, j)) by (intros [= -> ->] [_ ?]; done).
        destruct (decide (a = i ∧ b = j)) as [[-> ->]|Hne].
        -- destruct (ind_snoc_new f pre (i, j) (cell lap i j = 1 ∧ cell g i j ≠ 0))
             as [-> ->]; [done..|].
           lia.
        -- rewrite (ind_snoc_same f pre (a, b) (i, j)); [done|].
           intros [= -> ->]. by destruct Hne.
    + eexists; split; [done|]. split; [done|]. intros a b. rewrite Hc0.
      rewrite (ind_snoc_same f pre (a, b) (i, j)) by (intros [= -> ->] [? _]; done).
      rewrite (ind_snoc_same f pre (b, a) (i, j)) by (intros [= -> ->] [? _]; done).
      done.
  - split; [done|]. intros a b.
    rewrite !ind_False; [lia|intros [H _]; by apply elem_of_nil in H..].
  - exists cf'. split; [done|]. split; [done|]. intros a b. rewrite Hcells.
    f_equal; [f_equal|]; apply ind_ext.
    + split; [by intros [_ ?]|]. intros [Hm Hz]. split; [|done].
      apply (elem_of_indices n g (a, b) Hg). apply (cell_lt n lap); [done|].
      simpl. lia.
    + split; [by intros [_ ?]|]. intros [Hm Hz]. split; [|done].
      apply (elem_of_indices n g (b, a) Hg). apply (cell_lt n lap); [done|].
      simpl. lia.
Qed.

Lemma residual_loop_cells n lap f res :
  square n lap → square n res →
  ∃ res', for_each (residual_body lap (Some f)) (indices res) res = Ok res' ∧
          square n res' ∧
          ∀ a b, cell res' a b =
                 cell res a b - ind f (cell lap a b = 1) + ind f (cell lap b a = 1).
Proof.
  intros Hlap Hres.
  pose proof (indices_NoDup res) as Hnd.
  destruct (for_each_split
    (λ pre res', square n res' ∧
       ∀ a b, cell res' a b =
              cell res a b - ind f ((a, b) ∈ pre ∧ cell lap a b = 1)
                           + ind f ((b, a) ∈ pre ∧ cell lap b a = 1))
    (residual_body lap (Some f)) (indices res)) with (s := res)
    as (res' & Hrun & Hsq & Hcells).
  - intros pre [i j] suf res0 Hl [Hsq0 Hc0].
    assert ((i, j) ∈ indices res) as Hc
      by (rewrite Hl; apply elem_of_app; right; left).
    apply (elem_of_indices n res _ Hres) in Hc as [Hi Hj]. simpl in Hi, Hj.
    assert ((i, j) ∉ pre) as Hfresh.
    { rewrite Hl in Hnd. apply NoDup_app in Hnd as (_ & Hnd & _).
      intros Hin. apply (Hnd _ Hin). by left. }
    unfold residual_body. simpl. rewrite (square_get2 n lap) by done. simpl.
    destruct (Z.eqb_spec (cell lap i j) 1) as [Hm|Hm].
    + rewrite (square_get2 n res0) by done. simpl.
      destruct (square_set2 n res0 i j (cell res0 i j - f))
        as (res1 & -> & Hsq1 & Hc1); [done..|]. simpl.
      rewrite (square_get2 n res1) by done. simpl.
      destruct (square_set2 n res1 j i (cell res1 j i + f))
        as (res2 & -> & Hsq2 & Hc2); [done..|].
      eexists; split; [done|]. split; [done|]. intros a b.
      destruct (ind_snoc_new f pre (i, j) (cell lap i j = 1)) as [Hnew Hold];
        [done..|].
      rewrite Hc2, !Hc1, !Hc0.
      destruct (decide (a = j ∧ b = i)) as [[-> ->]|Hne1];
        destruct (decide (j = i ∧ i = j)) as [[-> _]|Hne2].
      * lia.
      * rewrite (ind_snoc_same f pre (j, i) (i, j)); [lia|].
        intros [= ? ?]. by destruct Hne2.
      * rewrite (ind_snoc_same f pre (a, b) (i, i))
          by (intros [= ? ?]; by destruct Hne1).
        rewrite (ind_snoc_same f pre (b, a) (i, i))
          by (intros [= ? ?]; by destruct Hne1).
        by rewrite decide_False.
      * destruct (decide (a = i ∧ b = j)) as [[-> ->]|Hne3].
        -- rewrite (ind_snoc_same f pre (j, i) (i, j)); [lia|].
           intros [= ? ?]. by destruct Hne2.
        -- rewrite (ind_snoc_same f pre (a, b) (i, j))
             by (intros [= ? ?]; by destruct Hne3).
           rewrite (ind_snoc_same f pre (b, a) (i, j))
             by (intros [= ? ?]; by destruct Hne1).
           done.
    + eexists; split; [done|]. split; [done|]. intros a b. rewrite Hc0.
      rewrite (ind_snoc_same f pre (a, b) (i, j)) by (intros [= -> ->] ?; done).
      rewrite (ind_snoc_same f pre (b, a) (i, j)) by (intros [= -> ->] ?; done).
      done.
  - split; [done|]. intros a b.
    rewrite !ind_False; [lia|intros [H _]; by apply elem_of_nil in H..].
  - exists res'. split; [done|]. split; [done|]. intros a b. rewrite Hcells.
    f_equal; [f_equal|]; apply ind_ext.
    + split; [by intros [_ ?]|]. intros Hm. split; [|done].
      apply (elem_of_indices n res (a, b) Hres). apply (cell_lt n lap); [done|].
      simpl. lia.
    + split; [by intros [_ ?]|]. intros Hm. split; [|done].
      apply (elem_of_indices n res (b, a) Hres). apply (cell_lt n lap); [done|].
      simpl. lia.
Qed.

Lemma flow_inv_init g : nonneg g → flow_inv (init g).
Proof. intros Hg a b. simpl. rewrite !cell_zeros. specialize (Hg a b). lia. Qed.

Lemma ff_step_flow_inv n source sink st r st' :
  wf n st → no_opposite (graph st) → flow_inv st →
  (source < n)%nat → (sink < n)%nat →
  ff_step source sink st = Ok (r, st') → flow_inv st'.
Proof.
  intros (Hg & Hres & Hcf) Hopp Hinv Hs Ht Hstep.
  destruct (_bfs_ok n source sink st Hg Hres Hs Ht) as (r0 & lap & Heq & Hsq & Hr).
  unfold ff_step in Hstep. rewrite Heq in Hstep. simpl in Hstep.
  destruct r0 as [[|p parents]|]; [by simplify_eq| |by simplify_eq].
  destruct Hr as (_ & _ & v1 & Hmark & Hedge & Hall).
  destruct (item_lt (current_flow st) source) as (old_row & Hitem & _);
    [destruct Hcf; lia|].
  rewrite Hitem in Hstep. simpl in Hstep.
  destruct (flow_loop_bottleneck n lap (residual_graph st) Hsq Hres)
    as (flow & Hflow & Hb).
  rewrite Hflow in Hstep. simpl in Hstep.
  destruct flow as [f|]; [|by destruct (Hb source v1)].
  destruct (current_loop_cells n (graph st) lap f (current_flow st) Hg Hsq Hcf)
    as (cf & Hrun1 & Hcf' & Hcells1).
  rewrite Hrun1 in Hstep. simpl in Hstep.
  destruct (residual_loop_cells n lap f (residual_graph st) Hsq Hres)
    as (res & Hrun2 & Hres' & Hcells2).
  rewrite Hrun2 in Hstep. simpl in Hstep.
  destruct (item_lt cf source) as (new_row & Hitem' & _); [destruct Hcf'; lia|].
  rewrite Hitem' in Hstep. simpl in Hstep. simplify_eq.
  destruct Hb as [(i0 & j0 & Hm0 & Hf0) Hmin].
  assert (∀ a b, 0 ≤ cell (residual_graph st) a b) as Hres0.
  { intros a b. destruct (Hinv a b) as [? ->]. destruct (Hinv b a) as [? _]. lia. }
  assert (0 < cell (residual_graph st) i0 j0) as Hpos.
  { destruct (Hall _ _ Hm0) as (_ & _ & He & _).
    apply (residual_edge_cell n _ _ _ Hres) in He. specialize (Hres0 i0 j0). lia. }
  intros a b. simpl. rewrite (Hcells1 a b), (Hcells1 b a), (Hcells2 a b).
  destruct (Hinv a b) as [Hab1 Hab2]. destruct (Hinv b a) as [Hba1 Hba2].
  pose proof (Hopp a b) as Hab.
  destruct (decide (cell lap a b = 1)) as [Hm|Hm];
    destruct (decide (cell lap b a = 1)) as [Hm'|Hm'].
  - by destruct (Hall _ _ Hm) as (_ & _ & _ & ?).
  - pose proof (Hmin _ _ Hm). unfold ind.
    repeat case_decide; destruct_and?; try lia; exfalso; tauto.
  - pose proof (Hmin _ _ Hm'). unfold ind.
    repeat case_decide; destruct_and?; try lia; exfalso; tauto.
  - unfold ind. repeat case_decide; destruct_and?; try lia; exfalso; tauto.
Qed.

Lemma run_flow_inv n calls :
  Forall (λ c, (c.1 < n ∧ c.2 < n)%nat) calls →
  ∀ st rs st', wf n st → no_opposite (graph st) → flow_inv st →
    run calls st = Ok (rs, st') → flow_inv st' ∧ graph st' = graph st.
Proof.
  induction 1 as [|c calls [Hs Ht] _ IH]; intros st rs st' Hwf Hopp Hinv Hrun;
    simpl in Hrun; [by simplify_eq|].
  destruct (ff_step_ok n c.1 c.2 st Hwf Hs Ht) as (r & st1 & Hstep & Hwf1 & Hg1 & _).
  rewrite Hstep in Hrun. simpl in Hrun.
  destruct (run calls st1) as [[rs' st2]|] eqn:Hrun'; [|done].
  simpl in Hrun. simplify_eq.
  destruct (IH st1 rs' st') as [Hinv' Hg']; [done|by rewrite Hg1| |done|].
  - by apply (ff_step_flow_inv n c.1 c.2 st r st1).
  - split; [done|congruence].
Qed.

(** On a network without opposite edges, whatever the calls, no recorded
    flow leaves the range from 0 to the capacity of its edge. *)
Theorem flow_within_capacity n g calls :
  square n g → nonneg g → no_opposite g →
  Forall (λ c, (c.1 < n ∧ c.2 < n)%nat) calls →
  ∃ rs st, run calls (init g) = Ok (rs, st) ∧
    ∀ i j, 0 ≤ cell (current_flow st) i j ≤ cell g i j.
Proof.
  intros Hg Hnn Hopp Hcalls.
  destruct (run_ok n calls Hcalls (init g) (wf_init n g Hg)) as (rs & st & Hrun & _).
  exists rs, st. split; [done|].
  destruct (run_flow_inv n calls Hcalls (init g) rs st (wf_init n g Hg) Hopp
              (flow_inv_init g Hnn) Hrun) as [Hinv Hgeq].
  intros i j. destruct (Hinv i j) as [H _]. by rewrite Hgeq in H.
Qed.

Lemma squareb_square n m : squareb n m = true → square n m.
Proof.
  unfold squareb. intros H. apply andb_prop in H as [H1 H2].
  apply bool_decide_eq_true in H1. split; [done|].
  intros i row Hi. rewrite forallb_forall in H2.
  eapply bool_decide_eq_true_1, H2, list_elem_of_In, list_elem_of_lookup_2, Hi.
Qed.

Lemma nonneg_textbook : nonneg textbook.
Proof.
  intros a b.
  do 6 (destruct a as [|a];
        [do 6 (destruct b as [|b]; [vm_compute; discriminate|]);
         vm_compute; discriminate|]).
  vm_compute. discriminate.
Qed.

Lemma no_opposite_textbook : no_opposite textbook.
Proof.
  intros a b.
  do 6 (destruct a as [|a];
        [do 6 (destruct b as [|b]; [vm_compute; tauto|]); by right|]).
  by left.
Qed.

Lemma antiparallel_has_opposite_edges : ¬ no_opposite antiparallel.
Proof. intros H. by destruct (H 1%nat 2%nat). Qed.

Lemma flow_within_capacity_witness :
  ∃ rs st, run [(0, 5); (0, 5); (0, 5); (0, 5)]%nat (init textbook) = Ok (rs, st) ∧
    ∀ i j, 0 ≤ cell (current_flow st) i j ≤ cell textbook i j.
Proof.
  apply (flow_within_capacity 6).
  - apply squareb_square. reflexivity.
  - apply nonneg_textbook.
  - apply no_opposite_textbook.
  - repeat constructor; simpl; lia.
Defined.


Lemma ford_fulkerson_loop_more fuel extra source sink st acc r :
  ford_fulkerson_loop fuel source sink st acc = Ok r →
  ford_fulkerson_loop (fuel + extra) source sink st acc = Ok r.
Proof.
  revert st acc. induction fuel as [|fuel IH]; intros st acc; simpl; [done|].
  destruct (ff_step source sink st) as [[flow st']|e]; simpl; [|done].
  destruct (flow =? 0); [done|]. apply IH.
Qed.

(** C1: on the network built from the classic six-vertex capacity matrix,
    [ford_fulkerson(0, 5)] returns 23; four turns of its loop are enough,
    and more fuel does not change the result. *)
Theorem textbook_max_flow extra :
  ∃ st, ford_fulkerson (4 + extra) 0 5 (init textbook) = Ok (23, st).
Proof.
  eexists. unfold ford_fulkerson. apply ford_fulkerson_loop_more.
  vm_compute. reflexivity.
Qed.

Lemma saturated_reached : ff_step 0 1 (init one_edge) = Ok (5, saturated).
Proof. vm_compute. reflexivity. Qed.

Lemma no_edge_no_path res source sink :
  (∀ v, ¬ residual_edge res source v) → ¬ augmenting_path res source sink.
Proof. intros Hno H. inversion H; subst; eapply Hno; eauto. Qed.

Lemma saturated_no_path : ¬ augmenting_path (residual_graph saturated) 0 1.
Proof.
  apply no_edge_no_path. intros v (x & Hx & Hx0).
  destruct v as [|[|v]]; vm_compute in Hx; congruence.
Qed.

(** C4, as stated, fails: after one step the one-edge network has no
    augmenting path left, and a second [ff_step(0, 1)] returns 0 but
    clears the marks that [latest_augmenting_path] held before the call. *)
Lemma step_without_path_resets_marks :
  ff_step 0 1 (init one_edge) = Ok (5, saturated) ∧
  ¬ augmenting_path (residual_graph saturated) 0 1 ∧
  ∃ st, ff_step 0 1 saturated = Ok (0, st) ∧
        latest_augmenting_path saturated = [ [0; 1]; [0; 0] ] ∧
        latest_augmenting_path st = [ [0; 0]; [0; 0] ] ∧
        st ≠ saturated.
Proof.
  split; [apply saturated_reached|]. split; [apply saturated_no_path|].
  eexists. split; [vm_compute; reflexivity|]. repeat split. discriminate.
Qed.

Lemma ff_step_no_path_witness :
  ff_step 0 1 saturated =
    Ok (0, {| graph := one_edge; residual_graph := [ [0; 0]; [5; 0] ];
              latest_augmenting_path := zeros one_edge;
              current_flow := [ [0; 5]; [0; 0] ] |}).
Proof.
  apply (ff_step_no_path 2 0 1 saturated).
  - apply squareb_square. reflexivity.
  - apply squareb_square. reflexivity.
  - lia.
  - lia.
  - apply saturated_no_path.
Defined.

Lemma residual_conservation_witness :
  ∃ rs st, run [(0, 5); (0, 5)]%nat (init textbook) = Ok (rs, st) ∧
    graph st = textbook ∧
    ∀ u v, (u < 6)%nat → (v < 6)%nat →
      ∃ a b c d, get2 (residual_graph st) u v = Ok a ∧
                 get2 (residual_graph st) v u = Ok b ∧
                 get2 (graph st) u v = Ok c ∧ get2 (graph st) v u = Ok d ∧
                 a + b = c + d.
Proof.
  apply (residual_conservation 6 textbook).
  - apply squareb_square. reflexivity.
  - repeat constructor; simpl; lia.
Defined.

(** C5 fails on the code: after two [ff_step(0, 3)] calls on
    [antiparallel], [current_flow[2][1]] is 3 while [graph[2][1]] is 1. *)
Lemma antiparallel_flow_exceeds_capacity :
  ∃ st, run [(0, 3); (0, 3)]%nat (init antiparallel) = Ok ([5; 3], st) ∧
        get2 (current_flow st) 2 1 = Ok 3 ∧ get2 (graph st) 2 1 = Ok 1.
Proof. eexists. split; [vm_compute; reflexivity|]. split; reflexivity. Qed.

Lemma antiparallel_max_flow_exceeds_capacity :
  ∃ st, ford_fulkerson 3 0 3 (init antiparallel) = Ok (8, st) ∧
        get2 (current_flow st) 2 1 = Ok 3 ∧ get2 (graph st) 2 1 = Ok 1.
Proof. eexists. split; [vm_compute; reflexivity|]. split; reflexivity. Qed.

(** C6 fails on the code: on the saturated one-edge network
    [ff_step(1, 0)] finds the path 1 -> 0, whose bottleneck is 5, pushes 5
    units along it, and returns 0. *)
Lemma reverse_step_returns_zero :
  ∃ st, ff_step 1 0 saturated = Ok (0, st) ∧
        latest_augmenting_path st = [ [0; 0]; [1; 0] ] ∧
        bottleneck (latest_augmenting_path st) (residual_graph saturated) 5 ∧
        residual_graph st = [ [0; 5]; [0; 0] ] ∧
        current_flow st = [ [0; 0]; [0; 0] ].
Proof.
  eexists. split; [vm_compute; reflexivity|]. split; [done|].
  split; [|done]. split; [by exists 1%nat, 0%nat|].
  intros [|[|i]] [|[|j]]; vm_compute; intros; done.
Qed.

(** *** Searches that cannot succeed, and searches that must *)

Lemma scan_row_unreached n source sink res vertex fullrow lap :
  res !! vertex = Some fullrow → length fullrow = n →
  ∀ row idx visited queue parents,
    drop idx fullrow = row →
    bfs_inv n source res visited queue parents →
    visited !! vertex = Some true →
    visited !! sink ≠ Some false →
    ∃ visited' queue' parents',
      scan_row source sink vertex row idx visited queue parents lap
        = Ok (Scanned visited' queue' parents') ∧
      bfs_inv n source res visited' queue' parents' ∧
      visited' !! sink ≠ Some false ∧
      (length queue' + unvisited visited' = length queue + unvisited visited)%nat.
Proof.
  intros Hrow Hlen.
  induction row as [|neighbour row IH]; intros idx visited queue parents Hdrop Hinv Hv Hsink;
    simpl.
  - by eexists _, _, _.
  - assert (fullrow !! idx = Some neighbour) as Hx.
    { rewrite <- (Nat.add_0_r idx), <- lookup_drop, Hdrop. done. }
    assert (drop (S idx) fullrow = row) as Hdrop'.
    { rewrite (drop_S _ _ _ Hx) in Hdrop. congruence. }
    assert (idx < n)%nat as Hidx by (rewrite <- Hlen; eapply lookup_lt_Some; eauto).
    pose proof (inv_visited_len _ _ _ _ _ _ Hinv) as Hvl.
    pose proof (inv_parents_len _ _ _ _ _ _ Hinv) as Hpl.
    destruct (item_lt visited idx) as (seen & -> & Hseen); [lia|]. simpl.
    destruct seen; simpl; [by apply IH|].
    destruct (Z.eqb_spec neighbour 0) as [->|Hn0]; simpl; [by apply IH|].
    rewrite setitem_lt by lia. simpl. rewrite setitem_lt by lia. simpl.
    pose proof (bfs_inv_discover _ _ _ _ _ _ _ _ _ _ Hinv Hv Hseen Hrow Hx Hn0) as Hinv'.
    destruct (Nat.eqb_spec idx sink) as [->|Hne]; [done|].
    destruct (IH (S idx) (<[idx := true]> visited) (queue ++ [idx])
                (<[idx := Some vertex]> parents) Hdrop' Hinv')
      as (visited' & queue' & parents' & -> & Hinv'' & Hsink' & Hm).
    + rewrite list_lookup_insert_ne; [done|congruence].
    + by rewrite list_lookup_insert_ne.
    + eexists _, _, _. split; [done|]. split; [done|]. split; [done|].
      rewrite Hm, length_app. simpl.
      pose proof (unvisited_insert _ _ Hseen). lia.
Qed.

Lemma bfs_loop_unreached n source sink res lap :
  square n res →
  ∀ fuel visited queue parents,
    bfs_inv n source res visited queue parents →
    visited !! sink ≠ Some false →
    (length queue + unvisited visited < fuel)%nat →
    bfs_loop fuel source sink res visited queue parents lap = Ok (None, lap).
Proof.
  intros Hres. induction fuel as [|fuel IH]; intros visited queue parents Hinv Hsink Hf; [lia|].
  simpl. destruct queue as [|vertex queue]; [done|].
  apply bfs_inv_pop in Hinv as [Hinv Hv].
  assert (vertex < n)%nat as Hvn.
  { apply lookup_lt_Some in Hv. by rewrite (inv_visited_len _ _ _ _ _ _ Hinv) in Hv. }
  destruct (item_lt res vertex) as (row & -> & Hrow); [destruct Hres; lia|]. simpl.
  destruct (scan_row_unreached n source sink res vertex row lap Hrow
              (proj2 Hres _ _ Hrow) row 0%nat visited queue parents eq_refl Hinv Hv Hsink)
    as (visited' & queue' & parents' & -> & Hinv' & Hsink' & Hm).
  simpl. apply IH; [done..|]. simpl in Hf. lia.
Qed.

Lemma bfs_measure_init n source :
  (source < n)%nat →
  (length [source] + unvisited (<[source := true]> (replicate n false)) < S n)%nat.
Proof.
  intros Hs. simpl. pose proof (unvisited_insert (replicate n false) source) as Hun.
  rewrite unvisited_replicate in Hun.
  rewrite lookup_replicate_2 in Hun by done. specialize (Hun eq_refl). lia.
Qed.

Lemma _bfs_unreached n source sink st :
  square n (graph st) → square n (residual_graph st) →
  (source < n)%nat → sink = source ∨ (n ≤ sink)%nat →
  _bfs source sink st =
    Ok (None, {| graph := graph st; residual_graph := residual_graph st;
                 latest_augmenting_path := zeros (graph st);
                 current_flow := current_flow st |}).
Proof.
  intros Hg Hres Hs Ht. unfold _bfs. rewrite (proj1 Hg).
  rewrite setitem_lt by (by rewrite length_replicate).
  rewrite (bfs_loop_unreached n source sink (residual_graph st) (zeros (graph st)) Hres
             (S n) _ _ _ (bfs_inv_init n source _ Hs)); [done| |by apply bfs_measure_init].
  destruct Ht as [->|Ht].
  - rewrite list_lookup_insert_eq; [done|by rewrite length_replicate].
  - rewrite lookup_ge_None_2; [done|]. by rewrite length_insert, length_replicate.
Qed.

(** When the sink is the source itself, or an index past the last
    vertex, the search never reaches it: [ff_step] returns 0 and
    [ford_fulkerson] returns 0 after one step, and the call only resets
    [latest_augmenting_path]. *)
Theorem ff_step_sink_never_reached n source sink st fuel :
  square n (graph st) → square n (residual_graph st) →
  (source < n)%nat → sink = source ∨ (n ≤ sink)%nat →
  let st' := {| graph := graph st; residual_graph := residual_graph st;
                latest_augmenting_path := zeros (graph st);
                current_flow := current_flow st |} in
  ff_step source sink st = Ok (0, st') ∧
  ford_fulkerson (S fuel) source sink st = Ok (0, st').
Proof.
  intros Hg Hres Hs Ht st'.
  assert (ff_step source sink st = Ok (0, st')) as Hstep.
  { unfold ff_step. by rewrite (_bfs_unreached n source sink st Hg Hres Hs Ht). }
  split; [done|]. unfold ford_fulkerson. simpl. by rewrite Hstep.
Qed.

Lemma ff_step_sink_never_reached_witness :
  ff_step 0 0 (init textbook) = Ok (0, init textbook) ∧
  ford_fulkerson 1 0 7 (init textbook) = Ok (0, init textbook).
Proof.
  split.
  - apply (ff_step_sink_never_reached 6 0 0 (init textbook) 0).
    + by apply squareb_square.
    + by apply squareb_square.
    + lia.
    + by left.
  - apply (ff_step_sink_never_reached 6 0 7 (init textbook) 0).
    + by apply squareb_square.
    + by apply squareb_square.
    + lia.
    + right. lia.
Defined.

(** A source past the last vertex (any source, when the matrix is empty)
    makes [visited[source] = True] fail: [ff_step] and [ford_fulkerson]
    raise [IndexError]. *)
Theorem source_out_of_range st source sink fuel :
  (length (graph st) ≤ source)%nat →
  ff_step source sink st = Raise IndexError ∧
  ford_fulkerson (S fuel) source sink st = Raise IndexError.
Proof.
  intros Hs.
  assert (ff_step source sink st = Raise IndexError) as Hstep.
  { unfold ff_step, _bfs, setitem. rewrite decide_False; [done|].
    rewrite length_replicate. lia. }
  split; [done|]. unfold ford_fulkerson. simpl. by rewrite Hstep.
Qed.

Lemma source_out_of_range_witness :
  ff_step 0 0 (init []) = Raise IndexError ∧
  ford_fulkerson 1 0 0 (init []) = Raise IndexError.
Proof. apply (source_out_of_range (init []) 0 0 0). simpl. lia. Defined.

Lemma scan_row_closed source sink res vertex fullrow lap :
  res !! vertex = Some fullrow →
  ∀ row idx visited queue parents visited' queue' parents',
    drop idx fullrow = row →
    visited !! sink = Some false →
    (∀ u v, visited !! u = Some true → u ∉ queue → residual_edge res u v →
            (u = vertex ∧ (idx ≤ v)%nat) ∨ visited !! v = Some true) →
    scan_row source sink vertex row idx visited queue parents lap
      = Ok (Scanned visited' queue' parents') →
    visited' !! sink = Some false ∧
    (∀ u, visited !! u = Some true → visited' !! u = Some true) ∧
    (∀ u v, visited' !! u = Some true → u ∉ queue' → residual_edge res u v →
            visited' !! v = Some true).
Proof.
  intros Hrow.
  induction row as [|neighbour row IH];
    intros idx visited queue parents visited' queue' parents' Hdrop Hsink Hcl Hrun;
    simpl in Hrun.
  - simplify_eq. split; [done|]. split; [done|].
    intros u v Hu Hq Huv. destruct (Hcl u v Hu Hq Huv) as [[-> Hle]|]; [|done].
    destruct Huv as (x & Hx & _). unfold get2 in Hx.
    apply item_Ok in Hrow. rewrite Hrow in Hx. simpl in Hx.
    apply item_Ok, lookup_lt_Some in Hx.
    apply drop_nil_inv in Hdrop. lia.
  - assert (fullrow !! idx = Some neighbour) as Hx.
    { rewrite <- (Nat.add_0_r idx), <- lookup_drop, Hdrop. done. }
    assert (drop (S idx) fullrow = row) as Hdrop'.
    { rewrite (drop_S _ _ _ Hx) in Hdrop. congruence. }
    apply bind_Ok in Hrun as (seen & Hseen & Hrun). apply item_Ok in Hseen.
    assert (∀ u v, visited !! u = Some true → u ∉ queue → residual_edge res u v →
              visited !! idx = Some true ∨ neighbour = 0 →
              (u = vertex ∧ (S idx ≤ v)%nat) ∨ visited !! v = Some true) as Hskip.
    { intros u v Hu Hq Huv Hidx. destruct (Hcl u v Hu Hq Huv) as [[-> Hle]|]; [|by right].
      destruct (decide (v = idx)) as [->|Hne]; [|left; split; [done|lia]].
      destruct Hidx as [?| ->]; [by right|].
      destruct Huv as (x & Hgx & Hx0). unfold get2 in Hgx.
      apply item_Ok in Hrow. rewrite Hrow in Hgx. simpl in Hgx.
      apply item_Ok in Hgx. congruence. }
    destruct seen; simpl in Hrun.
    { eapply IH; [exact Hdrop'|exact Hsink| |exact Hrun]. intros u v Hu Hq Huv. eauto. }
    destruct (Z.eqb_spec neighbour 0) as [->|Hn0]; simpl in Hrun.
    { eapply IH; [exact Hdrop'|exact Hsink| |exact Hrun]. intros u v Hu Hq Huv. eauto. }
    apply bind_Ok in Hrun as (visited1 & Hset & Hrun).
    unfold setitem in Hset. case_decide as Hlt; [|done].
    injection Hset as <-.
    apply bind_Ok in Hrun as (parents1 & _ & Hrun).
    destruct (Nat.eqb_spec idx sink) as [->|Hne].
    { apply bind_Ok in Hrun as (pp & _ & Hrun). destruct pp; [|done].
      apply bind_Ok in Hrun as ([lap1 idx1] & _ & Hrun).
      apply bind_Ok in Hrun as (lap2 & _ & Hrun). done. }
    destruct (IH (S idx) (<[idx := true]> visited) (queue ++ [idx]) parents1
                visited' queue' parents' Hdrop') as (Hs' & Hmono & Hcl').
    + by rewrite list_lookup_insert_ne.
    + intros u v Hu Hq Huv.
      assert (u ≠ idx) as Hui.
      { intros ->. apply Hq, elem_of_app. right. by left. }
      rewrite list_lookup_insert_ne in Hu by done.
      assert (u ∉ queue) as Hq' by (intros ?; apply Hq, elem_of_app; by left).
      destruct (Hcl u v Hu Hq' Huv) as [[-> Hle]|Hv].
      * destruct (decide (v = idx)) as [->|Hvi].
        -- right. by apply list_lookup_insert_eq.
        -- left. split; [done|lia].
      * right. destruct (decide (v = idx)) as [->|Hvi].
        -- by apply list_lookup_insert_eq.
        -- by rewrite list_lookup_insert_ne.
    + done.
    + split; [done|]. split; [|done]. intros u Hu. apply Hmono.
      destruct (decide (u = idx)) as [->|Hui]; [congruence|].
      by rewrite list_lookup_insert_ne.
Qed.

Lemma bfs_loop_closed source sink res lap :
  ∀ fuel visited queue parents lap',
    visited !! source = Some true → visited !! sink = Some false →
    (∀ u v, visited !! u = Some true → u ∉ queue → residual_edge res u v →
            visited !! v = Some true) →
    bfs_loop fuel source sink res visited queue parents lap = Ok (None, lap') →
    ∃ side, separates res source sink side.
Proof.
  induction fuel as [|fuel IH]; intros visited queue parents lap' Hsrc Hsink Hcl Hrun;
    [done|].
  simpl in Hrun. destruct queue as [|vertex queue].
  - exists visited. split; [done|]. split; [done|].
    intros u v Hu Huv. eapply Hcl; eauto. apply not_elem_of_nil.
  - apply bind_Ok in Hrun as (row & Hrow & Hrun). apply item_Ok in Hrow.
    apply bind_Ok in Hrun as (r & Hscan & Hrun).
    destruct r as [|visited' queue' parents']; [done|].
    destruct (scan_row_closed source sink res vertex row lap Hrow row 0%nat visited
                queue parents visited' queue' parents' eq_refl Hsink)
      as (Hsink' & Hmono & Hcl'); [|exact Hscan|].
    + intros u v Hu Hq Huv. destruct (decide (u = vertex)) as [->|Hne]; [left; split; [done|lia]|].
      right. eapply Hcl; eauto. intros Hin. apply elem_of_cons in Hin as [?|?]; done.
    + apply (IH visited' queue' parents' lap'); [by apply Hmono|done|done|exact Hrun].
Qed.

Lemma separates_no_path res source sink side :
  separates res source sink side → ¬ augmenting_path res source sink.
Proof.
  intros (Hsrc & Hsink & Hcl) Hpath.
  assert (∀ a b, tc (residual_edge res) a b →
            side !! a = Some true → side !! b = Some true) as Hall.
  { intros a b Hab. induction Hab as [a b Hab|a b c Hab _ IHbc]; intros Ha; eauto. }
  specialize (Hall _ _ Hpath Hsrc). congruence.
Qed.

Lemma _bfs_None_separates source sink st st1 :
  (sink < length (graph st))%nat → source ≠ sink →
  _bfs source sink st = Ok (None, st1) →
  ∃ side, separates (residual_graph st) source sink side.
Proof.
  intros Ht Hne Hrun. unfold _bfs in Hrun.
  unfold setitem in Hrun. case_decide as Hs; [|done].
  rewrite length_replicate in Hs.
  apply bind_Ok in Hrun as ([r lap'] & Hloop & Hrun). simplify_eq.
  eapply (bfs_loop_closed source sink); [| | |exact Hloop].
  - apply list_lookup_insert_eq. by rewrite length_replicate.
  - rewrite list_lookup_insert_ne by done. by apply lookup_replicate_2.
  - intros u v Hu Hq Huv. destruct (decide (u = source)) as [->|Hus].
    + destruct Hq. by left.
    + rewrite list_lookup_insert_ne in Hu by done.
      apply lookup_replicate in Hu as [? _]. done.
Qed.




Lemma path_edges_cons x y l : path_edges (x :: y :: l) = (x, y) :: path_edges (y :: l).
Proof. done. Qed.

Lemma path_edges_snoc q a b :
  path_edges (q ++ [a; b]) = path_edges (q ++ [a]) ++ [(a, b)].
Proof.
  induction q as [|x q IH]; [done|].
  destruct q as [|y q]; [done|].
  simpl app in *. rewrite !path_edges_cons, IH. done.
Qed.

Lemma mark_path_chain n parents (rank : nat → nat) :
  length parents = n →
  (∀ v p, parents !! v = Some (Some p) → (p < n ∧ rank p < rank v)%nat) →
  ∀ fuel lap parent idx lap' idx',
    square n lap → (parent < n)%nat → (idx < n)%nat →
    parents !! idx = Some (Some parent) →
    mark_path fuel parents lap parent idx = Ok (lap', idx') →
    ∃ q root, head (q ++ [idx]) = Some root ∧ parents !! root = Some None ∧
      last q = Some parent ∧
      (root, idx') ∈ path_edges (q ++ [idx]) ∧
      (∀ u, u ∈ q → (rank u ≤ rank parent)%nat) ∧ NoDup q ∧
      (∀ u v, (u, v) ∈ path_edges (q ++ [idx]) → parents !! v = Some (Some u)) ∧
      square n lap' ∧
      (∀ u v, cell lap' u v =
              if decide ((u, v) ∈ path_edges (q ++ [idx])) then 1 else cell lap u v).
Proof.
  intros Hlen Hpar.
  induction fuel as [|fuel IH]; intros lap parent idx lap' idx' Hsq Hp Hi Hidx Hrun;
    [done|].
  simpl in Hrun.
  destruct (square_set2 n lap parent idx 1 Hsq Hp Hi) as (lap1 & Hset & Hsq1 & Hc1).
  rewrite Hset in Hrun. simpl in Hrun.
  destruct (item_lt parents parent) as (pp & Hpp & Hlook); [lia|].
  rewrite Hpp in Hrun. simpl in Hrun. destruct pp as [p|].
  - destruct (Hpar _ _ Hlook) as [Hpn Hrk].
    destruct (IH _ _ _ _ _ Hsq1 Hpn Hp Hlook Hrun)
      as (q & root & Hhd & Hroot & Hlast & Hfirst & Hranks & Hnd & Hlinks & Hsq' & Hc').
    exists (q ++ [parent]), root.
    assert (path_edges ((q ++ [parent]) ++ [idx]) =
            path_edges (q ++ [parent]) ++ [(parent, idx)]) as Hedges.
    { rewrite <- app_assoc. apply path_edges_snoc. }
    rewrite Hedges. split; [|split; [|split; [|split; [|split; [|split; [|split; [|split]]]]]]].
    + rewrite <- Hhd. by destruct q.
    + done.
    + apply last_snoc.
    + apply elem_of_app. by left.
    + intros u Hu. apply elem_of_app in Hu as [Hu|Hu].
      * specialize (Hranks u Hu). lia.
      * apply list_elem_of_singleton in Hu as ->. lia.
    + apply NoDup_app. split; [done|]. split; [|apply NoDup_singleton].
      intros u Hu Hu'. apply list_elem_of_singleton in Hu' as ->.
      specialize (Hranks _ Hu). lia.
    + intros u v Huv. apply elem_of_app in Huv as [Huv|Huv]; [by apply Hlinks|].
      apply list_elem_of_singleton in Huv. by simplify_eq.
    + done.
    + intros u v. rewrite Hc', Hc1.
      destruct (decide ((u, v) ∈ path_edges (q ++ [parent]))) as [Hin|Hnin].
      * rewrite decide_True; [done|]. apply elem_of_app. by left.
      * destruct (decide (u = parent ∧ v = idx)) as [[-> ->]|Hne].
        -- rewrite decide_True; [done|]. apply elem_of_app. right. by left.
        -- rewrite decide_False; [done|]. intros Hin.
           apply elem_of_app in Hin as [Hin|Hin]; [done|].
           apply list_elem_of_singleton in Hin. simplify_eq. by destruct Hne.
  - simplify_eq. exists [parent], parent. simpl.
    split; [done|]. split; [done|]. split; [done|].
    split; [by left|]. split.
    { intros u Hu. apply list_elem_of_singleton in Hu as ->. lia. }
    split; [apply NoDup_singleton|]. split.
    { intros u v Huv. apply list_elem_of_singleton in Huv. by simplify_eq. }
    split; [done|]. intros u v. rewrite Hc1.
    destruct (decide (u = parent ∧ v = idx')) as [[-> ->]|Hne].
    + rewrite decide_True; [done|]. by left.
    + rewrite decide_False; [done|]. intros Hin.
      apply list_elem_of_singleton in Hin. simplify_eq. by destruct Hne.
Qed.

Lemma scan_row_path n source sink res vertex fullrow lap :
  square n lap → (∀ u v, cell lap u v = 0) →
  (source < n)%nat → (sink < n)%nat →
  res !! vertex = Some fullrow → length fullrow = n →
  ∀ row idx visited queue parents parents' lap',
    drop idx fullrow = row →
    bfs_inv n source res visited queue parents →
    visited !! vertex = Some true →
    scan_row source sink vertex row idx visited queue parents lap
      = Ok (Reached parents' lap') →
    ∃ p, marks_path res lap' source sink p ∧
         ∀ u v, (u, v) ∈ path_edges p → parents' !! v = Some (Some u).
Proof.
  intros Hsq Hclean Hs Ht Hrow Hlen.
  induction row as [|neighbour row IH];
    intros idx visited queue parents parents' lap' Hdrop Hinv Hv Hrun; simpl in Hrun;
    [done|].
  assert (fullrow !! idx = Some neighbour) as Hx.
  { rewrite <- (Nat.add_0_r idx), <- lookup_drop, Hdrop. done. }
  assert (drop (S idx) fullrow = row) as Hdrop'.
  { rewrite (drop_S _ _ _ Hx) in Hdrop. congruence. }
  assert (idx < n)%nat as Hidx by (rewrite <- Hlen; eapply lookup_lt_Some; eauto).
  pose proof (inv_visited_len _ _ _ _ _ _ Hinv) as Hvl.
  pose proof (inv_parents_len _ _ _ _ _ _ Hinv) as Hpl.
  destruct (item_lt visited idx) as (seen & Hitem & Hseen); [lia|].
  rewrite Hitem in Hrun. simpl in Hrun.
  destruct seen; simpl in Hrun; [by eapply IH|].
  destruct (Z.eqb_spec neighbour 0) as [->|Hn0]; simpl in Hrun; [by eapply IH|].
  rewrite setitem_lt in Hrun by lia. simpl in Hrun.
  rewrite setitem_lt in Hrun by lia. simpl in Hrun.
  pose proof (bfs_inv_discover _ _ _ _ _ _ _ _ _ _ Hinv Hv Hseen Hrow Hx Hn0) as Hinv'.
  assert (<[idx := true]> visited !! vertex = Some true) as Hv'.
  { rewrite list_lookup_insert_ne; [done|congruence]. }
  destruct (Nat.eqb_spec idx sink) as [->|Hne]; [|by eapply IH].
  assert (<[sink := Some vertex]> parents !! sink = Some (Some vertex)) as Hps.
  { apply list_lookup_insert_eq. lia. }
  rewrite (proj2 (item_Ok _ _ _) Hps) in Hrun. simpl in Hrun.
  apply bind_Ok in Hrun as ([lap1 idx1] & Hmark & Hrun).
  apply bind_Ok in Hrun as (lap2 & Hset & Hrun).
  injection Hrun as <- <-.
  destruct (inv_rank _ _ _ _ _ _ Hinv') as (rank & Hrk1 & Hrk2).
  assert (∀ v p, <[sink := Some vertex]> parents !! v = Some (Some p) →
                 (p < n ∧ rank p < rank v)%nat) as Hpn.
  { intros v p Hvp. split; [|by eauto].
    pose proof (inv_parent _ _ _ _ _ _ Hinv' _ _ Hvp) as Hp.
    apply lookup_lt_Some in Hp. rewrite length_insert in Hp. lia. }
  assert (vertex < n)%nat as Hvn by (apply lookup_lt_Some in Hv; lia).
  destruct (mark_path_chain n _ rank (inv_parents_len _ _ _ _ _ _ Hinv') Hpn
              _ _ _ _ _ _ Hsq Hvn Hidx Hps Hmark)
    as (q & root & Hhd & Hroot & Hlast & Hfirst & Hranks & Hnd & Hlinks & Hsq1 & Hc1).
  assert (root = source) as ->.
  { destruct (decide (root = source)) as [|Hrs]; [done|].
    assert (<[sink := true]> visited !! root = Some true) as Hvr.
    { destruct q as [|x q]; [done|]. simpl in Hhd. simplify_eq.
      destruct q as [|y q].
      - simpl in Hlast. by simplify_eq.
      - eapply (inv_parent _ _ _ _ _ _ Hinv'). apply (Hlinks root y). by left. }
    destruct (inv_tree _ _ _ _ _ _ Hinv' root Hvr Hrs) as [p Hp]. congruence. }
  assert ((idx1 < n)%nat) as Hidx1.
  { apply Hlinks in Hfirst. apply lookup_lt_Some in Hfirst.
    rewrite length_insert in Hfirst. lia. }
  destruct (square_set2 n lap1 source idx1 1 Hsq1 Hs Hidx1) as (lap2' & Hset' & _ & Hc2).
  rewrite Hset' in Hset. injection Hset as <-.
  exists (q ++ [sink]). split; [|exact Hlinks].
  split; [done|]. split; [apply last_snoc|]. split.
  { apply NoDup_app. split; [done|]. split; [|apply NoDup_singleton].
    intros u Hu Hu'. apply list_elem_of_singleton in Hu' as ->.
    specialize (Hranks _ Hu). specialize (Hrk1 _ _ Hps). lia. }
  split.
  { intros u v Huv. eapply (inv_edge _ _ _ _ _ _ Hinv'). by apply Hlinks. }
  intros u v. rewrite Hc2, Hc1, Hclean.
  destruct (decide (u = source ∧ v = idx1)) as [[-> ->]|Hne]; [|done].
  by rewrite decide_True.
Qed.

Lemma bfs_loop_path n source sink res lap :
  square n res → square n lap → (∀ u v, cell lap u v = 0) →
  (source < n)%nat → (sink < n)%nat →
  ∀ fuel visited queue parents parents' lap',
    bfs_inv n source res visited queue parents →
    bfs_loop fuel source sink res visited queue parents lap = Ok (Some parents', lap') →
    ∃ p, marks_path res lap' source sink p.
Proof.
  intros Hres Hsq Hclean Hs Ht.
  assert (∀ u v, cell lap u v ≠ 1) as Hclean' by (intros u v; rewrite Hclean; lia).
  induction fuel as [|fuel IH]; intros visited queue parents parents' lap' Hinv Hrun;
    [done|].
  simpl in Hrun. destruct queue as [|vertex queue]; [done|].
  apply bfs_inv_pop in Hinv as [Hinv Hv].
  assert (vertex < n)%nat as Hvn.
  { apply lookup_lt_Some in Hv. by rewrite (inv_visited_len _ _ _ _ _ _ Hinv) in Hv. }
  destruct (item_lt res vertex) as (row & Hitem & Hrow); [destruct Hres; lia|].
  rewrite Hitem in Hrun. simpl in Hrun.
  destruct (scan_row_ok n source sink res vertex row lap Hsq Hclean' Hs Ht Hrow
              (proj2 Hres _ _ Hrow) row 0%nat visited queue parents eq_refl Hinv Hv)
    as (r & Hscan & Hr).
  rewrite Hscan in Hrun. simpl in Hrun.
  destruct r as [parents1 lap1|visited' queue' parents1].
  - injection Hrun as <- <-.
    destruct (scan_row_path n source sink res vertex row lap Hsq Hclean Hs Ht Hrow
                (proj2 Hres _ _ Hrow) row 0%nat visited queue parents parents1 lap1
                eq_refl Hinv Hv Hscan) as (p & Hp & _).
    by exists p.
  - destruct Hr as [Hinv' _]. by apply (IH visited' queue' parents1 parents' lap').
Qed.

Lemma _bfs_marks_path n source sink st parents st1 :
  square n (graph st) → square n (residual_graph st) →
  (source < n)%nat → (sink < n)%nat →
  _bfs source sink st = Ok (Some parents, st1) →
  ∃ p, marks_path (residual_graph st) (latest_augmenting_path st1) source sink p.
Proof.
  intros Hg Hres Hs Ht Hrun. unfold _bfs in Hrun. rewrite (proj1 Hg) in Hrun.
  rewrite setitem_lt in Hrun by (by rewrite length_replicate).
  apply bind_Ok in Hrun as ([r lap'] & Hloop & Hrun). injection Hrun as -> <-.
  simpl.
  apply (bfs_loop_path n source sink (residual_graph st) (zeros (graph st)) Hres
           (square_zeros _ _ Hg) (cell_zeros _) Hs Ht _ _ _ _ _ _
           (bfs_inv_init n source _ Hs) Hloop).
Qed.

(** When [_bfs] reaches the sink, [latest_augmenting_path] holds 1 on
    the edges of one path of traversable edges from the source to the sink
    that visits no vertex twice, and 0 everywhere else. *)
Theorem bfs_marks_simple_path n source sink st parents st1 :
  square n (graph st) → square n (residual_graph st) →
  (source < n)%nat → (sink < n)%nat →
  _bfs source sink st = Ok (Some parents, st1) →
  ∃ p, head p = Some source ∧ last p = Some sink ∧ NoDup p ∧
       (∀ u v, (u, v) ∈ path_edges p → residual_edge (residual_graph st) u v) ∧
       (∀ u v, cell (latest_augmenting_path st1) u v =
               if decide ((u, v) ∈ path_edges p) then 1 else 0).
Proof.
  intros Hg Hres Hs Ht Hrun.
  destruct (_bfs_marks_path n source sink st parents st1 Hg Hres Hs Ht Hrun)
    as (p & Hhd & Hlast & Hnd & Hedges & Hcells).
  exists p. split; [done|]. split; [done|]. split; [done|]. by split.
Qed.

Lemma bfs_marks_simple_path_witness :
  ∃ p, head p = Some 0%nat ∧ last p = Some 5%nat ∧ NoDup p ∧
       (∀ u v, (u, v) ∈ path_edges p → residual_edge textbook u v) ∧
       (∀ u v, cell [ [0; 1; 0; 0; 0; 0]; [0; 0; 0; 1; 0; 0]; [0; 0; 0; 0; 0; 0];
                      [0; 0; 0; 0; 0; 1]; [0; 0; 0; 0; 0; 0]; [0; 0; 0; 0; 0; 0] ] u v =
               if decide ((u, v) ∈ path_edges p) then 1 else 0).
Proof.
  apply (bfs_marks_simple_path 6 0 5 (init textbook)
           [None; Some 0; Some 0; Some 1; Some 2; Some 3]%nat
           {| graph := textbook; residual_graph := textbook;
              latest_augmenting_path :=
                [ [0; 1; 0; 0; 0; 0]; [0; 0; 0; 1; 0; 0]; [0; 0; 0; 0; 0; 0];
                  [0; 0; 0; 0; 0; 1]; [0; 0; 0; 0; 0; 0]; [0; 0; 0; 0; 0; 0] ];
              current_flow := zeros textbook |}).
  - by apply squareb_square.
  - by apply squareb_square.
  - lia.
  - lia.
  - reflexivity.
Defined.

Lemma ff_step_cells n source sink st parents st1 :
  wf n st → (source < n)%nat → (sink < n)%nat →
  _bfs source sink st = Ok (Some parents, st1) →
  ∃ f st',
    ff_step source sink st =
      Ok (row_sum (current_flow st') source - row_sum (current_flow st) source, st') ∧
    bottleneck (latest_augmenting_path st1) (residual_graph st) f ∧
    wf n st' ∧ graph st' = graph st ∧
    latest_augmenting_path st' = latest_augmenting_path st1 ∧
    (∀ a b, cell (current_flow st') a b =
            cell (current_flow st) a b
            + ind f (cell (latest_augmenting_path st1) a b = 1 ∧ cell (graph st) a b ≠ 0)
            - ind f (cell (latest_augmenting_path st1) b a = 1 ∧ cell (graph st) b a = 0)) ∧
    (∀ a b, cell (residual_graph st') a b =
            cell (residual_graph st) a b
            - ind f (cell (latest_augmenting_path st1) a b = 1)
            + ind f (cell (latest_augmenting_path st1) b a = 1)).
Proof.
  intros (Hg & Hres & Hcf) Hs Ht Hbfs.
  destruct (_bfs_ok n source sink st Hg Hres Hs Ht) as (r & lap & Heq & Hsq & Hr).
  rewrite Heq in Hbfs. injection Hbfs as -> <-.
  destruct Hr as (Hlen & _ & v1 & Hmark & _).
  unfold ff_step. rewrite Heq. simpl.
  destruct parents as [|p parents]; [simpl in Hlen; lia|].
  destruct (item_lt (current_flow st) source) as (old_row & -> & Hold);
    [destruct Hcf; lia|]. simpl.
  destruct (flow_loop_bottleneck n lap (residual_graph st) Hsq Hres)
    as (flow & -> & Hflow).
  destruct flow as [f|]; [|by destruct (Hflow source v1)]. simpl.
  destruct (current_loop_cells n (graph st) lap f (current_flow st) Hg Hsq Hcf)
    as (cf & -> & Hcf' & Hcells1). simpl.
  destruct (residual_loop_cells n lap f (residual_graph st) Hsq Hres)
    as (res & -> & Hres' & Hcells2). simpl.
  destruct (item_lt cf source) as (new_row & -> & Hnew); [destruct Hcf'; lia|]. simpl.
  exists f, {| graph := graph st; residual_graph := res;
               latest_augmenting_path := lap; current_flow := cf |}. split.
  { unfold row_sum. simpl. rewrite Hold, Hnew. done. }
  split; [done|]. split; [by split|]. split; [done|]. split; [done|]. by split.
Qed.

Lemma bottleneck_unique lap res f f' :
  bottleneck lap res f → bottleneck lap res f' → f = f'.
Proof.
  intros [(i & j & Hm & Hf) Hmin] [(i' & j' & Hm' & Hf') Hmin'].
  specialize (Hmin _ _ Hm'). specialize (Hmin' _ _ Hm). lia.
Qed.

Lemma bottleneck_pos n lap res source f :
  square n res → nonneg res → path_marks res lap source →
  bottleneck lap res f → 0 < f.
Proof.
  intros Hres Hnn (v1 & _ & _ & Hall) [(i & j & Hm & Hf) _].
  destruct (Hall _ _ Hm) as (_ & _ & He & _).
  apply (residual_edge_cell n _ _ _ Hres) in He. specialize (Hnn i j). lia.
Qed.

Lemma row_sum_pointwise n (m m' : matrix) (i k : nat) (f : Z) :
  square n m → square n m' → (i < n)%nat → (k < n)%nat →
  (∀ j, cell m' i j = cell m i j + (if decide (j = k) then f else 0)) →
  row_sum m' i = row_sum m i + f.
Proof.
  intros Hm Hm' Hi Hk Hcells. unfold row_sum.
  destruct (item_lt m i) as (row & _ & Hrow); [destruct Hm; lia|].
  destruct (item_lt m' i) as (row' & _ & Hrow'); [destruct Hm'; lia|].
  rewrite Hrow, Hrow'. simpl. apply (sum_pointwise row row' k f).
  - by rewrite (proj2 Hm _ _ Hrow), (proj2 Hm' _ _ Hrow').
  - by rewrite (proj2 Hm _ _ Hrow).
  - intros j. rewrite <- (cell_row _ _ _ _ Hrow), <- (cell_row _ _ _ _ Hrow'). apply Hcells.
Qed.

Lemma sum_nonneg (row : list Z) : (∀ j, 0 ≤ default 0 (row !! j)) → 0 ≤ sum row.
Proof.
  induction row as [|x row IH]; intros H; simpl; [done|].
  pose proof (H 0%nat) as H0. simpl in H0.
  assert (0 ≤ sum row) by (apply IH; intros j; apply (H (S j))). lia.
Qed.

Lemma row_sum_nonneg m i : nonneg m → 0 ≤ row_sum m i.
Proof.
  intros Hnn. unfold row_sum. destruct (m !! i) as [row|] eqn:Hrow; simpl; [|done].
  apply sum_nonneg. intros j. rewrite <- (cell_row _ _ _ _ Hrow). apply Hnn.
Qed.

Lemma ff_step_nonneg n source sink st r st' :
  wf n st → nonneg (residual_graph st) → (source < n)%nat → (sink < n)%nat →
  ff_step source sink st = Ok (r, st') → nonneg (residual_graph st').
Proof.
  intros Hwf Hnn Hs Ht Hstep. pose proof Hwf as (Hg & Hres & Hcf).
  destruct (_bfs_ok n source sink st Hg Hres Hs Ht) as (r0 & lap & Heq & Hsq & Hr).
  destruct r0 as [parents|].
  - destruct (ff_step_cells n source sink st _ _ Hwf Hs Ht Heq)
      as (f & st2 & Hstep2 & Hb & _ & _ & _ & _ & Hc2).
    rewrite Hstep in Hstep2. injection Hstep2 as _ <-.
    destruct Hr as (_ & _ & Hmarks).
    pose proof (bottleneck_pos n _ _ _ _ Hres Hnn Hmarks Hb) as Hpos.
    destruct Hb as [_ Hmin]. simpl in Hmin, Hc2.
    intros a b. rewrite Hc2. specialize (Hnn a b).
    destruct (decide (cell lap a b = 1)) as [Hm|Hm].
    + rewrite (ind_True f _ Hm). pose proof (Hmin a b Hm).
      unfold ind. case_decide; lia.
    + rewrite (ind_False f _ Hm). unfold ind. case_decide; lia.
  - unfold ff_step in Hstep. rewrite Heq in Hstep. simpl in Hstep.
    injection Hstep as _ <-. done.
Qed.

Lemma run_nonneg n calls :
  Forall (λ c, (c.1 < n ∧ c.2 < n)%nat) calls →
  ∀ st rs st', wf n st → nonneg (residual_graph st) →
    run calls st = Ok (rs, st') → nonneg (residual_graph st').
Proof.
  induction 1 as [|c calls [Hs Ht] _ IH]; intros st rs st' Hwf Hnn Hrun;
    simpl in Hrun; [by simplify_eq|].
  destruct (ff_step_ok n c.1 c.2 st Hwf Hs Ht) as (r & st1 & Hstep & Hwf1 & _).
  rewrite Hstep in Hrun. simpl in Hrun.
  destruct (run calls st1) as [[rs' st2]|] eqn:Hrun'; [|done].
  simpl in Hrun. injection Hrun as _ <-.
  apply (IH st1 rs' st2 Hwf1); [|done].
  by apply (ff_step_nonneg n c.1 c.2 st r st1).
Qed.

(** On a square matrix of non-negative capacities, whatever the calls, no
    residual capacity is negative, and none exceeds the two capacities
    between its vertices taken together. *)
Theorem residual_within_bounds n g calls :
  square n g → nonneg g → Forall (λ c, (c.1 < n ∧ c.2 < n)%nat) calls →
  ∃ rs st, run calls (init g) = Ok (rs, st) ∧
    ∀ u v, 0 ≤ cell (residual_graph st) u v ≤ cell g u v + cell g v u.
Proof.
  intros Hg Hnn Hcalls.
  destruct (run_ok n calls Hcalls (init g) (wf_init n g Hg))
    as (rs & st & Hrun & _ & _ & Hsum).
  exists rs, st. split; [done|].
  pose proof (run_nonneg n calls Hcalls (init g) rs st (wf_init n g Hg) Hnn Hrun) as Hnn'.
  intros u v. pose proof (Hsum u v) as Huv. simpl in Huv.
  pose proof (Hnn' u v). pose proof (Hnn' v u). lia.
Qed.

Lemma residual_within_bounds_witness :
  ∃ rs st, run [(0, 5); (2, 3); (0, 5)]%nat (init textbook) = Ok (rs, st) ∧
    ∀ u v, 0 ≤ cell (residual_graph st) u v ≤ cell textbook u v + cell textbook v u.
Proof.
  apply (residual_within_bounds 6).
  - by apply squareb_square.
  - apply nonneg_textbook.
  - repeat constructor; simpl; lia.
Defined.

(** *** Flows *)

Lemma total_ext n (F G : nat → Z) :
  (∀ i, (i < n)%nat → F i = G i) → total n F = total n G.
Proof.
  induction n as [|n IH]; intros H; simpl; [done|].
  rewrite IH, (H n) by (intros; try apply H; lia). done.
Qed.

Lemma total_add n (F G : nat → Z) : total n (λ i, F i + G i) = total n F + total n G.
Proof. induction n as [|n IH]; simpl; lia. Qed.

Lemma total_sub n (F G : nat → Z) : total n (λ i, F i - G i) = total n F - total n G.
Proof. induction n as [|n IH]; simpl; lia. Qed.

Lemma total_zero n : total n (λ _, 0) = 0.
Proof. induction n as [|n IH]; simpl; lia. Qed.

Lemma total_le n (F G : nat → Z) :
  (∀ i, (i < n)%nat → F i ≤ G i) → total n F ≤ total n G.
Proof.
  induction n as [|n IH]; intros H; simpl; [done|].
  assert (total n F ≤ total n G) by (apply IH; intros; apply H; lia).
  specialize (H n). lia.
Qed.

Lemma total_point n k (x : Z) :
  (k < n)%nat → total n (λ i, if decide (i = k) then x else 0) = x.
Proof.
  induction n as [|n IH]; intros Hk; simpl; [lia|].
  destruct (decide (n = k)) as [->|Hne].
  - rewrite (total_ext k _ (λ _, 0)), total_zero; [lia|].
    intros i Hi. rewrite decide_False; [done|lia].
  - rewrite IH by lia. lia.
Qed.

Lemma total_exchange n m (F : nat → nat → Z) :
  total n (λ i, total m (λ j, F i j)) = total m (λ j, total n (λ i, F i j)).
Proof.
  induction n as [|n IH]; simpl.
  - by rewrite total_zero.
  - rewrite IH, <- total_add. done.
Qed.

Lemma elem_of_path_edges p a b : (a, b) ∈ path_edges p → a ∈ p ∧ b ∈ p.
Proof.
  induction p as [|x p IH]; [by intros ?%elem_of_nil|].
  destruct p as [|y p]; [by intros ?%elem_of_nil|].
  rewrite path_edges_cons. intros [Heq|Hin]%elem_of_cons.
  - injection Heq as -> ->. split; [by left|right; by left].
  - destruct (IH Hin) as [Ha Hb]. split; by right.
Qed.

Lemma elem_of_path x p u :
  u ∈ x :: p → u = x ∨ ∃ a, (a, u) ∈ path_edges (x :: p).
Proof.
  revert x. induction p as [|y p IH]; intros x.
  - intros ->%list_elem_of_singleton. by left.
  - intros [->|Hu]%elem_of_cons; [by left|]. right. rewrite path_edges_cons.
    destruct (IH y Hu) as [->|[a Ha]].
    + exists x. by left.
    + exists a. by right.
Qed.

Lemma ind_cons_edge f (E : list (nat * nat)) a y v w :
  (a, y) ∉ E →
  ind f ((v, w) ∈ (a, y) :: E) = ind f (v = a ∧ w = y) + ind f ((v, w) ∈ E).
Proof.
  intros Hfresh. destruct (decide (v = a ∧ w = y)) as [[-> ->]|Hne].
  - rewrite !ind_True, (ind_False f ((a, y) ∈ E)) by (done || by left). lia.
  - rewrite (ind_False f (v = a ∧ w = y)) by done.
    rewrite (ind_ext f ((v, w) ∈ (a, y) :: E) ((v, w) ∈ E)); [lia|].
    rewrite elem_of_cons. split; [|by right].
    intros [Heq|?]; [|done]. injection Heq as -> ->. by destruct Hne.
Qed.

Lemma ind_and_l f (P Q : Prop) `{Decision P, Decision Q} :
  ind f (P ∧ Q) = if decide P then ind f Q else 0.
Proof. unfold ind. repeat case_decide; try done; tauto. Qed.

Lemma ind_and_r f (P Q : Prop) `{Decision P, Decision Q} :
  ind f (P ∧ Q) = if decide Q then ind f P else 0.
Proof. unfold ind. repeat case_decide; try done; tauto. Qed.

(** Along a path that repeats no vertex, every vertex but the two ends
    has one edge in and one edge out. *)
Lemma path_excess n f p a b :
  NoDup p → head p = Some a → last p = Some b → (∀ u, u ∈ p → (u < n)%nat) →
  ∀ v, total n (λ w, ind f ((v, w) ∈ path_edges p))
       - total n (λ u, ind f ((u, v) ∈ path_edges p))
       = ind f (v = a) - ind f (v = b).
Proof.
  revert a. induction p as [|x p IH]; intros a Hnd Hhd Hlast Hlt v; [done|].
  simpl in Hhd. injection Hhd as ->.
  destruct p as [|y p].
  - simpl in Hlast. injection Hlast as ->.
    rewrite (total_ext n (λ w, ind f ((v, w) ∈ path_edges [b])) (λ _, 0))
      by (intros i _; apply ind_False; by intros ?%elem_of_nil).
    rewrite (total_ext n (λ u, ind f ((u, v) ∈ path_edges [b])) (λ _, 0))
      by (intros i _; apply ind_False; by intros ?%elem_of_nil).
    rewrite total_zero. lia.
  - apply NoDup_cons in Hnd as [Hx Hnd].
    assert (∀ u, u ∈ y :: p → (u < n)%nat) as Hlt' by (intros u Hu; apply Hlt; by right).
    specialize (IH y Hnd eq_refl Hlast Hlt' v).
    rewrite path_edges_cons.
    assert ((a, y) ∉ path_edges (y :: p)) as Hfresh.
    { intros Hin. by apply elem_of_path_edges in Hin as [? _]. }
    assert (a < n)%nat as Han by (apply Hlt; by left).
    assert (y < n)%nat as Hyn by (apply Hlt; right; by left).
    rewrite (total_ext n (λ w, ind f ((v, w) ∈ (a, y) :: path_edges (y :: p)))
               (λ w, (if decide (w = y) then ind f (v = a) else 0)
                     + ind f ((v, w) ∈ path_edges (y :: p))))
      by (intros w _; by rewrite ind_cons_edge, ind_and_r).
    rewrite (total_ext n (λ u, ind f ((u, v) ∈ (a, y) :: path_edges (y :: p)))
               (λ u, (if decide (u = a) then ind f (v = y) else 0)
                     + ind f ((u, v) ∈ path_edges (y :: p))))
      by (intros u _; by rewrite ind_cons_edge, ind_and_l).
    rewrite !total_add, !total_point by done. lia.
Qed.

Lemma marks_path_lt n res lap source sink p :
  square n res → (source < n)%nat → marks_path res lap source sink p →
  ∀ u, u ∈ p → (u < n)%nat.
Proof.
  intros Hres Hs (Hhd & _ & _ & Hedges & _) u Hu.
  destruct p as [|x p]; [done|]. simpl in Hhd. injection Hhd as ->.
  destruct (elem_of_path _ _ _ Hu) as [->|[a Ha]]; [done|].
  apply Hedges, (residual_edge_cell n _ _ _ Hres) in Ha.
  by destruct (cell_lt n _ _ _ Hres Ha).
Qed.

Lemma net_flow_augment n g res lap cf cf' source sink p f :
  marks_path res lap source sink p → (∀ u, u ∈ p → (u < n)%nat) →
  (∀ a b, cell cf' a b =
          cell cf a b + ind f (cell lap a b = 1 ∧ cell g a b ≠ 0)
                      - ind f (cell lap b a = 1 ∧ cell g b a = 0)) →
  ∀ v, net_flow n cf' v = net_flow n cf v + ind f (v = source) - ind f (v = sink).
Proof.
  intros (Hhd & Hlast & Hnd & _ & Hlap) Hlt Hc v.
  pose proof (path_excess n f p source sink Hnd Hhd Hlast Hlt v) as Hex.
  set (A := λ a b : nat, ind f (cell lap a b = 1 ∧ cell g a b ≠ 0)).
  set (B := λ a b : nat, ind f (cell lap a b = 1 ∧ cell g a b = 0)).
  assert (∀ a b, ind f ((a, b) ∈ path_edges p) = A a b + B a b) as HL.
  { intros a b. unfold A, B, ind. specialize (Hlap a b).
    repeat case_decide; destruct_and?; try lia; exfalso; tauto. }
  unfold net_flow.
  rewrite (total_ext n (λ w, cell cf' v w) (λ w, cell cf v w + (A v w - B w v)))
    by (intros w _; rewrite Hc; unfold A, B; lia).
  rewrite (total_ext n (λ u, cell cf' u v) (λ u, cell cf u v + (A u v - B v u)))
    by (intros u _; rewrite Hc; unfold A, B; lia).
  rewrite (total_ext n (λ w, ind f ((v, w) ∈ path_edges p)) (λ w, A v w + B v w)) in Hex
    by (intros w _; apply HL).
  rewrite (total_ext n (λ u, ind f ((u, v) ∈ path_edges p)) (λ u, A u v + B u v)) in Hex
    by (intros u _; apply HL).
  rewrite !total_add, !total_sub. rewrite !total_add in Hex.
  change (total n (λ w, cell cf v w)) with (total n (cell cf v)). lia.
Qed.

(** The step changes the net flow of the two ends of its path only. *)
Lemma ff_step_net_flow n source sink st parents st1 :
  wf n st → (source < n)%nat → (sink < n)%nat →
  _bfs source sink st = Ok (Some parents, st1) →
  ∃ f st',
    ff_step source sink st =
      Ok (row_sum (current_flow st') source - row_sum (current_flow st) source, st') ∧
    bottleneck (latest_augmenting_path st1) (residual_graph st) f ∧
    ∀ v, net_flow n (current_flow st') v =
         net_flow n (current_flow st) v + ind f (v = source) - ind f (v = sink).
Proof.
  intros Hwf Hs Ht Hbfs. pose proof Hwf as (Hg & Hres & Hcf).
  destruct (ff_step_cells n source sink st _ _ Hwf Hs Ht Hbfs)
    as (f & st' & Hstep & Hb & _ & _ & _ & Hc1 & _).
  destruct (_bfs_marks_path n source sink st _ _ Hg Hres Hs Ht Hbfs) as [p Hp].
  exists f, st'. split; [done|]. split; [done|].
  apply (net_flow_augment n (graph st) (residual_graph st)
           (latest_augmenting_path st1) _ _ source sink p f Hp); [|done].
  by apply (marks_path_lt n (residual_graph st) (latest_augmenting_path st1) source sink).
Qed.

Lemma net_flow_zeros n g v : net_flow n (zeros g) v = 0.
Proof.
  unfold net_flow.
  rewrite (total_ext n (λ w, cell (zeros g) v w) (λ _, 0))
    by (intros i _; apply cell_zeros).
  rewrite (total_ext n (λ u, cell (zeros g) u v) (λ _, 0))
    by (intros i _; apply cell_zeros).
  lia.
Qed.

Lemma ff_step_conserves n source sink st r st' :
  wf n st → (source < n)%nat → (sink < n)%nat →
  ff_step source sink st = Ok (r, st') →
  ∀ v, v ≠ source → v ≠ sink →
    net_flow n (current_flow st') v = net_flow n (current_flow st) v.
Proof.
  intros Hwf Hs Ht Hstep v Hvs Hvt. pose proof Hwf as (Hg & Hres & Hcf).
  destruct (_bfs_ok n source sink st Hg Hres Hs Ht) as (r0 & lap & Heq & Hsq & Hr).
  destruct r0 as [parents|].
  - destruct (ff_step_net_flow n source sink st _ _ Hwf Hs Ht Heq)
      as (f & st2 & Hstep2 & _ & Hnet).
    rewrite Hstep in Hstep2. injection Hstep2 as _ <-.
    rewrite Hnet, !ind_False by done. lia.
  - unfold ff_step in Hstep. rewrite Heq in Hstep. simpl in Hstep.
    by injection Hstep as _ <-.
Qed.

Lemma run_conserves n calls :
  Forall (λ c, (c.1 < n ∧ c.2 < n)%nat) calls →
  ∀ st rs st', wf n st → run calls st = Ok (rs, st') →
  ∀ v, (∀ c, c ∈ calls → v ≠ c.1 ∧ v ≠ c.2) →
    net_flow n (current_flow st') v = net_flow n (current_flow st) v.
Proof.
  induction 1 as [|c calls [Hs Ht] _ IH]; intros st rs st' Hwf Hrun v Hv;
    simpl in Hrun; [by simplify_eq|].
  destruct (ff_step_ok n c.1 c.2 st Hwf Hs Ht) as (r & st1 & Hstep & Hwf1 & _).
  rewrite Hstep in Hrun. simpl in Hrun.
  destruct (run calls st1) as [[rs' st2]|] eqn:Hrun'; [|done].
  simpl in Hrun. injection Hrun as _ <-.
  rewrite (IH st1 rs' st2 Hwf1 Hrun' v) by (intros c' Hc'; apply Hv; by right).
  destruct (Hv c) as [Hv1 Hv2]; [by left|].
  by apply (ff_step_conserves n c.1 c.2 st r st1).
Qed.

(** Whatever the matrix and the calls, the recorded flow is conserved at
    every vertex that no call used as its source or its sink: what
    [current_flow] sends out of it is what it sends into it. *)
Theorem flow_conservation n g calls :
  square n g → Forall (λ c, (c.1 < n ∧ c.2 < n)%nat) calls →
  ∃ rs st, run calls (init g) = Ok (rs, st) ∧
    ∀ v, (∀ c, c ∈ calls → v ≠ c.1 ∧ v ≠ c.2) →
      total n (λ w, cell (current_flow st) v w) =
      total n (λ u, cell (current_flow st) u v).
Proof.
  intros Hg Hcalls.
  destruct (run_ok n calls Hcalls (init g) (wf_init n g Hg)) as (rs & st & Hrun & _).
  exists rs, st. split; [done|]. intros v Hv.
  pose proof (run_conserves n calls Hcalls (init g) rs st (wf_init n g Hg) Hrun v Hv)
    as Hnet.
  simpl in Hnet. rewrite net_flow_zeros in Hnet. unfold net_flow in Hnet. lia.
Qed.

Lemma flow_conservation_witness :
  ∃ rs st, run [(0, 3); (0, 3)]%nat (init antiparallel) = Ok (rs, st) ∧
    ∀ v, (∀ c, c ∈ [(0, 3); (0, 3)]%nat → v ≠ c.1 ∧ v ≠ c.2) →
      total 6 (λ w, cell (current_flow st) v w) =
      total 6 (λ u, cell (current_flow st) u v).
Proof.
  apply (flow_conservation 6 antiparallel).
  - by apply squareb_square.
  - repeat constructor; simpl; lia.
Defined.

(** One turn of the loop of [ford_fulkerson]: what it returns is taken
    from the residual capacities that leave the source, and it is the net
    flow that the source gains and the sink loses. *)
Lemma ff_step_same_source n source sink st :
  wf n st → (source < n)%nat → (sink < n)%nat → source ≠ sink →
  forward_source st source → nonneg (residual_graph st) →
  ∃ r st', ff_step source sink st = Ok (r, st') ∧
    wf n st' ∧ graph st' = graph st ∧
    forward_source st' source ∧ nonneg (residual_graph st') ∧
    0 ≤ r ∧
    row_sum (residual_graph st') source = row_sum (residual_graph st) source - r ∧
    row_sum (current_flow st') source = row_sum (current_flow st) source + r ∧
    (∀ v, net_flow n (current_flow st') v =
          net_flow n (current_flow st) v + ind r (v = source) - ind r (v = sink)) ∧
    (r = 0 → residual_graph st' = residual_graph st ∧
             current_flow st' = current_flow st ∧
             ∃ side, separates (residual_graph st) source sink side).
Proof.
  intros Hwf Hs Ht Hne Hfwd Hnn. pose proof Hwf as (Hg & Hres & Hcf).
  destruct (_bfs_ok n source sink st Hg Hres Hs Ht) as (r0 & lap & Heq & Hsq & Hr).
  destruct r0 as [parents|].
  - destruct (ff_step_cells n source sink st _ _ Hwf Hs Ht Heq)
      as (f & st' & Hstep & Hb & Hwf' & Hg' & Hlap' & Hc1 & Hc2).
    destruct (ff_step_returns_bottleneck n source sink st _ _ Hwf Hs Ht Hfwd Heq)
      as (f2 & st2 & Hstep2 & Hb2 & _ & _ & Hfwd2).
    rewrite Hstep in Hstep2. injection Hstep2 as Hf2 <-.
    pose proof (bottleneck_unique _ _ _ _ Hb Hb2) as <-.
    destruct (ff_step_net_flow n source sink st _ _ Hwf Hs Ht Heq)
      as (f3 & st3 & Hstep3 & Hb3 & Hnet).
    rewrite Hstep in Hstep3. injection Hstep3 as _ <-.
    pose proof (bottleneck_unique _ _ _ _ Hb Hb3) as <-.
    simpl in Hb, Hc1, Hc2. destruct Hr as (_ & _ & Hmarks).
    pose proof (bottleneck_pos n _ _ _ _ Hres Hnn Hmarks Hb) as Hpos.
    destruct Hmarks as (v1 & Hmark & Hedge & Hall).
    destruct Hb as [_ Hmin].
    rewrite Hf2 in Hstep.
    exists f, st'. split; [done|]. split; [done|]. split; [done|].
    split; [done|]. split.
    { intros a b. rewrite Hc2. specialize (Hnn a b).
      destruct (decide (cell lap a b = 1)) as [Hm|Hm].
      - rewrite (ind_True f _ Hm). pose proof (Hmin a b Hm).
        unfold ind. case_decide; lia.
      - rewrite (ind_False f _ Hm). unfold ind. case_decide; lia. }
    split; [lia|]. split; [|split; [lia|split; [done|lia]]].
    replace (row_sum (residual_graph st) source - f)
      with (row_sum (residual_graph st) source + - f) by lia.
    assert (v1 < n)%nat as Hv1.
    { apply (residual_edge_cell n _ _ _ Hres) in Hedge.
      by destruct (cell_lt n _ _ _ Hres Hedge). }
    apply (row_sum_pointwise n _ _ source v1); [done|by destruct Hwf' as (_ & ? & _)|done..|].
    intros j. rewrite Hc2.
    rewrite (ind_False f (cell lap j source = 1)).
    2:{ intros Hm. by destruct (Hall _ _ Hm) as (? & _). }
    destruct (decide (j = v1)) as [->|Hj].
    + rewrite ind_True by done. lia.
    + rewrite ind_False; [lia|]. intros Hm. destruct (Hall _ _ Hm) as (_ & Hv & _).
      by apply Hj, Hv.
  - subst lap. exists 0. eexists. split.
    { unfold ff_step. rewrite Heq. simpl. done. }
    simpl. split; [done|]. split; [done|]. split; [done|]. split; [done|].
    split; [done|]. split; [lia|]. split; [lia|]. split.
    { intros v. unfold ind. repeat case_decide; lia. }
    intros _. split; [done|]. split; [done|].
    apply (_bfs_None_separates source sink st _ (eq_ind_r _ Ht (proj1 Hg)) Hne Heq).
Qed.

Lemma flow_inv_nonneg st : flow_inv st → nonneg (residual_graph st).
Proof.
  intros Hinv a b. destruct (Hinv a b) as [? ->]. destruct (Hinv b a) as [? _]. lia.
Qed.

Lemma ford_fulkerson_loop_ok n source sink :
  (source < n)%nat → (sink < n)%nat → source ≠ sink →
  ∀ fuel st acc,
    wf n st → forward_source st source → nonneg (residual_graph st) →
    (Z.to_nat (row_sum (residual_graph st) source) < fuel)%nat →
    ∃ flow st', ford_fulkerson_loop fuel source sink st acc = Ok (acc + flow, st') ∧
      wf n st' ∧ graph st' = graph st ∧ nonneg (residual_graph st') ∧
      0 ≤ flow ∧
      row_sum (residual_graph st') source = row_sum (residual_graph st) source - flow ∧
      row_sum (current_flow st') source = row_sum (current_flow st) source + flow ∧
      (∀ v, net_flow n (current_flow st') v =
            net_flow n (current_flow st) v + ind flow (v = source) - ind flow (v = sink)) ∧
      (no_opposite (graph st) → flow_inv st → flow_inv st') ∧
      ∃ side, separates (residual_graph st') source sink side.
Proof.
  intros Hs Ht Hne. induction fuel as [|fuel IH]; intros st acc Hwf Hfwd Hnn Hfuel; [lia|].
  simpl.
  destruct (ff_step_same_source n source sink st Hwf Hs Ht Hne Hfwd Hnn)
    as (r & st1 & Hstep & Hwf1 & Hg1 & Hfwd1 & Hnn1 & Hr & Hres1 & Hcf1 & Hnet1 & Hzero).
  rewrite Hstep. simpl.
  assert (no_opposite (graph st) → flow_inv st → flow_inv st1) as Hinv1.
  { intros Hopp Hinv. by apply (ff_step_flow_inv n source sink st r st1). }
  destruct (Z.eqb_spec r 0) as [->|Hr0].
  - destruct (Hzero eq_refl) as (Hreq & Hceq & Hside).
    exists 0, st1. rewrite Z.add_0_r. split; [done|]. split; [done|]. split; [done|].
    split; [done|]. split; [done|]. split; [lia|]. split; [lia|]. split; [done|].
    split; [done|]. by rewrite Hreq.
  - pose proof (row_sum_nonneg _ source Hnn1) as Hge.
    destruct (IH st1 (acc + r) Hwf1 Hfwd1 Hnn1) as
      (flow & st2 & -> & Hwf2 & Hg2 & Hnn2 & Hflow & Hres2 & Hcf2 & Hnet2 & Hinv2 & Hside);
      [lia|].
    exists (r + flow), st2. split; [f_equal; f_equal; lia|].
    split; [done|]. split; [congruence|]. split; [done|]. split; [lia|].
    split; [lia|]. split; [lia|]. split.
    { intros v. rewrite Hnet2, Hnet1. unfold ind. repeat case_decide; lia. }
    split; [|done]. intros Hopp Hinv. apply Hinv2; [by rewrite Hg1|by apply Hinv1].
Qed.

Lemma row_sum_zeros g i : row_sum (zeros g) i = 0.
Proof.
  unfold row_sum, zeros. rewrite list_lookup_fmap.
  destruct (g !! i) as [row|]; simpl; [|done].
  induction row as [|x row IH]; simpl; [done|]. by rewrite IH.
Qed.

(** On a square matrix of non-negative capacities, [ford_fulkerson]
    returns after at most [sum(graph[source]) + 1] steps.  It leaves
    [graph] as it was and no augmenting path in the residual graph, and
    what it returns is [sum(current_flow[source])], between 0 and
    [sum(graph[source])]. *)
Theorem ford_fulkerson_terminates n g source sink extra :
  square n g → nonneg g → (source < n)%nat → (sink < n)%nat → source ≠ sink →
  ∃ max_flow st,
    ford_fulkerson (S (Z.to_nat (row_sum g source)) + extra) source sink (init g)
      = Ok (max_flow, st) ∧
    graph st = g ∧
    ¬ augmenting_path (residual_graph st) source sink ∧
    max_flow = row_sum (current_flow st) source ∧
    0 ≤ max_flow ≤ row_sum g source.
Proof.
  intros Hg Hnn Hs Ht Hne.
  destruct (ford_fulkerson_loop_ok n source sink Hs Ht Hne
              (S (Z.to_nat (row_sum g source))) (init g) 0 (wf_init n g Hg)
              (forward_source_init n g source Hg) Hnn)
    as (flow & st & Hrun & _ & Hgeq & Hnn' & Hflow & Hres & Hcf & _ & _ & side & Hside);
    [simpl; lia|].
  exists flow, st. split.
  { unfold ford_fulkerson. by apply ford_fulkerson_loop_more. }
  split; [done|]. split; [by apply (separates_no_path _ _ _ side)|].
  simpl in Hres, Hcf. rewrite row_sum_zeros in Hcf.
  split; [lia|]. pose proof (row_sum_nonneg _ source Hnn'). lia.
Qed.

Lemma ford_fulkerson_terminates_witness :
  ∃ max_flow st,
    ford_fulkerson (S (Z.to_nat (row_sum textbook 0)) + 0) 0 5 (init textbook)
      = Ok (max_flow, st) ∧
    graph st = textbook ∧
    ¬ augmenting_path (residual_graph st) 0 5 ∧
    max_flow = row_sum (current_flow st) 0 ∧
    0 ≤ max_flow ≤ row_sum textbook 0.
Proof.
  apply (ford_fulkerson_terminates 6 textbook 0 5 0).
  - by apply squareb_square.
  - apply nonneg_textbook.
  - lia.
  - lia.
  - lia.
Defined.

(** What a flow sends from the source crosses every set of vertices
    that holds the source and not the sink. *)
Lemma cut_value n h (side : nat → bool) source sink :
  (source < n)%nat → side source = true → side sink = false →
  (∀ v, (v < n)%nat → v ≠ source → v ≠ sink → net_flow n h v = 0) →
  net_flow n h source =
  total n (λ v, total n (λ w,
    if side v && negb (side w) then cell h v w - cell h w v else 0)).
Proof.
  intros Hs Hsrc Hsink Hcons.
  assert (net_flow n h source =
          total n (λ v, if side v then net_flow n h v else 0)) as ->.
  { rewrite (total_ext n _ (λ v, if decide (v = source) then net_flow n h source else 0)).
    - by rewrite total_point.
    - intros v Hv. destruct (decide (v = source)) as [->|Hvs]; [by rewrite Hsrc|].
      destruct (side v) eqn:Hside; [|done]. apply Hcons; [done..|]. congruence. }
  set (a := λ v w : nat, if side v && side w then cell h v w else 0).
  assert (total n (λ v, total n (λ w, a v w - a w v)) = 0) as Hsym.
  { rewrite (total_ext n _ (λ v, total n (λ w, a v w) - total n (λ w, a w v)))
      by (intros v _; apply total_sub).
    rewrite total_sub. rewrite (total_exchange n n (λ v w, a w v)).
    apply Z.sub_diag. }
  set (Y := λ v w : nat,
         if side v && negb (side w) then cell h v w - cell h w v else 0).
  rewrite (total_ext n (λ v, if side v then net_flow n h v else 0)
             (λ v, total n (λ w, a v w - a w v) + total n (λ w, Y v w))).
  { rewrite total_add, Hsym, Z.add_0_l. reflexivity. }
  intros v _. rewrite <- total_add. destruct (side v) eqn:Hv.
  - unfold net_flow. rewrite <- total_sub. apply total_ext. intros w _.
    unfold a, Y. rewrite Hv. destruct (side w); simpl; lia.
  - rewrite (total_ext n _ (λ _, 0)); [by rewrite total_zero|].
    intros w _. unfold a, Y. rewrite Hv. destruct (side w); simpl; lia.
Qed.

(** On a square matrix of non-negative capacities without opposite
    edges, what [ford_fulkerson] leaves in [current_flow] is a flow of the
    network, the value it returns is what that flow sends from the source,
    and no flow of the network sends more. *)
Theorem ford_fulkerson_max_flow n g source sink extra :
  square n g → nonneg g → no_opposite g →
  (source < n)%nat → (sink < n)%nat → source ≠ sink →
  ∃ max_flow st,
    ford_fulkerson (S (Z.to_nat (row_sum g source)) + extra) source sink (init g)
      = Ok (max_flow, st) ∧
    feasible n g (current_flow st) source sink ∧
    net_flow n (current_flow st) source = max_flow ∧
    ∀ h, feasible n g h source sink → net_flow n h source ≤ max_flow.
Proof.
  intros Hg Hnn Hopp Hs Ht Hne.
  destruct (ford_fulkerson_loop_ok n source sink Hs Ht Hne
              (S (Z.to_nat (row_sum g source))) (init g) 0 (wf_init n g Hg)
              (forward_source_init n g source Hg) Hnn)
    as (flow & st & Hrun & Hwf & Hgeq & _ & _ & _ & _ & Hnet & Hinv & side & Hside);
    [simpl; lia|].
  simpl in Hgeq, Hnet. specialize (Hinv Hopp (flow_inv_init g Hnn)).
  assert (∀ v, net_flow n (current_flow st) v = ind flow (v = source) - ind flow (v = sink))
    as Hnet' by (intros v; rewrite Hnet, net_flow_zeros; lia).
  assert (net_flow n (current_flow st) source = flow) as Hvalue.
  { rewrite Hnet', ind_True, ind_False by done. lia. }
  assert (feasible n g (current_flow st) source sink) as Hfeas.
  { split.
    - intros u v. destruct (Hinv u v) as [Huv _]. by rewrite Hgeq in Huv.
    - intros v _ Hvs Hvt. rewrite Hnet', !ind_False by done. lia. }
  exists flow, st. split.
  { unfold ford_fulkerson. by apply ford_fulkerson_loop_more. }
  split; [done|]. split; [done|]. intros h [Hcap Hcons].
  destruct Hside as (Hsrc & Hsink & Hclosed).
  set (inside := λ v : nat, bool_decide (side !! v = Some true)).
  assert (inside source = true) as Hin_s by (by apply bool_decide_eq_true).
  assert (inside sink = false) as Hin_t by (apply bool_decide_eq_false; congruence).
  rewrite <- Hvalue.
  rewrite (cut_value n h inside source sink Hs Hin_s Hin_t Hcons).
  rewrite (cut_value n (current_flow st) inside source sink Hs Hin_s Hin_t (proj2 Hfeas)).
  apply total_le. intros v Hv. apply total_le. intros w Hw.
  destruct (inside v) eqn:Hiv; simpl; [|done].
  destruct (inside w) eqn:Hiw; simpl; [done|].
  apply bool_decide_eq_true in Hiv. apply bool_decide_eq_false in Hiw.
  assert (cell (residual_graph st) v w = 0) as Hzero.
  { destruct (decide (cell (residual_graph st) v w = 0)) as [|Hnz]; [done|].
    destruct Hiw. apply (Hclosed v w Hiv).
    by apply (residual_edge_cell n _ _ _ (proj1 (proj2 Hwf))). }
  destruct (Hinv v w) as [Hvw Hres]. destruct (Hinv w v) as [Hwv _].
  rewrite Hgeq in Hvw, Hwv, Hres.
  pose proof (Hcap v w). pose proof (Hcap w v). lia.
Qed.

Lemma ford_fulkerson_max_flow_witness :
  ∃ max_flow st,
    ford_fulkerson (S (Z.to_nat (row_sum textbook 0)) + 0) 0 5 (init textbook)
      = Ok (max_flow, st) ∧
    feasible 6 textbook (current_flow st) 0 5 ∧
    net_flow 6 (current_flow st) 0 = max_flow ∧
    ∀ h, feasible 6 textbook h 0 5 → net_flow 6 h 0 ≤ max_flow.
Proof.
  apply (ford_fulkerson_max_flow 6 textbook 0 5 0).
  - by apply squareb_square.
  - apply nonneg_textbook.
  - apply no_opposite_textbook.
  - lia.
  - lia.
  - lia.
Defined.

(** *** Breadth first: the marked path is a shortest one *)

Lemma ascending_snoc d queue x :
  ascending d queue → (∀ a, a ∈ queue → (d a ≤ d x)%nat) → ascending d (queue ++ [x]).
Proof.
  induction queue as [|a queue IH]; simpl; intros Hasc Hle.
  - split; [|done]. by intros b ?%elem_of_nil.
  - destruct Hasc as [Ha Hasc]. split.
    + intros b [Hb|Hb]%elem_of_app; [by apply Ha|].
      apply list_elem_of_singleton in Hb as ->. apply Hle. by left.
    + apply IH; [done|]. intros b Hb. apply Hle. by right.
Qed.

Lemma ascending_ext d d' queue :
  (∀ a, a ∈ queue → d' a = d a) → ascending d queue → ascending d' queue.
Proof.
  induction queue as [|a queue IH]; simpl; intros Heq Hasc; [done|].
  destruct Hasc as [Ha Hasc]. split.
  - intros b Hb. rewrite !Heq by (by left || by right). by apply Ha.
  - apply IH; [|done]. intros b Hb. apply Heq. by right.
Qed.

Lemma ascending_head d a queue q :
  ascending d (a :: queue) → q ∈ a :: queue → (d a ≤ d q)%nat.
Proof. intros [Ha _] [->|Hq]%elem_of_cons; [done|by apply Ha]. Qed.

Lemma path_levels (d : nat → nat) p x y :
  head p = Some x → last p = Some y →
  (∀ u v, (u, v) ∈ path_edges p → d v = S (d u)) →
  d y = (d x + length (path_edges p))%nat.
Proof.
  revert x. induction p as [|a p IH]; intros x Hhd Hlast Hlinks; [done|].
  simpl in Hhd. injection Hhd as ->. destruct p as [|b p].
  - simpl in Hlast. injection Hlast as ->. simpl. lia.
  - rewrite path_edges_cons in *. simpl length.
    rewrite (IH b eq_refl Hlast) by (intros u v Huv; apply Hlinks; by right).
    rewrite (Hlinks x b) by (by left). lia.
Qed.

Lemma hops_cons res u v w k :
  residual_edge res u v → hops res v w k → hops res u w (S k).
Proof.
  intros Huv Hvw. induction Hvw as [|v' w k Hvw IH Hedge].
  - apply (hops_S _ _ u); [constructor|done].
  - by apply (hops_S _ _ v').
Qed.

Lemma path_hops res p x y :
  head p = Some x → last p = Some y →
  (∀ u v, (u, v) ∈ path_edges p → residual_edge res u v) →
  hops res x y (length (path_edges p)).
Proof.
  revert x. induction p as [|a p IH]; intros x Hhd Hlast Hedges; [done|].
  simpl in Hhd. injection Hhd as ->. destruct p as [|b p].
  - simpl in Hlast. injection Hlast as ->. constructor.
  - rewrite path_edges_cons in *. simpl length.
    apply (hops_cons _ _ b); [apply Hedges; by left|].
    apply (IH b eq_refl Hlast). intros u v Huv. apply Hedges. by right.
Qed.

Lemma hops_unvisited (visited : list bool) res source x k :
  visited !! source = Some true → visited !! x ≠ Some true →
  hops res source x k →
  ∃ w k', k = S k' ∧ hops res source w k' ∧ residual_edge res w x.
Proof.
  intros Hsrc Hx Hhops. destruct Hhops as [|w x k' Hw Hedge]; [done|].
  by exists w, k'.
Qed.

Lemma bfs_levels_discover n source res d visited queue parents vertex idx :
  bfs_inv n source res visited queue parents →
  bfs_levels source res d visited queue parents →
  visited !! vertex = Some true → visited !! idx = Some false →
  (∀ q, q ∈ queue → (d vertex ≤ d q ≤ S (d vertex))%nat) →
  (∀ x k, visited !! x ≠ Some true → hops res source x k → (d vertex < k)%nat) →
  let d' := λ v, if decide (v = idx) then S (d vertex) else d v in
  bfs_levels source res d' (<[idx := true]> visited) (queue ++ [idx])
             (<[idx := Some vertex]> parents) ∧
  (∀ q, q ∈ queue ++ [idx] → (d' vertex ≤ d' q ≤ S (d' vertex))%nat) ∧
  (∀ x k, <[idx := true]> visited !! x ≠ Some true → hops res source x k →
          (d' vertex < k)%nat).
Proof.
  intros Hinv [Hl1 Hl2 Hl3 Hl4] Hv Hi Hq Hfar d'.
  assert (idx ≠ vertex) as Hiv by congruence.
  assert (idx ≠ source) as His.
  { pose proof (inv_source _ _ _ _ _ _ Hinv). congruence. }
  assert (idx < length visited)%nat as Hilt by (by eapply lookup_lt_Some).
  assert (length parents = length visited) as Hpl.
  { by rewrite (inv_parents_len _ _ _ _ _ _ Hinv), (inv_visited_len _ _ _ _ _ _ Hinv). }
  assert (d' vertex = d vertex) as Hdv by (unfold d'; by rewrite decide_False).
  assert (∀ x, visited !! x = Some true → d' x = d x) as Hold.
  { intros x Hx. unfold d'. rewrite decide_False; [done|congruence]. }
  assert (∀ q, q ∈ queue → d' q = d q) as Holdq.
  { intros q Hin. apply Hold. by apply (inv_queue _ _ _ _ _ _ Hinv). }
  assert (d' idx = S (d vertex)) as Hdi by (unfold d'; by rewrite decide_True).
  split; [split|split].
  - unfold d'. by rewrite decide_False.
  - intros v p Hvp. destruct (decide (v = idx)) as [->|Hne].
    + rewrite list_lookup_insert_eq in Hvp by lia. injection Hvp as <-.
      split; [apply list_lookup_insert_eq; lia|]. by rewrite Hdi, Hdv.
    + rewrite list_lookup_insert_ne in Hvp by done.
      destruct (Hl2 _ _ Hvp) as [Hvv Hd]. rewrite list_lookup_insert_ne by done.
      split; [done|]. rewrite (Hold v Hvv).
      rewrite (Hold p) by (by eapply (inv_parent _ _ _ _ _ _ Hinv)). done.
  - intros x k Hx Hhops. destruct (decide (x = idx)) as [->|Hne].
    + rewrite Hdi. assert (d vertex < k)%nat; [|lia].
      apply (Hfar idx); [congruence|done].
    + rewrite list_lookup_insert_ne in Hx by done. rewrite (Hold x Hx). eauto.
  - apply ascending_snoc.
    + by apply (ascending_ext d).
    + intros a Ha. rewrite (Holdq a Ha), Hdi. by apply Hq.
  - intros q [Hin|Hin]%elem_of_app.
    + rewrite Hdv, (Holdq q Hin). by apply Hq.
    + apply list_elem_of_singleton in Hin as ->. rewrite Hdv, Hdi. lia.
  - intros x k Hx Hhops. rewrite Hdv. apply (Hfar x); [|done].
    intros Hxv. apply Hx. rewrite list_lookup_insert_ne; [done|congruence].
Qed.

Lemma scan_row_levels n source sink res vertex fullrow lap :
  square n lap → (∀ u v, cell lap u v = 0) →
  (source < n)%nat → (sink < n)%nat →
  res !! vertex = Some fullrow → length fullrow = n →
  ∀ row idx visited queue parents d r,
    drop idx fullrow = row →
    bfs_inv n source res visited queue parents →
    visited !! vertex = Some true →
    bfs_levels source res d visited queue parents →
    (∀ q, q ∈ queue → (d vertex ≤ d q ≤ S (d vertex))%nat) →
    (∀ x k, visited !! x ≠ Some true → hops res source x k → (d vertex < k)%nat) →
    (∀ u v, visited !! u = Some true → u ∉ queue → residual_edge res u v →
            (u = vertex ∧ (idx ≤ v)%nat) ∨ visited !! v = Some true) →
    scan_row source sink vertex row idx visited queue parents lap = Ok r →
    match r with
    | Reached parents' lap' =>
        ∃ p, marks_path res lap' source sink p ∧
             ∀ k, hops res source sink k → (length (path_edges p) ≤ k)%nat
    | Scanned visited' queue' parents' =>
        ∃ d', d' vertex = d vertex ∧
          bfs_inv n source res visited' queue' parents' ∧
          bfs_levels source res d' visited' queue' parents' ∧
          (∀ q, q ∈ queue' → (d' vertex ≤ d' q ≤ S (d' vertex))%nat) ∧
          (∀ x k, visited' !! x ≠ Some true → hops res source x k →
                  (d' vertex < k)%nat) ∧
          (∀ u v, visited' !! u = Some true → u ∉ queue' → residual_edge res u v →
                  visited' !! v = Some true)
    end.
Proof.
  intros Hsq Hclean Hs Ht Hrow Hlen.
  induction row as [|neighbour row IH];
    intros idx visited queue parents d r Hdrop Hinv Hv Hlev Hq Hfar Hcl Hrun.
  - simpl in Hrun. injection Hrun as <-. exists d.
    split; [done|]. split; [done|]. split; [done|]. split; [done|]. split; [done|].
    intros u v Hu Hnq Huv. destruct (Hcl u v Hu Hnq Huv) as [[-> Hle]|]; [|done].
    destruct Huv as (x & Hx & _). unfold get2 in Hx.
    apply item_Ok in Hrow. rewrite Hrow in Hx. simpl in Hx.
    apply item_Ok, lookup_lt_Some in Hx.
    apply drop_nil_inv in Hdrop. lia.
  - pose proof Hrun as Hrun0. simpl in Hrun.
    assert (fullrow !! idx = Some neighbour) as Hx.
    { rewrite <- (Nat.add_0_r idx), <- lookup_drop, Hdrop. done. }
    assert (drop (S idx) fullrow = row) as Hdrop'.
    { rewrite (drop_S _ _ _ Hx) in Hdrop. congruence. }
    assert (idx < n)%nat as Hidx by (rewrite <- Hlen; eapply lookup_lt_Some; eauto).
    pose proof (inv_visited_len _ _ _ _ _ _ Hinv) as Hvl.
    pose proof (inv_parents_len _ _ _ _ _ _ Hinv) as Hpl.
    destruct (item_lt visited idx) as (seen & Hitem & Hseen); [lia|].
    rewrite Hitem in Hrun. simpl in Hrun.
    assert (∀ u v, visited !! u = Some true → u ∉ queue → residual_edge res u v →
              visited !! idx = Some true ∨ neighbour = 0 →
              (u = vertex ∧ (S idx ≤ v)%nat) ∨ visited !! v = Some true) as Hskip.
    { intros u v Hu Hnq Huv Hcase.
      destruct (Hcl u v Hu Hnq Huv) as [[-> Hle]|]; [|by right].
      destruct (decide (v = idx)) as [->|Hne]; [|left; split; [done|lia]].
      destruct Hcase as [?| ->]; [by right|].
      destruct Huv as (y & Hy & Hy0). unfold get2 in Hy.
      apply item_Ok in Hrow. rewrite Hrow in Hy. simpl in Hy.
      apply item_Ok in Hy. congruence. }
    destruct seen; simpl in Hrun.
    { apply (IH (S idx) visited queue parents d r); try done.
      intros u v Hu Hnq Huv. apply Hskip; auto. }
    destruct (Z.eqb_spec neighbour 0) as [->|Hn0]; simpl in Hrun.
    { apply (IH (S idx) visited queue parents d r); try done.
      intros u v Hu Hnq Huv. apply Hskip; auto. }
    rewrite setitem_lt in Hrun by lia. simpl in Hrun.
    rewrite setitem_lt in Hrun by lia. simpl in Hrun.
    pose proof (bfs_inv_discover _ _ _ _ _ _ _ _ _ _ Hinv Hv Hseen Hrow Hx Hn0) as Hinv'.
    destruct (bfs_levels_discover n source res d visited queue parents vertex idx
                Hinv Hlev Hv Hseen Hq Hfar) as (Hlev' & Hq' & Hfar').
    set (d' := λ v, if decide (v = idx) then S (d vertex) else d v) in *.
    assert (idx ≠ vertex) as Hiv by congruence.
    assert (d' vertex = d vertex) as Hdv by (unfold d'; by rewrite decide_False).
    assert (<[idx := true]> visited !! vertex = Some true) as Hv'.
    { by rewrite list_lookup_insert_ne. }
    destruct (Nat.eqb_spec idx sink) as [->|Hne].
    + assert (<[sink := Some vertex]> parents !! sink = Some (Some vertex)) as Hps.
      { apply list_lookup_insert_eq. lia. }
      rewrite (proj2 (item_Ok _ _ _) Hps) in Hrun. simpl in Hrun.
      apply bind_Ok in Hrun as ([lap1 idx1] & _ & Hrun).
      apply bind_Ok in Hrun as (lap2 & _ & Hrun). injection Hrun as <-.
      destruct (scan_row_path n source sink res vertex fullrow lap Hsq Hclean Hs Ht
                  Hrow Hlen _ _ _ _ _ _ _ Hdrop Hinv Hv Hrun0)
        as (p & Hp & Hlinks).
      exists p. split; [done|]. intros k Hk.
      destruct Hp as (Hhd & Hlast & _).
      assert (d' sink = (d' source + length (path_edges p))%nat) as Hlen_p.
      { apply (path_levels d' p source sink Hhd Hlast).
        intros u v Huv. by apply (lev_parent _ _ _ _ _ _ Hlev'), Hlinks. }
      rewrite (lev_source _ _ _ _ _ _ Hlev') in Hlen_p.
      assert (d' sink = S (d vertex)) as Hds by (unfold d'; by rewrite decide_True).
      assert (d vertex < k)%nat; [|lia]. apply (Hfar sink); [congruence|done].
    + assert (∀ u v, <[idx := true]> visited !! u = Some true → u ∉ queue ++ [idx] →
                residual_edge res u v →
                (u = vertex ∧ (S idx ≤ v)%nat) ∨
                <[idx := true]> visited !! v = Some true) as Hcl'.
      { intros u v Hu Hnq Huv.
        assert (u ≠ idx) as Hui.
        { intros ->. apply Hnq, elem_of_app. right. by left. }
        rewrite list_lookup_insert_ne in Hu by done.
        assert (u ∉ queue) as Hnq' by (intros ?; apply Hnq, elem_of_app; by left).
        destruct (Hcl u v Hu Hnq' Huv) as [[-> Hle]|Hvv].
        - destruct (decide (v = idx)) as [->|Hvi].
          + right. apply list_lookup_insert_eq. lia.
          + left. split; [done|lia].
        - right. destruct (decide (v = idx)) as [->|Hvi].
          + apply list_lookup_insert_eq. lia.
          + by rewrite list_lookup_insert_ne. }
      pose proof (IH (S idx) (<[idx := true]> visited) (queue ++ [idx])
                    (<[idx := Some vertex]> parents) d' r Hdrop' Hinv' Hv' Hlev' Hq'
                    Hfar' Hcl' Hrun) as Hres.
      destruct r as [parents' lap'|visited' queue' parents']; [done|].
      destruct Hres as (d'' & Hd'' & Hrest). exists d''. split; [congruence|done].
Qed.

Lemma bfs_loop_levels n source sink res lap :
  square n res → square n lap → (∀ u v, cell lap u v = 0) →
  (source < n)%nat → (sink < n)%nat →
  ∀ fuel visited queue parents d parents' lap',
    bfs_inv n source res visited queue parents →
    bfs_levels source res d visited queue parents →
    (∀ a q, head queue = Some a → q ∈ queue → (d q ≤ S (d a))%nat) →
    (∀ a x k, head queue = Some a → visited !! x ≠ Some true →
              hops res source x k → (d a < k)%nat) →
    (∀ u v, visited !! u = Some true → u ∉ queue → residual_edge res u v →
            visited !! v = Some true) →
    bfs_loop fuel source sink res visited queue parents lap = Ok (Some parents', lap') →
    ∃ p, marks_path res lap' source sink p ∧
         ∀ k, hops res source sink k → (length (path_edges p) ≤ k)%nat.
Proof.
  intros Hres Hsq Hclean Hs Ht.
  induction fuel as [|fuel IH];
    intros visited queue parents d parents' lap' Hinv Hlev Hq Hfar Hcl Hrun; [done|].
  simpl in Hrun. destruct queue as [|vertex queue]; [done|].
  destruct Hlev as [Hl1 Hl2 Hl3 [Hhead Hasc]].
  apply bfs_inv_pop in Hinv as [Hinv Hv].
  apply bind_Ok in Hrun as (row & Hrow & Hrun). apply item_Ok in Hrow.
  apply bind_Ok in Hrun as (r & Hscan & Hrun).
  assert (match r with
          | Reached parents1 lap1 =>
              ∃ p, marks_path res lap1 source sink p ∧
                   ∀ k, hops res source sink k → (length (path_edges p) ≤ k)%nat
          | Scanned visited' queue' parents1 =>
              ∃ d', d' vertex = d vertex ∧
                bfs_inv n source res visited' queue' parents1 ∧
                bfs_levels source res d' visited' queue' parents1 ∧
                (∀ q, q ∈ queue' → (d' vertex ≤ d' q ≤ S (d' vertex))%nat) ∧
                (∀ x k, visited' !! x ≠ Some true → hops res source x k →
                        (d' vertex < k)%nat) ∧
                (∀ u v, visited' !! u = Some true → u ∉ queue' →
                        residual_edge res u v → visited' !! v = Some true)
          end) as Hr.
  { apply (scan_row_levels n source sink res vertex row lap Hsq Hclean Hs Ht Hrow
             (proj2 Hres _ _ Hrow) row 0%nat visited queue parents d r eq_refl Hinv Hv).
    - by split.
    - intros q Hin. split; [by apply Hhead|]. apply (Hq vertex q eq_refl). by right.
    - intros x k. apply (Hfar vertex x k eq_refl).
    - intros u v Hu Hnq Huv.
      destruct (decide (u = vertex)) as [->|Hne]; [left; split; [done|lia]|].
      right. apply (Hcl u v Hu); [|done]. by intros [?|?]%elem_of_cons.
    - exact Hscan. }
  destruct r as [parents1 lap1|visited' queue' parents1]; simpl in Hrun.
  - injection Hrun as <- <-. exact Hr.
  - destruct Hr as (d' & Hdv & Hinv' & Hlev' & Hq' & Hfar' & Hcl').
    apply (IH visited' queue' parents1 d' parents' lap' Hinv' Hlev'); [| |done|done].
    + intros a q Ha Hin. destruct queue' as [|a' queue']; [done|]. injection Ha as ->.
      pose proof (Hq' q Hin). assert (a ∈ a :: queue') as Ha by (by left).
      pose proof (Hq' a Ha). lia.
    + intros a x k Ha Hx Hhops. destruct queue' as [|a' queue']; [done|].
      injection Ha as ->. assert (a ∈ a :: queue') as Ha by (by left).
      destruct (hops_unvisited visited' res source x k
                  (inv_source _ _ _ _ _ _ Hinv') Hx Hhops) as (w & k' & -> & Hw & Hedge).
      destruct (decide (visited' !! w = Some true)) as [Hwv|Hwv].
      * assert (w ∈ a :: queue') as Hin.
        { destruct (decide (w ∈ a :: queue')) as [|Hnin]; [done|].
          destruct Hx. by apply (Hcl' w x). }
        pose proof (ascending_head d' a queue' w (lev_queue _ _ _ _ _ _ Hlev') Hin).
        pose proof (lev_least _ _ _ _ _ _ Hlev' w k' Hwv Hw). lia.
      * pose proof (Hfar' w k' Hwv Hw). pose proof (Hq' a Ha). lia.
Qed.

Lemma _bfs_shortest n source sink st parents st1 :
  square n (graph st) → square n (residual_graph st) →
  (source < n)%nat → (sink < n)%nat →
  _bfs source sink st = Ok (Some parents, st1) →
  ∃ p, marks_path (residual_graph st) (latest_augmenting_path st1) source sink p ∧
       ∀ k, hops (residual_graph st) source sink k → (length (path_edges p) ≤ k)%nat.
Proof.
  intros Hg Hres Hs Ht Hrun. unfold _bfs in Hrun. rewrite (proj1 Hg) in Hrun.
  rewrite setitem_lt in Hrun by (by rewrite length_replicate).
  apply bind_Ok in Hrun as ([r lap'] & Hloop & Hrun). injection Hrun as -> <-.
  simpl.
  assert (<[source := true]> (replicate n false) !! source = Some true) as Hsrc.
  { apply list_lookup_insert_eq. by rewrite length_replicate. }
  apply (bfs_loop_levels n source sink (residual_graph st) (zeros (graph st)) Hres
           (square_zeros _ _ Hg) (cell_zeros _) Hs Ht (S n)
           (<[source := true]> (replicate n false)) [source] (replicate n None)
           (λ _, 0%nat) parents lap'
           (bfs_inv_init n source _ Hs)); [| | | |exact Hloop].
  - split.
    + done.
    + intros v p Hvp. apply lookup_replicate in Hvp as [? _]. done.
    + intros x k _ _. lia.
    + split; [|done]. by intros b ?%elem_of_nil.
  - intros a q _ _. lia.
  - intros a x k _ Hx Hhops.
    destruct (hops_unvisited _ _ _ _ _ Hsrc Hx Hhops) as (w & k' & -> & _). lia.
  - intros u v Hu Hnq Huv. destruct (decide (u = source)) as [->|Hus].
    + destruct Hnq. by left.
    + rewrite list_lookup_insert_ne in Hu by done.
      apply lookup_replicate in Hu as [? _]. done.
Qed.

(** The path that [_bfs] marks is a shortest one: no path of
    traversable edges from the source to the sink has fewer vertices. *)
Theorem bfs_path_is_shortest n source sink st parents st1 :
  square n (graph st) → square n (residual_graph st) →
  (source < n)%nat → (sink < n)%nat →
  _bfs source sink st = Ok (Some parents, st1) →
  ∃ p, marks_path (residual_graph st) (latest_augmenting_path st1) source sink p ∧
       ∀ q, head q = Some source → last q = Some sink →
            (∀ u v, (u, v) ∈ path_edges q → residual_edge (residual_graph st) u v) →
            (length p ≤ length q)%nat.
Proof.
  intros Hg Hres Hs Ht Hrun.
  destruct (_bfs_shortest n source sink st parents st1 Hg Hres Hs Ht Hrun)
    as (p & Hp & Hmin).
  exists p. split; [done|]. intros q Hhd Hlast Hedges.
  specialize (Hmin _ (path_hops _ q source sink Hhd Hlast Hedges)).
  assert (∀ l : list nat, length (path_edges l) = pred (length l)) as Hlen.
  { intros [|a l]; [done|]. unfold path_edges. rewrite length_zip_with.
    change (tail (a :: l)) with l. change (length (a :: l)) with (S (length l)). lia. }
  rewrite !Hlen in Hmin. destruct Hp as (Hp & _). destruct p, q; simpl in *; try done; lia.
Qed.

Lemma bfs_path_is_shortest_witness :
  ∃ p, marks_path textbook
         [ [0; 1; 0; 0; 0; 0]; [0; 0; 0; 1; 0; 0]; [0; 0; 0; 0; 0; 0];
           [0; 0; 0; 0; 0; 1]; [0; 0; 0; 0; 0; 0]; [0; 0; 0; 0; 0; 0] ] 0 5 p ∧
       ∀ q, head q = Some 0%nat → last q = Some 5%nat →
            (∀ u v, (u, v) ∈ path_edges q → residual_edge textbook u v) →
            (length p ≤ length q)%nat.
Proof.
  apply (bfs_path_is_shortest 6 0 5 (init textbook)
           [None; Some 0; Some 0; Some 1; Some 2; Some 3]%nat
           {| graph := textbook; residual_graph := textbook;
              latest_augmenting_path :=
                [ [0; 1; 0; 0; 0; 0]; [0; 0; 0; 1; 0; 0]; [0; 0; 0; 0; 0; 0];
                  [0; 0; 0; 0; 0; 1]; [0; 0; 0; 0; 0; 0]; [0; 0; 0; 0; 0; 0] ];
              current_flow := zeros textbook |}).
  - by apply squareb_square.
  - by apply squareb_square.
  - lia.
  - lia.
  - reflexivity.
Defined.

End FFFacts.

(** ** Facts about the JKU map *)

Module JKUFacts.
Import JKU.

Lemma __init___ok : __init__ = Ok jku_map.
Proof. vm_compute. reflexivity. Qed.

Lemma vertices_jku_map : vertices (base jku_map) = locations.
Proof. vm_compute. reflexivity. Qed.

Lemma shortest_path_check_spec m a b :
  shortest_path_check m a b = true →
  ∃ steps d, shortest_path_facts m a b steps d.
Proof.
  unfold shortest_path_check.
  destruct (get_shortest_path_from_to _ _ _) as [[steps|]|]; try done.
  destruct (reported_distance _ _ _) as [[d|]|]; try done.
  intros H%bool_decide_eq_true. eauto.
Qed.

Lemma find_edge_connects g u v e :
  find_edge g u v = Some e →
  e ∈ edges g ∧ ((first_vertex e = u ∧ second_vertex e = v) ∨
                 (first_vertex e = v ∧ second_vertex e = u)).
Proof.
  unfold find_edge. intros H. apply find_some in H as [Hin Hc].
  split; [by apply list_elem_of_In|].
  unfold connects in Hc. apply orb_prop in Hc as [Hc|Hc];
    apply bool_decide_eq_true in Hc; eauto.
Qed.

Lemma linked_edges_check :
  forallb (λ a, forallb (λ e,
    bool_decide (linked jku_map a (first_vertex e) =
                 linked jku_map a (second_vertex e)))
    (edges (base jku_map))) locations = true.
Proof. vm_compute. reflexivity. Qed.

Lemma linked_edges a e :
  a ∈ locations → e ∈ edges (base jku_map) →
  linked jku_map a (first_vertex e) = linked jku_map a (second_vertex e).
Proof.
  intros Ha He.
  pose proof (forallb_elem _ _ a linked_edges_check Ha) as H1. cbv beta in H1.
  pose proof (forallb_elem _ _ e H1 He) as H2. cbv beta in H2.
  exact (bool_decide_eq_true_1 _ H2).
Qed.

Lemma linked_refl_check : forallb (λ a, linked jku_map a a) locations = true.
Proof. vm_compute. reflexivity. Qed.

Lemma linked_refl a : a ∈ locations → linked jku_map a a = true.
Proof. intros Ha. exact (forallb_elem _ _ a linked_refl_check Ha). Qed.

Lemma adjacent_linked a u v :
  a ∈ locations → adjacent (base jku_map) u v →
  linked jku_map a u = linked jku_map a v.
Proof.
  intros Ha [e He]. apply find_edge_connects in He as [Hin [[<- <-]|[<- <-]]].
  - by apply linked_edges.
  - symmetry. by apply linked_edges.
Qed.

Lemma reachable_linked a b :
  a ∈ locations → reachable (base jku_map) a b → linked jku_map a b = true.
Proof.
  intros Ha H. unfold reachable in H. revert b H. apply rtc_ind_r.
  - by apply linked_refl.
  - intros y z _ Hyz IH. by rewrite <- (adjacent_linked a y z).
Qed.

Lemma walk_cons g a b rest :
  walk g (a :: b :: rest) =
    match find_edge g (point a) (point b) with
    | Some e =>
        if decide (covered_distance b = plus (covered_distance a) (weight e))
        then Z.add (weight e) <$> walk g (b :: rest)
        else None
    | None => None
    end.
Proof. reflexivity. Qed.

Lemma walk_joined g steps d i s1 s2 :
  walk g steps = Some d →
  steps !! i = Some s1 → steps !! S i = Some s2 → joined g s1 s2.
Proof.
  revert d i. induction steps as [|a [|b rest] IH]; intros d i Hw H1 H2; [done..|].
  rewrite walk_cons in Hw.
  destruct (find_edge g (point a) (point b)) as [e|] eqn:He; [|done].
  case_decide as Hcov; [|done].
  destruct (walk g (b :: rest)) as [d'|] eqn:Hrest; [|done].
  destruct i as [|i].
  - simpl in H1, H2. simplify_eq. by exists e.
  - by apply (IH d' i).
Qed.

Lemma shortest_paths_check :
  forallb (λ a, forallb (λ b,
    bool_decide (a = b) || negb (linked jku_map a b) ||
    shortest_path_check jku_map a b) locations) locations = true.
Proof. vm_compute. reflexivity. Qed.

(** C2: for distinct vertices [a] and [b] of the map with [b] reachable
    from [a], [get_shortest_path_from_to(a, b)] returns a list of steps
    that starts with [Step(a, 0)], whose last covered distance is the
    distance that [get_shortest_distances_from(a)] reports for [b], and
    whose consecutive steps are joined by edges of the graph with weights
    summing to that distance; from Teichwerk to Library the path is
    Teichwerk 0, LUI 135, Library 225. *)
Theorem shortest_paths_are_paths a b :
  a ∈ vertices (base jku_map) → b ∈ vertices (base jku_map) → a ≠ b →
  reachable (base jku_map) a b →
  ∃ steps d, shortest_path_facts jku_map a b steps d.
Proof.
  rewrite vertices_jku_map. intros Ha Hb Hab Hreach.
  pose proof (reachable_linked a b Ha Hreach) as Hl.
  pose proof (forallb_elem _ _ a shortest_paths_check Ha) as H1. cbv beta in H1.
  pose proof (forallb_elem _ _ b H1 Hb) as H2. cbv beta in H2.
  rewrite Hl in H2. rewrite (bool_decide_eq_false_2 _ Hab) in H2.
  by apply shortest_path_check_spec.
Qed.

Lemma teichwerk_library_reachable :
  reachable (base jku_map) "Teichwerk" "Library".
Proof.
  apply (rtc_l _ _ "LUI"%string); [|apply rtc_once]; vm_compute; eauto.
Qed.

Lemma shortest_paths_are_paths_witness :
  ∃ steps d, shortest_path_facts jku_map "Teichwerk" "Library" steps d.
Proof.
  apply shortest_paths_are_paths.
  - rewrite vertices_jku_map. unfold locations. set_solver.
  - rewrite vertices_jku_map. unfold locations. set_solver.
  - discriminate.
  - apply teichwerk_library_reachable.
Defined.

Lemma sentinels_check_spec m v w :
  sentinels_check m v w = true → sentinels_agree m v w.
Proof.
  unfold sentinels_check, sentinels_agree.
  destruct (reported_steps _ _ _) as [s|]; [|done].
  destruct (reported_distance _ _ _) as [d|]; [|done].
  intros H. exists s, d. split; [done|]. split; [done|].
  exact (bool_decide_eq_true_1 _ H).
Qed.

Lemma sentinels_check_all :
  forallb (λ v, forallb (sentinels_check jku_map v) locations) locations = true.
Proof. vm_compute. reflexivity. Qed.

(** C9: for vertices [v] and [w] of the map,
    [get_steps_for_shortest_paths_from(v)] reports -1 for [w] if and only
    if [get_shortest_distances_from(v)] reports -1 for [w]. *)
Theorem unreachable_sentinels_agree v w :
  v ∈ vertices (base jku_map) → w ∈ vertices (base jku_map) →
  sentinels_agree jku_map v w.
Proof.
  rewrite vertices_jku_map. intros Hv Hw.
  pose proof (forallb_elem _ _ v sentinels_check_all Hv) as H1. cbv beta in H1.
  exact (sentinels_check_spec _ _ _ (forallb_elem _ _ w H1 Hw)).
Qed.

Lemma unreachable_sentinels_agree_witness :
  sentinels_agree jku_map "Spar" "Castle".
Proof.
  apply unreachable_sentinels_agree.
  - rewrite vertices_jku_map. unfold locations. set_solver.
  - rewrite vertices_jku_map. unfold locations. set_solver.
Defined.

Lemma own_steps_check :
  forallb (λ v, bool_decide
    (reported_steps jku_map (Some v) v = Ok 0 ∧
     path jku_map v v = Ok [mkStep v (Int 0)])) locations = true.
Proof. vm_compute. reflexivity. Qed.

(** C10: for every vertex [v] of the map,
    [get_steps_for_shortest_paths_from(v)] reports 0 for [v] itself, and
    [paths[v][v]] is the one-element list [[Step(v, 0)]]. *)
Theorem own_step_count_is_zero v :
  v ∈ vertices (base jku_map) →
  reported_steps jku_map (Some v) v = Ok 0 ∧
  path jku_map v v = Ok [mkStep v (Int 0)].
Proof.
  rewrite vertices_jku_map. intros Hv.
  exact (bool_decide_eq_true_1 _ (forallb_elem _ _ v own_steps_check Hv)).
Qed.

Lemma own_step_count_is_zero_witness :
  reported_steps jku_map (Some "LUI"%string) "LUI" = Ok 0 ∧
  path jku_map "LUI" "LUI" = Ok [mkStep "LUI" (Int 0)].
Proof.
  apply own_step_count_is_zero.
  rewrite vertices_jku_map. unfold locations. set_solver.
Defined.

Lemma own_entries_check :
  forallb (λ v, bool_decide
    (distance jku_map v v = Ok (Int 0) ∧
     reported_distance jku_map (Some v) v = Ok (Int 0) ∧
     path jku_map v v = Ok [mkStep v (Int 0)])) locations = true.
Proof. vm_compute. reflexivity. Qed.

(** C8, amended: for every vertex [v] of the map, [distances[v][v]] is 0,
    [get_shortest_distances_from(v)] reports 0 for [v], and [paths[v][v]]
    is the one-element list [[Step(v, 0)]]. *)
Theorem own_entries v :
  v ∈ vertices (base jku_map) →
  distance jku_map v v = Ok (Int 0) ∧
  reported_distance jku_map (Some v) v = Ok (Int 0) ∧
  path jku_map v v = Ok [mkStep v (Int 0)].
Proof.
  rewrite vertices_jku_map. intros Hv.
  exact (bool_decide_eq_true_1 _ (forallb_elem _ _ v own_entries_check Hv)).
Qed.

Lemma own_entries_witness :
  distance jku_map "Spar" "Spar" = Ok (Int 0) ∧
  reported_distance jku_map (Some "Spar"%string) "Spar" = Ok (Int 0) ∧
  path jku_map "Spar" "Spar" = Ok [mkStep "Spar" (Int 0)].
Proof.
  apply own_entries. rewrite vertices_jku_map. unfold locations. set_solver.
Defined.

(** C8, as stated, fails: Spar is a vertex of the map and
    [paths[Spar][Spar]] is not the empty list. *)
Lemma own_path_not_empty :
  "Spar"%string ∈ vertices (base jku_map) ∧
  path jku_map "Spar" "Spar" ≠ Ok [].
Proof.
  split; [rewrite vertices_jku_map; unfold locations; set_solver|].
  vm_compute. discriminate.
Qed.

Lemma getitem_not_key {K V} `{EqDecision K} (d : dict K V) k :
  k ∉ keys d → getitem d k = Raise KeyError.
Proof.
  unfold keys. induction d as [|[k' v] d IH]; simpl; [done|].
  intros Hk. apply not_elem_of_cons in Hk as [Hne Hk].
  rewrite decide_False by done. by apply IH.
Qed.

Lemma getitem_key {K V} `{EqDecision K} (d : dict K V) k :
  k ∈ keys d → ∃ v, getitem d k = Ok v ∧ (k, v) ∈ d.
Proof.
  unfold keys. induction d as [|[k' v] d IH]; simpl; intros Hk.
  - by apply elem_of_nil in Hk.
  - destruct (decide (k' = k)) as [->|Hne].
    + exists v. split; [done|]. by left.
    + apply elem_of_cons in Hk as [Hk|Hk]; [congruence|].
      destruct (IH Hk) as (v' & Hv' & Hin). exists v'. split; [done|]. by right.
Qed.

Lemma path_query_raised (m : JKUMap) a b :
  keys (paths m) = vertices (base m) →
  (∀ u row, (u, row) ∈ paths m → keys row = vertices (base m)) →
  raised (get_shortest_path_from_to m a b) = path_query_error m a b.
Proof.
  intros Hkeys Hrows. destruct a as [u|], b as [v|]; try done. simpl.
  destruct (decide (u = v)) as [|Hne]; [done|].
  destruct (decide (u ∈ vertices (base m) ∧ v ∈ vertices (base m)))
    as [[Hu Hv]|Hn].
  - rewrite <- Hkeys in Hu. destruct (getitem_key _ _ Hu) as (row & -> & Hrow).
    simpl. apply Hrows in Hrow. rewrite <- Hrow in Hv.
    by destruct (getitem_key _ _ Hv) as (p & -> & _).
  - destruct (decide (u ∈ keys (paths m))) as [Hu|Hu].
    + destruct (getitem_key _ _ Hu) as (row & -> & Hrow). simpl.
      apply Hrows in Hrow. rewrite getitem_not_key; [done|].
      rewrite Hrow. rewrite Hkeys in Hu. naive_solver.
    + by rewrite (getitem_not_key _ _ Hu).
Qed.

Lemma distances_query_raised (m : JKUMap) a :
  keys (distances m) = vertices (base m) →
  raised (get_shortest_distances_from m a) = origin_query_error m a.
Proof.
  intros Hkeys. destruct a as [u|]; [|done]. simpl.
  destruct (decide (u ∈ vertices (base m))) as [Hu|Hu]; rewrite <- Hkeys in Hu.
  - by destruct (getitem_key _ _ Hu) as (row & -> & _).
  - by rewrite (getitem_not_key _ _ Hu).
Qed.

Lemma steps_query_raised (m : JKUMap) a :
  keys (paths m) = vertices (base m) →
  (∀ u row, (u, row) ∈ paths m → keys row = vertices (base m)) →
  vertices (base m) ≠ [] →
  raised (get_steps_for_shortest_paths_from m a) = origin_query_error m a.
Proof.
  intros Hkeys Hrows Hne. destruct a as [u|]; [|done]. simpl.
  destruct (decide (u ∈ vertices (base m))) as [Hu|Hu]; rewrite <- Hkeys in Hu.
  - destruct (getitem_key _ _ Hu) as (row & Hrow & Hin). apply Hrows in Hin.
    match goal with |- raised (for_each ?body ?l ?s) = _ =>
      destruct (for_each_inv (λ _, True) (λ v, v ∈ vertices (base m)) body l s)
        as (lengths & -> & _) end; [by apply Forall_forall|done| |done].
    intros v lengths Hv _. rewrite Hrow. simpl.
    rewrite <- Hin in Hv. destruct (getitem_key _ _ Hv) as (p & -> & _). simpl. eauto.
  - destruct (vertices (base m)) as [|v l]; [done|]. simpl.
    by rewrite (getitem_not_key _ _ Hu).
Qed.

Lemma tables_keys :
  keys (paths jku_map) = vertices (base jku_map) ∧
  keys (distances jku_map) = vertices (base jku_map) ∧
  forallb (λ kv, bool_decide (keys kv.2 = vertices (base jku_map)))
          (paths jku_map) = true.
Proof. vm_compute. done. Qed.

(** C7, amended: whether and what each of the three queries raises is
    determined by its arguments.  [ValueError] is raised exactly for a
    [None] argument and, by [get_shortest_path_from_to], for equal
    arguments; with vertices of the map nothing else is raised; a vertex
    that is not in the map makes the lookup in the tables raise
    [KeyError]. *)
Theorem query_errors (a b : option Vertex) :
  raised (get_shortest_path_from_to jku_map a b) = path_query_error jku_map a b ∧
  raised (get_shortest_distances_from jku_map a) = origin_query_error jku_map a ∧
  raised (get_steps_for_shortest_paths_from jku_map a) =
    origin_query_error jku_map a.
Proof.
  destruct tables_keys as (Hp & Hd & Hrows).
  assert (∀ u row, (u, row) ∈ paths jku_map → keys row = vertices (base jku_map))
    as Hrows'.
  { intros u row Hin.
    exact (bool_decide_eq_true_1 _ (forallb_elem _ _ (u, row) Hrows Hin)). }
  split; [exact (path_query_raised _ _ _ Hp Hrows')|].
  split; [exact (distances_query_raised _ _ Hd)|].
  refine (steps_query_raised _ _ Hp Hrows' _).
  rewrite vertices_jku_map. discriminate.
Qed.

(** C7, as stated, fails: a vertex that is not in the map is neither
    [None] nor equal to the other argument, and the three queries raise
    [KeyError] for it, not [ValueError]. *)
Lemma unknown_vertex_raises_key_error :
  get_shortest_distances_from jku_map (Some "Mensa"%string) = Raise KeyError ∧
  get_steps_for_shortest_paths_from jku_map (Some "Mensa"%string) = Raise KeyError ∧
  get_shortest_path_from_to jku_map (Some "Spar"%string) (Some "Mensa"%string)
    = Raise KeyError.
Proof. vm_compute. done. Qed.

(** *** Shortest routes *)










(** *** What the queries report *)

Lemma getitem_elem {K V} `{EqDecision K} (d : dict K V) k v :
  getitem d k = Ok v → (k, v) ∈ d.
Proof.
  induction d as [|[k' v'] d IH]; simpl; [done|].
  case_decide as Hk; [intros [= ->]; subst; by left|].
  intros H. right. by apply IH.
Qed.

Lemma elem_of_assign {K V} `{EqDecision K} (d : dict K V) k v k' v' :
  (k, v) ∈ assign d k' v' → (k, v) ∈ d ∨ (k = k' ∧ v = v').
Proof.
  induction d as [|[k0 v0] d IH]; simpl.
  - intros [= -> ->]%list_elem_of_singleton. by right.
  - case_decide as Hk.
    + intros [[= -> ->]|Hin]%elem_of_cons; [by right|]. left. by right.
    + intros [[= -> ->]|Hin]%elem_of_cons; [left; by left|].
      destruct (IH Hin) as [?|?]; [left; by right|by right].
Qed.

(** Whatever the tables hold, the three queries read them and hide
    their sentinels: [get_shortest_path_from_to] never returns an empty
    list, a distance reported by [get_shortest_distances_from] is never
    infinite (it is an entry of the row, with -1 for infinity), and a step
    count reported by [get_steps_for_shortest_paths_from] is the length of
    the recorded path less one. *)
Theorem queries_read_the_tables (m : JKUMap) (a : Vertex) :
  (∀ b r, get_shortest_path_from_to m (Some a) b = Ok r → r ≠ Some []) ∧
  (∀ d b x, get_shortest_distances_from m (Some a) = Ok d → getitem d b = Ok x →
     x ≠ Inf ∧
     ∃ row y, getitem (distances m) a = Ok row ∧ (b, y) ∈ row ∧
              x = if decide (y = Inf) then Int (-1) else y) ∧
  (∀ d b s, get_steps_for_shortest_paths_from m (Some a) = Ok d → getitem d b = Ok s →
     ∃ p, path m a b = Ok p ∧ s = Z.of_nat (length p) - 1).
Proof.
  split; [|split].
  - intros [b|] r; simpl; [|done]. case_decide; [done|].
    intros (row & _ & (p & _ & Hr)%bind_Ok)%bind_Ok.
    injection Hr as <-. case_decide as Hlen; [|done].
    destruct p; [simpl in Hlen; lia|done].
  - intros d b x. simpl. intros (row & Hrow & Hd)%bind_Ok Hx. injection Hd as <-.
    apply getitem_elem in Hx.
    assert (∀ (l acc : dict Vertex number),
              (b, x) ∈ foldl (λ d kv, assign d kv.1
                                (if decide (kv.2 ≠ Inf) then kv.2 else Int (-1))) acc l →
              (b, x) ∈ acc ∨
              ∃ y, (b, y) ∈ l ∧ x = if decide (y = Inf) then Int (-1) else y) as Hfold.
    { induction l as [|[k y] l IH]; intros acc Hin; simpl in Hin; [by left|].
      destruct (IH _ Hin) as [Hacc|(y' & Hy' & ->)].
      - apply elem_of_assign in Hacc as [?|[-> ->]]; [by left|]. right.
        exists y. split; [by left|]. simpl. by repeat case_decide.
      - right. exists y'. split; [by right|done]. }
    destruct (Hfold row [] Hx) as [Hnil|(y & Hy & ->)]; [by apply elem_of_nil in Hnil|].
    split; [by case_decide|]. by exists row, y.
  - intros d b s. simpl. intros Hd Hs. apply getitem_elem in Hs.
    assert (∀ (l : list Vertex) (acc d : dict string Z),
              for_each (λ vertex lengths,
                          row ← getitem (paths m) a;
                          p ← getitem row vertex;
                          Ok (assign lengths vertex (Z.of_nat (length p) - 1))) l acc
                = Ok d →
              (b, s) ∈ d →
              (b, s) ∈ acc ∨ ∃ p, path m a b = Ok p ∧ s = Z.of_nat (length p) - 1)
      as Hfold.
    { induction l as [|v l IH]; intros acc d' Hrun Hin; simpl in Hrun.
      - injection Hrun as <-. by left.
      - apply bind_Ok in Hrun as (acc' & Hbody & Hrun).
        apply bind_Ok in Hbody as (row & Hrow & Hbody).
        apply bind_Ok in Hbody as (p & Hp & Hbody). injection Hbody as <-.
        destruct (IH _ _ Hrun Hin) as [Hacc|?]; [|by right].
        apply elem_of_assign in Hacc as [?|[-> ->]]; [by left|]. right.
        exists p. split; [|done]. unfold path. by rewrite Hrow. }
    destruct (Hfold _ _ _ Hd Hs) as [Hnil|?]; [by apply elem_of_nil in Hnil|done].
Qed.

Lemma queries_read_the_tables_witness :
  ∃ p, path jku_map "Spar" "Castle" = Ok p ∧ -1 = Z.of_nat (length p) - 1.
Proof.
  assert (get_steps_for_shortest_paths_from jku_map (Some "Spar"%string)
          = Ok steps_from_spar) as Hd by (vm_compute; reflexivity).
  exact (proj2 (proj2 (queries_read_the_tables jku_map "Spar"))
           steps_from_spar "Castle" (-1) Hd eq_refl).
Defined.

End JKUFacts.
